(** * ArtraCFD: immersed boundary node classification and reconstruction

    Functional model of [Serial/immersed_boundary.c] and proofs about it.

    Conventions of the model.
    - [Real] values are exact rationals [Q]: the functions below are the
      code with every operation carried out without rounding error.  Copies
      of a value are stated with Leibniz equality, computed values with
      [==].  The arithmetic parts of the code are given a second time for an
      arbitrary arithmetic, the binary64 numbers among them, in the module
      [Kernel]; a statement that holds in exact arithmetic only says so.
    - [int] values are [Z]; grid indices and counters are assumed to stay in
      the range of [int].
    - A C array of reals is a function from its index, [RealArr]; the node
      array [space->node] and the polyhedron array [geo->poly] are functions
      from the linear index.  Reads outside of the allocated range are
      undefined in C and unconstrained here.
    - The functions, constants and types of [commons.h], [cfd_commons.h] and
      [computational_geometry.h] are not part of this file: the constants and
      functions whose definition matters to no statement are the fields of the
      class [Extern]; the linear algebra helpers are written out.
    - The only loop without a bound, the radius expansion of
      [InverseDistanceWeighting], takes a fuel argument that bounds the number
      of tests of its loop condition; [None] means that the loop is still
      running when the fuel is used up. *)

From Stdlib Require Import ZArith QArith Qminmax Qround List Sorted Lia Lqa Bool.
From Stdlib Require PrimFloat FloatOps SpecFloat.
Import ListNotations.

Set Implicit Arguments.
Open Scope Z_scope.

(** ** Data model *)

(** Coordinate directions [X], [Y], [Z] of [commons.h] (the last one renamed,
    [Z] being the type of integers) and the two ends [MIN], [MAX] of a range. *)
Inductive Axis : Set := AX | AY | AZ.
Inductive Limit : Set := MIN | MAX.

Definition RealVec := Axis -> Q.
Definition IntVec := Axis -> Z.
Definition RealArr := Z -> Q.

Definition mkRealVec (x y z : Q) : RealVec :=
  fun s => match s with AX => x | AY => y | AZ => z end.
Definition mkIntVec (x y z : Z) : IntVec :=
  fun s => match s with AX => x | AY => y | AZ => z end.

(** [a[i] = v] *)
Definition upd (a : RealArr) (i : Z) (v : Q) : RealArr :=
  fun c => if c =? i then v else a c.

(** Number of primitive variables: density, three velocity components,
    pressure and temperature, at the indices 0 to 5 used by the source. *)
Definition DIMUo : Z := 6.

(** [typedef enum { R = 2 } IBM;] *)
Definition R : Z := 2.

(** A grid node: conservative state per time level, geometry identifier,
    face identifier, interfacial layer identifier and ghost layer identifier. *)
Record Node : Type := mkNode {
  U : Z -> RealArr;
  gid : Z;
  fid : Z;
  lid : Z;
  gst : Z
}.

Definition set_U (tn : Z) (u : RealArr) (nd : Node) : Node :=
  mkNode (fun t => if t =? tn then u else U nd t) (gid nd) (fid nd) (lid nd) (gst nd).
Definition set_gid (v : Z) (nd : Node) : Node :=
  mkNode (U nd) v (fid nd) (lid nd) (gst nd).
Definition set_fid (v : Z) (nd : Node) : Node :=
  mkNode (U nd) (gid nd) v (lid nd) (gst nd).
Definition set_lid (v : Z) (nd : Node) : Node :=
  mkNode (U nd) (gid nd) (fid nd) v (gst nd).
Definition set_gst (v : Z) (nd : Node) : Node :=
  mkNode (U nd) (gid nd) (fid nd) (lid nd) v.

Definition Nodes := Z -> Node.

(** [node[idx] = nd] *)
Definition upd_node (node : Nodes) (idx : Z) (nd : Node) : Nodes :=
  fun i => if i =? idx then nd else node i.

(** The fields of [Polyhedron] that this file reads. *)
Record Polyhedron : Type := mkPolyhedron {
  poly_faceN : Z;
  poly_state : Z;
  poly_O : RealVec;
  poly_r : Q;
  poly_box : Axis -> Limit -> Q;
  poly_cf : Q;
  poly_T : Q;
  poly_V : Z -> RealVec;
  poly_W : Z -> RealVec
}.

Record Geometry : Type := mkGeometry {
  totN : Z;
  poly : Z -> Polyhedron
}.

(** The fields of [Partition] that this file reads; [part_ns_PIN] is the
    slice [ns[PIN]] of the interior node range. *)
Record Partition : Type := mkPartition {
  part_n : Axis -> Z;
  part_ns_PIN : Axis -> Limit -> Z;
  part_domain : Axis -> Limit -> Q;
  part_d : Axis -> Q;
  part_dd : Axis -> Q;
  part_ng : Z;
  part_gl : Z;
  part_tinyL : Q;
  part_pathSep : Z -> Z;
  part_path : Z -> Axis -> Z
}.

(** The fields of [Model] read by the functions below. *)
Record Model : Type := mkModel {
  gamma : Q;
  gasR : Q
}.

Record Space : Type := mkSpace {
  part : Partition;
  node : Nodes;
  geo : Geometry
}.

Definition set_node (nodes : Nodes) (space : Space) : Space :=
  mkSpace (part space) nodes (geo space).

(** ** External collaborators

    Constants and functions of the headers that are taken as parameters.
    [PointInPolyhedron] returns the inclusion flag together with the
    identifier of the nearest face, which the C function hands back through
    its last argument; the functions with an output array return that
    array. *)
Class Extern : Type := {
  NONE : Z;
  TO : Z;
  IndexNode : Z -> Z -> Z -> Z -> Z -> Z;
  PointSpace : Z -> Q -> Q -> Z -> Q;
  NodeSpace : Q -> Q -> Q -> Z -> Z;
  ValidNodeSpace : Z -> Z -> Z -> Z;
  PointInPolyhedron : RealVec -> Polyhedron -> bool * Z;
  Normalize : Z -> Q -> RealArr -> RealArr;
  PrimitiveByConservative : Q -> Q -> RealArr -> RealArr;
  ConservativeByPrimitive : Q -> RealArr -> RealArr;
  OrthogonalSpace : RealVec -> RealVec * RealVec
}.

(** Modelled from the spec: [Dist2] of [commons.h], the squared distance of
    two points. *)
Definition Dist2 (a b : RealVec) : Q :=
  ((a AX - b AX) * (a AX - b AX) + (a AY - b AY) * (a AY - b AY)
   + (a AZ - b AZ) * (a AZ - b AZ))%Q.

(** Modelled from the spec: [Dot] of [commons.h], the dot product. *)
Definition Dot (a b : RealVec) : Q :=
  (a AX * b AX + a AY * b AY + a AZ * b AZ)%Q.

(** Modelled from the spec: [Cross] of [commons.h], the cross product. *)
Definition Cross (a b : RealVec) : RealVec :=
  mkRealVec (a AY * b AZ - a AZ * b AY)%Q
            (a AZ * b AX - a AX * b AZ)%Q
            (a AX * b AY - a AY * b AX)%Q.

(** ** Loops *)

(** The values taken by the counter of [for (m = lo; m < hi; ++m)]. *)
Definition zrange (lo hi : Z) : list Z :=
  map (fun m => lo + Z.of_nat m) (seq 0 (Z.to_nat (hi - lo))).

(** [for (m = lo; m < hi; ++m) body] on a state of type [S]. *)
Definition for_range {S : Type} (lo hi : Z) (body : Z -> S -> S) (s : S) : S :=
  fold_left (fun s m => body m s) (zrange lo hi) s.

(** A loop whose body may fail to return. *)
Fixpoint foldM {S A : Type} (body : A -> S -> option S) (l : list A) (s : S)
  : option S :=
  match l with
  | [] => Some s
  | a :: l' =>
      match body a s with
      | Some s' => foldM body l' s'
      | None => None
      end
  end.

Definition for_rangeM {S : Type} (lo hi : Z) (body : Z -> S -> option S) (s : S)
  : option S :=
  foldM body (zrange lo hi) s.

(** ** The code *)

Section Code.

Context {E : Extern}.

(** [IndexNode(k, j, i, part->n[Y], part->n[X])] *)
Definition node_index (part : Partition) (k j i : Z) : Z :=
  IndexNode k j i (part_n part AY) (part_n part AX).

(** The point of node [(k, j, i)]: the three calls of [PointSpace]. *)
Definition node_point (part : Partition) (k j i : Z) : RealVec :=
  mkRealVec
    (PointSpace i (part_domain part AX MIN) (part_d part AX) (part_ng part))
    (PointSpace j (part_domain part AY MIN) (part_d part AY) (part_ng part))
    (PointSpace k (part_domain part AZ MIN) (part_d part AZ) (part_ng part)).

(** The nest [for k ... for j ... for i ...] over a box of nodes. *)
Definition sweep {S : Type} (lo hi : Axis -> Z) (body : Z -> Z -> Z -> S -> S)
  (s : S) : S :=
  for_range (lo AZ) (hi AZ) (fun k =>
    for_range (lo AY) (hi AY) (fun j =>
      for_range (lo AX) (hi AX) (fun i => body k j i))) s.

Definition sweepM {S : Type} (lo hi : Axis -> Z)
  (body : Z -> Z -> Z -> S -> option S) (s : S) : option S :=
  for_rangeM (lo AZ) (hi AZ) (fun k =>
    for_rangeM (lo AY) (hi AY) (fun j =>
      for_rangeM (lo AX) (hi AX) (fun i => body k j i))) s.

(** The interior region [ns[PIN]] *)
Definition nMin (part : Partition) : Axis -> Z := fun s => part_ns_PIN part s MIN.
Definition nMax (part : Partition) : Axis -> Z := fun s => part_ns_PIN part s MAX.

(** *** InitializeGeometryDomain *)

(** Body of the loop nest of [InitializeGeometryDomain]. *)
Definition InitializeGeometryDomain_node (part : Partition) (geo : Geometry)
  (k j i : Z) (node : Nodes) : Nodes :=
  let idx := node_index part k j i in
  let g := gid (node idx) in
  if 0 >=? g then
    upd_node node idx (set_gst 0 (set_lid 0 (set_gid 0 (node idx))))
  else
    let p := poly geo (g - 1) in
    if 1 =? poly_state p then
      upd_node node idx (set_gst 0 (set_lid 0 (node idx)))
    else if 0 <? lid (node idx) then
      upd_node node idx (set_gst 0 (set_lid 0 (set_gid 0 (node idx))))
    else node.

Definition InitializeGeometryDomain (space : Space) : Space :=
  let part := part space in
  set_node
    (sweep (nMin part) (nMax part)
       (InitializeGeometryDomain_node part (geo space)) (node space))
    space.

(** *** IdentifyGeometryNode *)

(** The search range [box] of a polyhedron in node space. *)
Definition search_box (part : Partition) (p : Polyhedron) (l : Limit) (s : Axis) : Z :=
  match l with
  | MIN =>
      ValidNodeSpace
        (NodeSpace (poly_box p s MIN) (part_domain part s MIN) (part_dd part s)
           (part_ng part))
        (nMin part s) (nMax part s)
  | MAX =>
      ValidNodeSpace
        (NodeSpace (poly_box p s MAX) (part_domain part s MIN) (part_dd part s)
           (part_ng part))
        (nMin part s) (nMax part s) + 1
  end.

(** Body of the loop nest over the box of polyhedron [n]. *)
Definition IdentifyGeometryNode_node (part : Partition) (n : Z) (p : Polyhedron)
  (k j i : Z) (node : Nodes) : Nodes :=
  let idx := node_index part k j i in
  if negb (0 =? gid (node idx)) then node
  else
    let pt := node_point part k j i in
    if 0 =? poly_faceN p then
      if Qle_bool (Dist2 (poly_O p) pt) (poly_r p * poly_r p) then
        upd_node node idx (set_fid 0 (set_gid (n + 1) (node idx)))
      else node
    else
      let '(inside, f) := PointInPolyhedron pt p in
      if inside then
        upd_node node idx (set_fid f (set_gid (n + 1) (node idx)))
      else node.

(** Body of the loop over the polyhedrons. *)
Definition IdentifyGeometryNode_poly (part : Partition) (geo : Geometry)
  (n : Z) (node : Nodes) : Nodes :=
  let p := poly geo n in
  if 1 =? poly_state p then node
  else
    sweep (search_box part p MIN) (search_box part p MAX)
      (IdentifyGeometryNode_node part n p) node.

Definition IdentifyGeometryNode (space : Space) : Space :=
  set_node
    (for_range 0 (totN (geo space))
       (IdentifyGeometryNode_poly (part space) (geo space)) (node space))
    space.

(** *** InterfacialState and GhostState *)

(** [for (r = 1; r <= part->gl; ++r) if (part->pathSep[r] > n) return r;] *)
Definition path_layer (part : Partition) (n : Z) : option Z :=
  find (fun r => n <? part_pathSep part r) (zrange 1 (part_gl part + 1)).

Fixpoint InterfacialState_scan (k j i g : Z) (path : Z -> Axis -> Z)
  (node : Nodes) (part : Partition) (ns : list Z) : Z :=
  match ns with
  | [] => 0
  | n :: rest =>
      let idx := IndexNode (k + path n AZ) (j + path n AY) (i + path n AX)
                   (part_n part AY) (part_n part AX) in
      if NONE =? gid (node idx) then
        InterfacialState_scan k j i g path node part rest
      else if negb (g =? gid (node idx)) then
        match path_layer part n with
        | Some r => r
        | None => InterfacialState_scan k j i g path node part rest
        end
      else InterfacialState_scan k j i g path node part rest
  end.

Definition InterfacialState (k j i g end_ : Z) (path : Z -> Axis -> Z)
  (node : Nodes) (part : Partition) : Z :=
  InterfacialState_scan k j i g path node part (zrange 0 end_).

Fixpoint GhostState_scan (k j i g : Z) (path : Z -> Axis -> Z)
  (node : Nodes) (part : Partition) (ns : list Z) : Z :=
  match ns with
  | [] => 0
  | n :: rest =>
      let idx := IndexNode (k + path n AZ) (j + path n AY) (i + path n AX)
                   (part_n part AY) (part_n part AX) in
      if NONE =? gid (node idx) then
        GhostState_scan k j i g path node part rest
      else if g =? gid (node idx) then
        match path_layer part n with
        | Some r => r
        | None => GhostState_scan k j i g path node part rest
        end
      else GhostState_scan k j i g path node part rest
  end.

Definition GhostState (k j i g end_ : Z) (path : Z -> Axis -> Z)
  (node : Nodes) (part : Partition) : Z :=
  GhostState_scan k j i g path node part (zrange 0 end_).

(** *** ApplyWeighting and InverseDistanceWeighting *)

(** Returns the new [*weightSum] and the new [Uo]. *)
Definition ApplyWeighting (Uoh : RealArr) (tiny weight weightSum : Q)
  (Uo : RealArr) : Q * RealArr :=
  let weight := if Qlt_le_dec weight tiny then tiny else weight in
  let weight := (1 / weight)%Q in
  let Uo := for_range 0 DIMUo (fun n Uo => upd Uo n (Uo n + Uoh n * weight)%Q) Uo in
  ((weightSum + weight)%Q, Uo).

(** The variables the search loop updates. *)
Record Accum : Type := mkAccum {
  tally : Z;
  weightSum : Q;
  Uo_acc : RealArr
}.

(** Body of the loop nest over the offsets [(kh, jh, ih)]. *)
Definition InverseDistanceWeighting_node (tn : Z) (n : IntVec) (p : RealVec)
  (type g : Z) (part : Partition) (node : Nodes) (model : Model)
  (kh jh ih : Z) (a : Accum) : Accum :=
  let idxMax := part_n part AX * part_n part AY * part_n part AZ in
  let idx := IndexNode (n AZ + kh) (n AY + jh) (n AX + ih)
               (part_n part AY) (part_n part AX) in
  if (0 >? idx) || (idxMax <=? idx) then a
  else if negb (g =? gid (node idx)) then a
  else if (if 0 =? g then negb (type =? fid (node idx))
           else negb (type =? gst (node idx))) then a
  else
    let ph := node_point part (n AZ + kh) (n AY + jh) (n AX + ih) in
    let Uoh := PrimitiveByConservative (gamma model) (gasR model) (U (node idx) tn) in
    let '(ws, Uo) :=
      ApplyWeighting Uoh (part_tinyL part) (Dist2 p ph) (weightSum a) (Uo_acc a) in
    mkAccum (tally a + 1) ws Uo.

(** One pass over the cube of half width [r]. *)
Definition InverseDistanceWeighting_cube (tn : Z) (n : IntVec) (p : RealVec)
  (type g : Z) (part : Partition) (node : Nodes) (model : Model)
  (r : Z) (a : Accum) : Accum :=
  sweep (fun _ => - r) (fun _ => r + 1)
    (InverseDistanceWeighting_node tn n p type g part node model) a.

(** [for (int r = h, tally = 0; 0 == tally; ++r)]: [fuel] bounds the number
    of tests of the condition. *)
Fixpoint InverseDistanceWeighting_loop (fuel : nat) (tn : Z) (n : IntVec)
  (p : RealVec) (type g : Z) (part : Partition) (node : Nodes) (model : Model)
  (r : Z) (a : Accum) : option Accum :=
  match fuel with
  | O => None
  | S fuel' =>
      if 0 =? tally a then
        InverseDistanceWeighting_loop fuel' tn n p type g part node model (r + 1)
          (InverseDistanceWeighting_cube tn n p type g part node model r a)
      else Some a
  end.

(** Returns the weight sum and the array [Uo]. *)
Definition InverseDistanceWeighting (fuel : nat) (tn : Z) (n : IntVec)
  (p : RealVec) (h type g : Z) (part : Partition) (node : Nodes) (model : Model)
  : option (Q * RealArr) :=
  match
    InverseDistanceWeighting_loop fuel tn n p type g part node model h
      (mkAccum 0 0 (fun _ => 0%Q))
  with
  | Some a => Some (weightSum a, Uo_acc a)
  | None => None
  end.

(** *** IdentifyInterfacialNode *)

(** Reconstruction of a newly joined node, lines 244 to 254. *)
Definition reconstruct_node (part : Partition) (model : Model) (k j i : Z)
  (node : Nodes) (weightSum : Q) (Uo : RealArr) : Nodes :=
  let idx := node_index part k j i in
  let Uo := Normalize DIMUo weightSum Uo in
  let Uo := upd Uo 0 (Uo 4%Z / (Uo 5%Z * gasR model))%Q in
  let node :=
    upd_node node idx (set_U TO (ConservativeByPrimitive (gamma model) Uo) (node idx)) in
  upd_node node idx (set_fid NONE (node idx)).

(** Classification of an owned node, lines 265 to 270. *)
Definition classify_node (part : Partition) (k j i : Z) (node : Nodes) : Nodes :=
  let idx := node_index part k j i in
  let node :=
    upd_node node idx
      (set_lid
         (InterfacialState k j i (gid (node idx)) (part_pathSep part 0)
            (part_path part) node part)
         (node idx)) in
  let node := upd_node node idx (set_gst 0 (node idx)) in
  if negb (0 =? lid (node idx)) && negb (0 =? gid (node idx)) then
    upd_node node idx
      (set_gst
         (GhostState k j i 0 (part_pathSep part 0) (part_path part) node part)
         (node idx))
  else node.

(** Body of the loop nest of [IdentifyInterfacialNode]. *)
Definition IdentifyInterfacialNode_node (fuel : nat) (part : Partition)
  (model : Model) (k j i : Z) (node : Nodes) : option Nodes :=
  let idx := node_index part k j i in
  let joined :=
    if negb (NONE =? fid (node idx)) && (0 =? gid (node idx)) then
      match
        InverseDistanceWeighting fuel TO (mkIntVec i j k) (node_point part k j i)
          R NONE 0 part node model
      with
      | Some (weightSum, Uo) => Some (reconstruct_node part model k j i node weightSum Uo)
      | None => None
      end
    else Some node in
  match joined with
  | None => None
  | Some node =>
      if 0 =? gid (node idx) then Some node
      else Some (classify_node part k j i node)
  end.

Definition IdentifyInterfacialNode (fuel : nat) (space : Space) (model : Model)
  : option Space :=
  let part := part space in
  match
    sweepM (nMin part) (nMax part)
      (IdentifyInterfacialNode_node fuel part model) (node space)
  with
  | Some nodes => Some (set_node nodes space)
  | None => None
  end.

(** *** ComputeGeometryDomain *)

Definition ComputeGeometryDomain (fuel : nat) (space : Space) (model : Model)
  : option Space :=
  IdentifyInterfacialNode fuel
    (IdentifyGeometryNode (InitializeGeometryDomain space)) model.

(** *** MethodOfImage *)

Definition MethodOfImage (UoI UoO UoG : RealArr) : RealArr :=
  let UoG := upd UoG 1 (UoO 1%Z + UoO 1%Z - UoI 1%Z)%Q in
  let UoG := upd UoG 2 (UoO 2%Z + UoO 2%Z - UoI 2%Z)%Q in
  let UoG := upd UoG 3 (UoO 3%Z + UoO 3%Z - UoI 3%Z)%Q in
  let UoG := upd UoG 4 (UoI 4) in
  upd UoG 5 (UoI 5).

(** *** FlowReconstruction *)

(** Returns the arrays [UoO] and [UoI]. *)
Definition FlowReconstruction (fuel : nat) (tn : Z) (n : IntVec) (p : RealVec)
  (h type g : Z) (poly : Polyhedron) (part : Partition) (node : Nodes)
  (model : Model) (pO N : RealVec) (UoO : RealArr) : option (RealArr * RealArr) :=
  let zero := 0%Q in
  let one := 1%Q in
  match InverseDistanceWeighting fuel tn n p h type g part node model with
  | None => None
  | Some (weightSum, UoI) =>
      let weight := (one / weightSum)%Q in
      let r := mkRealVec (pO AX - poly_O poly AX)%Q (pO AY - poly_O poly AY)%Q
                 (pO AZ - poly_O poly AZ)%Q in
      let Vs := Cross (poly_W poly TO) r in
      let Vs := mkRealVec (poly_V poly TO AX + Vs AX)%Q (poly_V poly TO AY + Vs AY)%Q
                  (poly_V poly TO AZ + Vs AZ)%Q in
      let UoO :=
        if Qlt_le_dec zero (poly_cf poly) then
          upd (upd (upd UoO 1 (Vs AX)) 2 (Vs AY)) 3 (Vs AZ)
        else
          let VI := mkRealVec (UoI 1%Z * weight)%Q (UoI 2%Z * weight)%Q (UoI 3%Z * weight)%Q in
          let '(Ta, Tb) := OrthogonalSpace N in
          let RHS := mkRealVec (Dot Vs N) (Dot VI Ta) (Dot VI Tb) in
          upd (upd (upd UoO
            1 (N AX * RHS AX + Ta AX * RHS AY + Tb AX * RHS AZ)%Q)
            2 (N AY * RHS AX + Ta AY * RHS AY + Tb AY * RHS AZ)%Q)
            3 (N AZ * RHS AX + Ta AZ * RHS AY + Tb AZ * RHS AZ)%Q in
      let UoO := upd UoO 4 (UoI 4%Z * weight)%Q in
      let UoO :=
        if Qlt_le_dec (poly_T poly) zero then upd UoO 5 (UoI 5%Z * weight)%Q
        else upd UoO 5 (poly_T poly) in
      let '(weightSum, UoI) :=
        ApplyWeighting UoO (part_tinyL part) (Dist2 p pO) weightSum UoI in
      Some (UoO, Normalize DIMUo weightSum UoI)
  end.

End Code.


(** ** Geometric data and the treatment of the ghost nodes *)

(** Number of space dimensions.  A [RealVec] handed to a function that takes
    an array is the array of its components: the directions [X], [Y], [Z]
    are the indices 0, 1, 2 over which [for (s = 0; s < DIMS; ++s)] runs. *)
Definition DIMS : Z := 3.

Definition arr_of_vec (v : RealVec) : RealArr :=
  fun c => if c =? 0 then v AX else if c =? 1 then v AY else v AZ.

Definition vec_of_arr (a : RealArr) : RealVec := mkRealVec (a 0) (a 1) (a 2).

(** The functions of [commons.h] and [computational_geometry.h] that only
    [ComputeGeometricData] calls: the length of a vector, and the boundary
    point and normal that [ComputeIntersection] returns for a ghost point and
    a face of a triangulated polyhedron. *)
Class Geometric : Type := {
  Norm : RealVec -> Q;
  ComputeIntersection : RealVec -> Z -> Polyhedron -> RealVec * RealVec
}.

(** The variables that [ImmersedBoundaryTreatment] carries from one node to
    the next: the node store and the local arrays [UoG] and [UoO].  The array
    [UoI] is written by every call before it is read. *)
Record Treatment : Type := mkTreatment {
  tr_node : Nodes;
  tr_UoG : RealArr;
  tr_UoO : RealArr
}.

Section Treatment_code.

Context {E : Extern} {G : Geometric}.

(** *** ComputeGeometricData *)

(** Returns the boundary point [pO], the image point [pI] and the normal
    [N]. *)
Definition ComputeGeometricData (fid : Z) (poly : Polyhedron) (pG : RealVec)
  : RealVec * RealVec * RealVec :=
  let '(pO, N) :=
    if 0 =? poly_faceN poly then
      let N := mkRealVec (pG AX - poly_O poly AX)%Q (pG AY - poly_O poly AY)%Q
                 (pG AZ - poly_O poly AZ)%Q in
      let dist := Norm N in
      let N := vec_of_arr (Normalize DIMS dist (arr_of_vec N)) in
      let dist := (poly_r poly - dist)%Q in
      (mkRealVec (pG AX + dist * N AX)%Q (pG AY + dist * N AY)%Q
         (pG AZ + dist * N AZ)%Q, N)
    else ComputeIntersection pG fid poly in
  let pI := mkRealVec (pO AX + pO AX - pG AX)%Q (pO AY + pO AY - pG AY)%Q
              (pO AZ + pO AZ - pG AZ)%Q in
  (pO, pI, N).

(** *** ImmersedBoundaryTreatment *)

(** Lines 369 to 389: the primitive state [UoG] of the ghost node [(k, j, i)]
    of layer [r] of polyhedron [n], with the array [UoO] as the branch leaves
    it.  [ibmLayer] is [model->ibmLayer]. *)
Definition ghost_primitive (fuel : nat) (tn : Z) (ibmLayer : Z)
  (part : Partition) (model : Model) (n : Z) (poly : Polyhedron) (r k j i : Z)
  (s : Treatment) : option (RealArr * RealArr) :=
  let node := tr_node s in
  let idx := node_index part k j i in
  let pG := node_point part k j i in
  if ibmLayer >=? r then
    let '(pO, pI, N) := ComputeGeometricData (fid (node idx)) poly pG in
    let nI :=
      mkIntVec
        (NodeSpace (pI AX) (part_domain part AX MIN) (part_dd part AX) (part_ng part))
        (NodeSpace (pI AY) (part_domain part AY MIN) (part_dd part AY) (part_ng part))
        (NodeSpace (pI AZ) (part_domain part AZ MIN) (part_dd part AZ) (part_ng part)) in
    match
      FlowReconstruction fuel tn nI pI R NONE 0 poly part node model pO N (tr_UoO s)
    with
    | Some (UoO, UoI) => Some (MethodOfImage UoI UoO (tr_UoG s), UoO)
    | None => None
    end
  else
    let nG := mkIntVec i j k in
    match
      InverseDistanceWeighting fuel tn nG pG 1 (r - 1) (n + 1) part node model
    with
    | Some (weightSum, UoG) => Some (Normalize DIMUo weightSum UoG, tr_UoO s)
    | None => None
    end.

(** Body of the loop nest over the box of polyhedron [n], for the layer
    [r]. *)
Definition ImmersedBoundaryTreatment_node (fuel : nat) (tn : Z) (ibmLayer : Z)
  (part : Partition) (model : Model) (n : Z) (poly : Polyhedron) (r k j i : Z)
  (s : Treatment) : option Treatment :=
  let node := tr_node s in
  let idx := node_index part k j i in
  if negb (r =? gst (node idx)) || negb (n + 1 =? gid (node idx)) then Some s
  else
    match ghost_primitive fuel tn ibmLayer part model n poly r k j i s with
    | None => None
    | Some (UoG, UoO) =>
        let UoG := upd UoG 0 (UoG 4%Z / (UoG 5%Z * gasR model))%Q in
        Some (mkTreatment
                (upd_node node idx
                   (set_U tn (ConservativeByPrimitive (gamma model) UoG) (node idx)))
                UoG UoO)
    end.

(** Body of the loop over the polyhedrons: the layers one after the other,
    each with a pass over the box of the polyhedron. *)
Definition ImmersedBoundaryTreatment_poly (fuel : nat) (tn : Z) (ibmLayer : Z)
  (part : Partition) (geo : Geometry) (model : Model) (n : Z) (s : Treatment)
  : option Treatment :=
  let p := poly geo n in
  for_rangeM 1 (part_gl part + 1) (fun r =>
    sweepM (search_box part p MIN) (search_box part p MAX)
      (ImmersedBoundaryTreatment_node fuel tn ibmLayer part model n p r)) s.

Definition ImmersedBoundaryTreatment (fuel : nat) (tn : Z) (space : Space)
  (model : Model) (ibmLayer : Z) : option Space :=
  match
    for_rangeM 0 (totN (geo space))
      (ImmersedBoundaryTreatment_poly fuel tn ibmLayer (part space) (geo space) model)
      (mkTreatment (node space) (fun _ => 0%Q) (fun _ => 0%Q))
  with
  | Some s => Some (set_node (tr_node s) space)
  | None => None
  end.

End Treatment_code.

(** ** The arithmetic of [Real]

    [Real] is a type of [commons.h].  The definitions above take it as the
    exact rationals: they are the code with every operation carried out
    without rounding error.  The arithmetic parts of the code are written a
    second time below, in the module [Kernel], for an arbitrary arithmetic,
    so that a statement can say what the code computes whatever the
    arithmetic is, and can be evaluated in the binary64 numbers of IEEE 754,
    the [double] of C. *)

Class Arith (T : Type) : Type := {
  r_zero : T;
  r_one : T;
  r_add : T -> T -> T;
  r_sub : T -> T -> T;
  r_mul : T -> T -> T;
  r_div : T -> T -> T;
  r_lt : T -> T -> bool;
  r_le : T -> T -> bool
}.

(** The arithmetic of the definitions above. *)
Definition exact : Arith Q := {|
  r_zero := 0%Q;
  r_one := 1%Q;
  r_add := Qplus;
  r_sub := Qminus;
  r_mul := Qmult;
  r_div := Qdiv;
  r_lt := fun a b => if Qlt_le_dec a b then true else false;
  r_le := Qle_bool
|}.

(** IEEE 754 binary64 with rounding to nearest, ties to even. *)
Definition binary64 : Arith PrimFloat.float := {|
  r_zero := PrimFloat.zero;
  r_one := PrimFloat.one;
  r_add := PrimFloat.add;
  r_sub := PrimFloat.sub;
  r_mul := PrimFloat.mul;
  r_div := PrimFloat.div;
  r_lt := PrimFloat.ltb;
  r_le := PrimFloat.leb
|}.

(** The rational number that a finite binary64 number stands for. *)
Definition Q_of_float (f : PrimFloat.float) : Q :=
  match FloatOps.Prim2SF f with
  | SpecFloat.S754_finite s m e =>
      let v :=
        (inject_Z (Zpos m)
         * (if 0 <=? e then inject_Z (2 ^ e) else / inject_Z (2 ^ (- e))))%Q in
      if s then (- v)%Q else v
  | _ => 0%Q
  end.

Module Kernel.

Section Kernel_code.

Context {T : Type} {A : Arith T}.

(** [a[i] = v] *)
Definition upd (a : Z -> T) (i : Z) (v : T) : Z -> T :=
  fun c => if c =? i then v else a c.

(** [MethodOfImage], lines 399 to 414. *)
Definition MethodOfImage (UoI UoO UoG : Z -> T) : Z -> T :=
  let UoG := upd UoG 1 (r_sub (r_add (UoO 1) (UoO 1)) (UoI 1)) in
  let UoG := upd UoG 2 (r_sub (r_add (UoO 2) (UoO 2)) (UoI 2)) in
  let UoG := upd UoG 3 (r_sub (r_add (UoO 3) (UoO 3)) (UoI 3)) in
  let UoG := upd UoG 4 (UoI 4) in
  upd UoG 5 (UoI 5).

(** [ApplyWeighting], lines 544 to 557: returns the new [*weightSum] and
    the new [Uo]. *)
Definition ApplyWeighting (Uoh : Z -> T) (tiny weight weightSum : T)
  (Uo : Z -> T) : T * (Z -> T) :=
  let weight := if r_lt weight tiny then tiny else weight in
  let weight := r_div r_one weight in
  let Uo :=
    for_range 0 DIMUo (fun n Uo => upd Uo n (r_add (Uo n) (r_mul (Uoh n) weight))) Uo in
  (r_add weightSum weight, Uo).

(** Modelled from the spec: [Dist2] of [commons.h], the squared distance of
    two points, summed in the order of the directions. *)
Definition Dist2 (a b : Axis -> T) : T :=
  r_add
    (r_add (r_mul (r_sub (a AX) (b AX)) (r_sub (a AX) (b AX)))
       (r_mul (r_sub (a AY) (b AY)) (r_sub (a AY) (b AY))))
    (r_mul (r_sub (a AZ) (b AZ)) (r_sub (a AZ) (b AZ))).

(** The test of line 176 of [IdentifyGeometryNode] for a sphere of centre
    [O] and radius [r] and the point [p]:
    [poly->r * poly->r >= Dist2(poly->O, p)]. *)
Definition sphere_test (O : Axis -> T) (r : T) (p : Axis -> T) : bool :=
  r_le (Dist2 O p) (r_mul r r).

End Kernel_code.

End Kernel.

(** ** Notions used by the statements *)

(** The nodes visited by a loop nest [for k ... for j ... for i ...], in the
    order of the visits. *)
Definition box_cells (lo hi : Axis -> Z) : list (Z * Z * Z) :=
  flat_map (fun k =>
    flat_map (fun j => map (fun i => (k, j, i)) (zrange (lo AX) (hi AX)))
      (zrange (lo AY) (hi AY)))
    (zrange (lo AZ) (hi AZ)).

Definition on_cell {S T : Type} (body : Z -> Z -> Z -> S -> T) (c : Z * Z * Z) (s : S) : T :=
  let '(k, j, i) := c in body k j i s.



Section Stencil.

Context {E : Extern}.

(** The filter of [InverseDistanceWeighting] on the candidate at offset
    [(kh, jh, ih)] of node [n]: a legal index, the required geometry
    identifier and the required node type. *)
Definition qualifies (n : IntVec) (type g : Z) (part : Partition) (node : Nodes)
  (c : Z * Z * Z) : bool :=
  let '(kh, jh, ih) := c in
  let idxMax := part_n part AX * part_n part AY * part_n part AZ in
  let idx := node_index part (n AZ + kh) (n AY + jh) (n AX + ih) in
  (0 <=? idx) && (idx <? idxMax) && (g =? gid (node idx))
  && (if 0 =? g then type =? fid (node idx) else type =? gst (node idx)).

(** The donors found in the cube of half width [r], in the order of the scan. *)
Definition donors (n : IntVec) (type g : Z) (part : Partition) (node : Nodes)
  (r : Z) : list (Z * Z * Z) :=
  filter (qualifies n type g part node) (box_cells (fun _ => - r) (fun _ => r + 1)).

(** Point, primitive state and weight of the candidate at an offset. *)
Definition donor_point (n : IntVec) (part : Partition) (c : Z * Z * Z) : RealVec :=
  let '(kh, jh, ih) := c in node_point part (n AZ + kh) (n AY + jh) (n AX + ih).

Definition donor_state (tn : Z) (n : IntVec) (part : Partition) (node : Nodes)
  (model : Model) (c : Z * Z * Z) : RealArr :=
  let '(kh, jh, ih) := c in
  PrimitiveByConservative (gamma model) (gasR model)
    (U (node (node_index part (n AZ + kh) (n AY + jh) (n AX + ih))) tn).


(** What a qualifying candidate adds to the running sums. *)
Definition accumulate (tn : Z) (n : IntVec) (p : RealVec) (part : Partition)
  (node : Nodes) (model : Model) (a : Accum) (c : Z * Z * Z) : Accum :=
  let '(ws, Uo) :=
    ApplyWeighting (donor_state tn n part node model c) (part_tinyL part)
      (Dist2 p (donor_point n part c)) (weightSum a) (Uo_acc a) in
  mkAccum (tally a + 1) ws Uo.

End Stencil.

Section Classification.

Context {E : Extern}.

(** The node reached from [(k, j, i)] by the [n]-th offset of the search path. *)
Definition path_index (part : Partition) (k j i n : Z) : Z :=
  IndexNode (k + part_path part n AZ) (j + part_path part n AY)
    (i + part_path part n AX) (part_n part AY) (part_n part AX).

(** The [n]-th node of the path is not an exterior node and carries the
    geometry identifier [g]. *)
Definition path_same (part : Partition) (node : Nodes) (k j i g n : Z) : bool :=
  negb (NONE =? gid (node (path_index part k j i n)))
  && (g =? gid (node (path_index part k j i n))).

(** The [n]-th node of the path is not an exterior node and carries a geometry
    identifier other than [g]. *)
Definition path_other (part : Partition) (node : Nodes) (k j i g n : Z) : bool :=
  negb (NONE =? gid (node (path_index part k j i n)))
  && negb (g =? gid (node (path_index part k j i n))).

(** The search that [InterfacialState] and [GhostState] share: the layer of
    the first position of [ns] that passes [test] and has a layer. *)
Fixpoint layer_scan (part : Partition) (test : Z -> bool) (ns : list Z) : Z :=
  match ns with
  | [] => 0
  | n :: rest =>
      if test n then
        match path_layer part n with
        | Some r => r
        | None => layer_scan part test rest
        end
      else layer_scan part test rest
  end.

(** The layer of the first path position that passes [test], zero when
    there is none or when it lies beyond the last layer. *)
Definition first_layer (part : Partition) (test : Z -> bool) : Z :=
  match find test (zrange 0 (part_pathSep part 0)) with
  | Some n =>
      match path_layer part n with
      | Some r => r
      | None => 0
      end
  | None => 0
  end.

End Classification.

Section Classified.

Context {E : Extern}.

(** The values that lines 265 to 270 give to [lid] and [gst] of node
    [(k, j, i)]. *)
Definition classified_lid (part : Partition) (node : Nodes) (k j i : Z) : Z :=
  InterfacialState k j i (gid (node (node_index part k j i)))
    (part_pathSep part 0) (part_path part) node part.

Definition classified_gst (part : Partition) (node : Nodes) (k j i : Z) : Z :=
  if negb (0 =? classified_lid part node k j i)
     && negb (0 =? gid (node (node_index part k j i)))
  then GhostState k j i 0 (part_pathSep part 0) (part_path part) node part
  else 0.

(** The conservative state that lines 251 to 253 store: the interpolated
    state normalized by the weight sum, with the density of the ideal gas. *)
Definition reconstructed_U (model : Model) (weightSum : Q) (Uo : RealArr) : RealArr :=
  let Uo := Normalize DIMUo weightSum Uo in
  let Uo := upd Uo 0 (Uo 4%Z / (Uo 5%Z * gasR model))%Q in
  ConservativeByPrimitive (gamma model) Uo.

End Classified.

Section Ownership.

Context {E : Extern}.

(** The point-in-shape test of [IdentifyGeometryNode] for a polyhedron and
    the node [(k, j, i)], and the face identifier stored with a claim. *)
Definition accepts (part : Partition) (p : Polyhedron) (c : Z * Z * Z) : bool :=
  let '(k, j, i) := c in
  let pt := node_point part k j i in
  if 0 =? poly_faceN p then
    Qle_bool (Dist2 (poly_O p) pt) (poly_r p * poly_r p)
  else fst (PointInPolyhedron pt p).

Definition accepted_fid (part : Partition) (p : Polyhedron) (c : Z * Z * Z) : Z :=
  let '(k, j, i) := c in
  if 0 =? poly_faceN p then 0
  else snd (PointInPolyhedron (node_point part k j i) p).

(** The executions of the innermost loop body of [IdentifyGeometryNode], in
    order: the index of the polyhedron and the node. *)
Definition visits (part : Partition) (geo : Geometry) : list (Z * (Z * Z * Z)) :=
  flat_map (fun n =>
    let p := poly geo n in
    if 1 =? poly_state p then []
    else map (pair n) (box_cells (search_box part p MIN) (search_box part p MAX)))
    (zrange 0 (totN geo)).

Definition visit (part : Partition) (geo : Geometry) (node : Nodes)
  (v : Z * (Z * Z * Z)) : Nodes :=
  let '(n, c) := v in
  on_cell (IdentifyGeometryNode_node part n (poly geo n)) c node.

(** The linear index of a node. *)
Definition cell_index (part : Partition) (c : Z * Z * Z) : Z :=
  let '(k, j, i) := c in node_index part k j i.

(** The visit tests the node stored at index [x] and the test succeeds. *)
Definition claims (part : Partition) (geo : Geometry) (x : Z)
  (v : Z * (Z * Z * Z)) : bool :=
  let '(n, c) := v in
  (cell_index part c =? x) && accepts part (poly geo n) c.

End Ownership.

Section Domain.

Context {E : Extern}.

(** The interior nodes, in the order in which [InitializeGeometryDomain] and
    [IdentifyInterfacialNode] visit them. *)
Definition interior_cells (pt : Partition) : list (Z * Z * Z) :=
  box_cells (nMin pt) (nMax pt).

(** The values that the classification gives to the markers of a node. *)
Definition cell_lid (pt : Partition) (nodes : Nodes) (c : Z * Z * Z) : Z :=
  let '(k, j, i) := c in classified_lid pt nodes k j i.

Definition cell_gst (pt : Partition) (nodes : Nodes) (c : Z * Z * Z) : Z :=
  let '(k, j, i) := c in classified_gst pt nodes k j i.

End Domain.

(** ** Notions used by the statements on the treatment of the ghost nodes *)

Section Surface.

Context {E : Extern}.

(** The velocity of the point [pO] of the surface of a solid, [V + W x r]
    with [r] the position of the point relative to the centre, as
    [FlowReconstruction] computes it. *)
Definition surface_velocity (body : Polyhedron) (pO : RealVec) : RealVec :=
  let r := mkRealVec (pO AX - poly_O body AX)%Q (pO AY - poly_O body AY)%Q
             (pO AZ - poly_O body AZ)%Q in
  let Vs := Cross (poly_W body TO) r in
  mkRealVec (poly_V body TO AX + Vs AX)%Q (poly_V body TO AY + Vs AY)%Q
    (poly_V body TO AZ + Vs AZ)%Q.

End Surface.

(** What the body of [InitializeGeometryDomain] does to a node: the
    identifiers and markers it stores, as a function of the node alone. *)
Definition released (g : Geometry) (nd : Node) : Node :=
  if 0 >=? gid nd then set_gst 0 (set_lid 0 (set_gid 0 nd))
  else if 1 =? poly_state (poly g (gid nd - 1)) then set_gst 0 (set_lid 0 nd)
  else if 0 <? lid nd then set_gst 0 (set_lid 0 (set_gid 0 nd))
  else nd.

(** ** Sample configurations

    A reference instance of the collaborators and small grids on which the
    functions above are evaluated. *)

Definition arr_of_list (l : list Q) : RealArr :=
  fun c => if c <? 0 then 0%Q else nth (Z.to_nat c) l 0%Q.

(** The usual conventions: [NONE] is [-1], the time level [TO] is [0], nodes
    are stored with [i] running fastest, node [n] lies at
    [sMin + (n - ng) * d], and the ideal gas conversions between conservative
    and primitive variables. *)
Definition refExtern : Extern := {|
  NONE := -1;
  TO := 0;
  IndexNode := fun k j i jMax iMax => (k * jMax + j) * iMax + i;
  PointSpace := fun n sMin d ng => (sMin + inject_Z (n - ng) * d)%Q;
  NodeSpace := fun s sMin dd ng => Qfloor ((s - sMin) * dd + (1 # 2)) + ng;
  ValidNodeSpace := fun n nMin nMax => Z.min (nMax - 1) (Z.max nMin n);
  PointInPolyhedron := fun _ _ => (false, 0);
  Normalize := fun dimV normalizer V =>
    fun c => if (0 <=? c) && (c <? dimV) then (V c / normalizer)%Q else V c;
  PrimitiveByConservative := fun gamma gasR U =>
    let rho := U 0 in
    let mx := U 1 in
    let my := U 2 in
    let mz := U 3 in
    let p := ((U 4%Z - (1 # 2) * (mx * mx + my * my + mz * mz) / rho)
              * (gamma - 1))%Q in
    arr_of_list [rho; (mx / rho)%Q; (my / rho)%Q; (mz / rho)%Q; p;
                 (p / (rho * gasR))%Q];
  ConservativeByPrimitive := fun gamma Uo =>
    let rho := Uo 0 in
    let u := Uo 1 in
    let v := Uo 2 in
    let w := Uo 3 in
    arr_of_list
      [rho; (rho * u)%Q; (rho * v)%Q; (rho * w)%Q;
       ((1 # 2) * rho * (u * u + v * v + w * w) + Uo 4%Z / (gamma - 1))%Q];
  OrthogonalSpace := fun N =>
    (mkRealVec (N AY) (- N AX) 0, mkRealVec 0 (N AZ) (- N AY))
|}.

(** A grid of 7 x 7 x 7 nodes of spacing one with two layers of exterior nodes
    on each side, so that the interior nodes are those with coordinates 2, 3
    and 4; two ghost layers; the search path visits the six nodes at distance
    one (layer 1) and then the six nodes at distance two (layer 2). *)
Definition sample_path : Z -> Axis -> Z :=
  fun n =>
    nth (Z.to_nat n)
      [mkIntVec (-1) 0 0; mkIntVec 1 0 0; mkIntVec 0 (-1) 0; mkIntVec 0 1 0;
       mkIntVec 0 0 (-1); mkIntVec 0 0 1;
       mkIntVec (-2) 0 0; mkIntVec 2 0 0; mkIntVec 0 (-2) 0; mkIntVec 0 2 0;
       mkIntVec 0 0 (-2); mkIntVec 0 0 2]
      (mkIntVec 0 0 0).

Definition sample_part : Partition := {|
  part_n := fun _ => 7;
  part_ns_PIN := fun _ l => match l with MIN => 2 | MAX => 5 end;
  part_domain := fun _ l => match l with MIN => 0%Q | MAX => 2%Q end;
  part_d := fun _ => 1%Q;
  part_dd := fun _ => 1%Q;
  part_ng := 2;
  part_gl := 2;
  part_tinyL := (1 # 1000000)%Q;
  part_pathSep := fun r => if r =? 1 then 6 else 12;
  part_path := sample_path
|}.

Definition sample_model : Model := {| gamma := (7 # 5)%Q; gasR := 1%Q |}.

(** Coordinates of the node stored at a linear index of the sample grid. *)
Definition sample_coord (idx : Z) : Z * Z * Z :=
  (idx / 49, (idx / 7) mod 7, idx mod 7).

Definition sample_interior (idx : Z) : bool :=
  let '(k, j, i) := sample_coord idx in
  (2 <=? k) && (k <? 5) && (2 <=? j) && (j <? 5) && (2 <=? i) && (i <? 5).

(** Gas at rest of density one whose pressure, and temperature, is
    [1 + i * i]. *)
Definition sample_U (idx : Z) : Z -> RealArr :=
  fun _ =>
    arr_of_list
      [1%Q; 0%Q; 0%Q; 0%Q; ((5 # 2) * inject_Z (1 + (idx mod 7) * (idx mod 7)))%Q].

(** Open fluid: interior nodes are normal nodes, the other nodes are
    exterior nodes. *)
Definition fluid_nodes : Nodes :=
  fun idx =>
    if sample_interior idx then mkNode (sample_U idx) 0 (-1) 0 0
    else mkNode (sample_U idx) (-1) (-1) 0 0.

(** A sphere of radius [r] centred at the point of node (3, 3, 3).  *)
Definition sample_sphere (state : Z) (r T : Q) : Polyhedron := {|
  poly_faceN := 0;
  poly_state := state;
  poly_O := mkRealVec 1 1 1;
  poly_r := r;
  poly_box := fun _ l => match l with MIN => (1 - r)%Q | MAX => (1 + r)%Q end;
  poly_cf := 1%Q;
  poly_T := T;
  poly_V := fun _ => mkRealVec 0 0 0;
  poly_W := fun _ => mkRealVec 0 0 0
|}.


(** A search around node (3, 3, 3) for the point half a cell before it. *)
Definition sample_n : IntVec := mkIntVec 3 3 3.
Definition sample_p : RealVec := mkRealVec (1 # 2) 1 1.

Definition sample_idw : option (Q * RealArr) :=
  InverseDistanceWeighting (E := refExtern) 2 0 sample_n sample_p 2 (-1) 0
    sample_part fluid_nodes sample_model.
Definition sample_ws : Q :=
  match sample_idw with Some (w, _) => w | None => 0%Q end.
Definition sample_Uo : RealArr :=
  match sample_idw with Some (_, u) => u | None => fun _ => 0%Q end.

(** Linear indices of the nodes (3, 3, 3) and (3, 3, 4). *)
Definition idx333 : Z := 171.
Definition idx334 : Z := 172.

(** Open fluid around a body that owns the single node (3, 3, 3). *)
Definition speck_nodes : Nodes :=
  upd_node fluid_nodes idx333 (mkNode (sample_U idx333) 1 0 0 0).

(** Body 1 owns the nodes (3, 3, 3) and (3, 3, 4), body 2 all the other
    interior nodes. *)
Definition packed_nodes : Nodes :=
  fun idx =>
    if (idx =? idx333) || (idx =? idx334) then mkNode (sample_U idx) 1 0 0 0
    else if sample_interior idx then mkNode (sample_U idx) 2 0 0 0
    else mkNode (sample_U idx) (-1) (-1) 0 0.



(** Two spheres of radius one half around the point of node (3, 3, 3); the
    first one is stationary in [geo_still] and moving in [geo_moving]. *)
Definition geo_still : Geometry :=
  mkGeometry 2 (fun n => sample_sphere (if n =? 0 then 1 else 0) (1 # 2) 350).
Definition geo_moving : Geometry :=
  mkGeometry 2 (fun n => sample_sphere 0 (1 # 2) 350).

(** Open fluid around node (3, 3, 3), which the second sphere owns. *)
Definition owned2_nodes : Nodes :=
  upd_node fluid_nodes idx333 (mkNode (sample_U idx333) 2 0 0 0).

(** One moving sphere of radius one around the point of node (3, 3, 3). *)
Definition geo_unit : Geometry :=
  mkGeometry 1 (fun n => sample_sphere 0 1 350).

(** The first classification of the open fluid around the moving unit
    sphere. *)
Definition unit_space : Space := mkSpace sample_part fluid_nodes geo_unit.
Definition unit_classified : Space :=
  match ComputeGeometryDomain (E := refExtern) 0 unit_space sample_model with
  | Some s => s
  | None => unit_space
  end.

(** The unit sphere at rest, and a store in which it owns node (3, 3, 3)
    and its six neighbours. *)
Definition geo_fixed : Geometry :=
  mkGeometry 1 (fun n => sample_sphere 1 1 350).
Definition ball_nodes : Nodes :=
  fun idx =>
    if existsb (Z.eqb idx) [122; 164; 170; 171; 172; 178; 220]
    then mkNode (sample_U idx) 1 0 0 0
    else fluid_nodes idx.
Definition ball_space : Space := mkSpace sample_part ball_nodes geo_fixed.
Definition ball_classified : Space :=
  match ComputeGeometryDomain (E := refExtern) 0 ball_space sample_model with
  | Some s => s
  | None => ball_space
  end.

(** ** Sample configurations for the treatment of the ghost nodes *)

(** The length of a vector whose squared length is the square of a rational
    number, which is all that the samples need, and no triangulated
    polyhedron: [ComputeIntersection] is never reached. *)
Definition refGeometric : Geometric := {|
  Norm := fun v =>
    let q := Qred (Dot v v) in
    (inject_Z (Z.sqrt (Qnum q)) / inject_Z (Z.sqrt (Zpos (Qden q))))%Q;
  ComputeIntersection := fun pG _ _ => (pG, mkRealVec 0 0 0)
|}.

(** The unit sphere of the samples with a slip wall. *)
Definition slip_sphere : Polyhedron := {|
  poly_faceN := 0;
  poly_state := 0;
  poly_O := mkRealVec 1 1 1;
  poly_r := 1%Q;
  poly_box := fun _ l => match l with MIN => 0%Q | MAX => 2%Q end;
  poly_cf := 0%Q;
  poly_T := (-1)%Q;
  poly_V := fun _ => mkRealVec 0 0 0;
  poly_W := fun _ => mkRealVec 0 0 0
|}.

(** The open fluid on the allocated indices, anything else outside. *)
Definition padded_nodes : Nodes :=
  fun idx =>
    if (0 <=? idx) && (idx <? 343) then fluid_nodes idx
    else mkNode (fun _ _ => 7%Q) 0 (-1) 0 0.


(** The treatment of the classified store with one image layer. *)
Definition unit_treated : Space :=
  match
    ImmersedBoundaryTreatment (E := refExtern) (G := refGeometric) 2 0
      unit_classified sample_model 1
  with
  | Some s => s
  | None => unit_classified
  end.


(** * Proofs *)

(** ** Arrays, node stores and loops *)

Lemma upd_same (a : RealArr) (i : Z) (v : Q) : upd a i v i = v.
Proof. unfold upd. now rewrite Z.eqb_refl. Qed.

Lemma upd_other (a : RealArr) (i c : Z) (v : Q) : c <> i -> upd a i v c = a c.
Proof. intros H. unfold upd. now apply Z.eqb_neq in H as ->. Qed.

Lemma upd_node_same (node : Nodes) (idx : Z) (nd : Node) :
  upd_node node idx nd idx = nd.
Proof. unfold upd_node. now rewrite Z.eqb_refl. Qed.

Lemma upd_node_other (node : Nodes) (idx i : Z) (nd : Node) :
  i <> idx -> upd_node node idx nd i = node i.
Proof. intros H. unfold upd_node. now apply Z.eqb_neq in H as ->. Qed.

Lemma Node_eq (a b : Node) :
  U a = U b -> gid a = gid b -> fid a = fid b -> lid a = lid b -> gst a = gst b ->
  a = b.
Proof. destruct a, b; simpl; intros; subst; reflexivity. Qed.

Lemma In_zrange (lo hi m : Z) : In m (zrange lo hi) <-> lo <= m < hi.
Proof.
  unfold zrange. rewrite in_map_iff. split.
  - intros (x & <- & Hx). apply in_seq in Hx. lia.
  - intros Hm. exists (Z.to_nat (m - lo)). split; [lia|]. apply in_seq. lia.
Qed.

Lemma zrange_nil (lo hi : Z) : hi <= lo -> zrange lo hi = [].
Proof.
  intros H. unfold zrange. replace (Z.to_nat (hi - lo)) with 0%nat by lia.
  reflexivity.
Qed.

Lemma zrange_cons (lo hi : Z) : lo < hi -> zrange lo hi = lo :: zrange (lo + 1) hi.
Proof.
  intros H. unfold zrange.
  replace (Z.to_nat (hi - lo)) with (S (Z.to_nat (hi - (lo + 1)))) by lia.
  simpl. f_equal; [lia|].
  rewrite <- seq_shift, map_map. apply map_ext. intros a. lia.
Qed.

Lemma foldM_app {S A : Type} (body : A -> S -> option S) (l1 l2 : list A) (s : S) :
  foldM body (l1 ++ l2) s =
  match foldM body l1 s with Some s' => foldM body l2 s' | None => None end.
Proof.
  revert s. induction l1 as [|a l1 IH]; intros s; simpl; [reflexivity|].
  destruct (body a s); [apply IH | reflexivity].
Qed.

(** An invariant of a loop whose body may not return. *)
Lemma foldM_inv {S A : Type} (P : S -> Prop) (body : A -> S -> option S) (l : list A) :
  (forall a s s', In a l -> P s -> body a s = Some s' -> P s') ->
  forall s s', P s -> foldM body l s = Some s' -> P s'.
Proof.
  induction l as [|a l IH]; intros Hbody s s' Hs Hrun; simpl in Hrun.
  - now inversion Hrun; subst.
  - destruct (body a s) as [s1|] eqn:Hb; [|discriminate].
    apply IH with (s := s1); auto.
    + intros a0 t t' Ha. apply Hbody. now right.
    + apply Hbody with (a := a) (s := s); auto. now left.
Qed.


Lemma fold_left_flat_map {A B S : Type} (f : S -> B -> S) (g : A -> list B)
  (l : list A) (s : S) :
  fold_left f (flat_map g l) s = fold_left (fun s a => fold_left f (g a) s) l s.
Proof.
  revert s. induction l as [|a l IH]; intros s; simpl; [reflexivity|].
  now rewrite fold_left_app, IH.
Qed.

Lemma fold_left_map {A B S : Type} (f : S -> B -> S) (g : A -> B)
  (l : list A) (s : S) :
  fold_left f (map g l) s = fold_left (fun s a => f s (g a)) l s.
Proof.
  revert s. induction l as [|a l IH]; intros s; simpl; [reflexivity|]. apply IH.
Qed.

Lemma foldM_flat_map {A B S : Type} (f : B -> S -> option S) (g : A -> list B)
  (l : list A) (s : S) :
  foldM f (flat_map g l) s = foldM (fun a s => foldM f (g a) s) l s.
Proof.
  revert s. induction l as [|a l IH]; intros s; simpl; [reflexivity|].
  rewrite foldM_app. destruct (foldM f (g a) s); [apply IH | reflexivity].
Qed.

Lemma foldM_map {A B S : Type} (f : B -> S -> option S) (g : A -> B)
  (l : list A) (s : S) :
  foldM f (map g l) s = foldM (fun a s => f (g a) s) l s.
Proof.
  revert s. induction l as [|a l IH]; intros s; simpl; [reflexivity|].
  destruct (f (g a) s); [apply IH | reflexivity].
Qed.

Lemma In_box_cells (lo hi : Axis -> Z) (k j i : Z) :
  In (k, j, i) (box_cells lo hi) <->
  lo AZ <= k < hi AZ /\ lo AY <= j < hi AY /\ lo AX <= i < hi AX.
Proof.
  unfold box_cells. rewrite in_flat_map. split.
  - intros (k' & Hk & H). apply in_flat_map in H as (j' & Hj & H).
    apply in_map_iff in H as (i' & Heq & Hi). inversion Heq; subst.
    apply In_zrange in Hk, Hj, Hi. auto.
  - intros (Hk & Hj & Hi). exists k. split; [now apply In_zrange|].
    apply in_flat_map. exists j. split; [now apply In_zrange|].
    apply in_map. now apply In_zrange.
Qed.

Lemma fold_left_ext {A S : Type} (f g : S -> A -> S) (l : list A) (s : S) :
  (forall s a, f s a = g s a) -> fold_left f l s = fold_left g l s.
Proof.
  intros H. revert s. induction l as [|a l IH]; intros s; simpl; [reflexivity|].
  now rewrite H, IH.
Qed.

Lemma foldM_ext {A S : Type} (f g : A -> S -> option S) (l : list A) (s : S) :
  (forall a s, f a s = g a s) -> foldM f l s = foldM g l s.
Proof.
  intros H. revert s. induction l as [|a l IH]; intros s; simpl; [reflexivity|].
  rewrite H. destruct (g a s); [apply IH | reflexivity].
Qed.

(** A loop nest is the fold of its body over the visited nodes. *)
Lemma sweep_cells {S : Type} (lo hi : Axis -> Z)
  (body : Z -> Z -> Z -> S -> S) (s : S) :
  sweep lo hi body s = fold_left (fun s c => on_cell body c s) (box_cells lo hi) s.
Proof.
  unfold sweep, for_range, box_cells.
  rewrite fold_left_flat_map. apply fold_left_ext. intros s' k.
  rewrite fold_left_flat_map. apply fold_left_ext. intros s'' j.
  now rewrite fold_left_map.
Qed.

Lemma sweepM_cells {S : Type} (lo hi : Axis -> Z)
  (body : Z -> Z -> Z -> S -> option S) (s : S) :
  sweepM lo hi body s = foldM (on_cell body) (box_cells lo hi) s.
Proof.
  unfold sweepM, for_rangeM, box_cells.
  rewrite foldM_flat_map. apply foldM_ext. intros k s'.
  rewrite foldM_flat_map. apply foldM_ext. intros j s''.
  now rewrite foldM_map.
Qed.
(** ** MethodOfImage *)

Section MethodOfImage_proofs.

Context {E : Extern}.


End MethodOfImage_proofs.

(** ** ApplyWeighting and InverseDistanceWeighting *)






Lemma ApplyWeighting_frame (Uoh : RealArr) (tiny weight ws : Q) (Uo : RealArr) (c : Z) :
  ~ 0 <= c < DIMUo -> snd (ApplyWeighting Uoh tiny weight ws Uo) c = Uo c.
Proof.
  intros Hc. unfold DIMUo in Hc. unfold ApplyWeighting. simpl snd.
  cbv [for_range zrange DIMUo Z.sub Z.to_nat Z.opp Z.add Pos.to_nat Pos.iter_op
       Init.Nat.add seq map fold_left Z.of_nat Pos.of_succ_nat Pos.succ].
  rewrite !upd_other by lia. reflexivity.
Qed.



Lemma fold_left_filter {A S : Type} (q : A -> bool) (f : S -> A -> S)
  (l : list A) (s : S) :
  fold_left (fun s a => if q a then f s a else s) l s = fold_left f (filter q l) s.
Proof.
  revert s. induction l as [|a l IH]; intros s; simpl; [reflexivity|].
  destruct (q a); simpl; apply IH.
Qed.

Section Stencil_proofs.

Context {E : Extern}.

Variables (tn : Z) (n : IntVec) (p : RealVec) (type g : Z).
Variables (part : Partition) (node : Nodes) (model : Model).

Local Abbreviation acc := (accumulate tn n p part node model).

Lemma InverseDistanceWeighting_node_filter (kh jh ih : Z) (a : Accum) :
  InverseDistanceWeighting_node tn n p type g part node model kh jh ih a
  = if qualifies n type g part node (kh, jh, ih) then acc a (kh, jh, ih)
    else a.
Proof.
  unfold InverseDistanceWeighting_node, qualifies, accumulate, donor_state,
    donor_point, node_index.
  set (idx := IndexNode _ _ _ _ _).
  set (idxMax := part_n part AX * part_n part AY * part_n part AZ).
  replace (0 >? idx) with (negb (0 <=? idx)) by (rewrite Z.gtb_ltb; symmetry; apply Z.ltb_antisym).
  replace (idxMax <=? idx) with (negb (idx <? idxMax)) by (symmetry; apply Z.leb_antisym).
  destruct (0 <=? idx); cbn [negb andb orb]; [|reflexivity].
  destruct (idx <? idxMax); cbn [negb andb orb]; [|reflexivity].
  destruct (g =? gid (node idx)); cbn [negb andb orb]; [|reflexivity].
  destruct (0 =? g); destruct (type =? _); reflexivity.
Qed.

Lemma InverseDistanceWeighting_cube_donors (r : Z) (a : Accum) :
  InverseDistanceWeighting_cube tn n p type g part node model r a
  = fold_left acc (donors n type g part node r) a.
Proof.
  unfold InverseDistanceWeighting_cube, donors.
  rewrite sweep_cells, <- fold_left_filter.
  apply fold_left_ext. intros s [[kh jh] ih]. simpl.
  apply InverseDistanceWeighting_node_filter.
Qed.

Lemma accumulate_tally (ds : list (Z * Z * Z)) (a : Accum) :
  tally (fold_left acc ds a) = tally a + Z.of_nat (length ds).
Proof.
  revert a. induction ds as [|d ds IH]; intros a; simpl fold_left.
  - simpl. lia.
  - rewrite IH. unfold accumulate.
    destruct (ApplyWeighting _ _ _ _ _). simpl tally. simpl length. lia.
Qed.



Lemma InverseDistanceWeighting_loop_step (fuel : nat) (r : Z) (a : Accum) :
  tally a = 0 ->
  InverseDistanceWeighting_loop (S fuel) tn n p type g part node model r a
  = InverseDistanceWeighting_loop fuel tn n p type g part node model (r + 1)
      (fold_left acc (donors n type g part node r) a).
Proof.
  intros Ht. cbn [InverseDistanceWeighting_loop]. rewrite Ht.
  now rewrite InverseDistanceWeighting_cube_donors.
Qed.

Lemma InverseDistanceWeighting_loop_stop (fuel : nat) (r : Z) (a : Accum) :
  tally a <> 0 ->
  InverseDistanceWeighting_loop (S fuel) tn n p type g part node model r a = Some a.
Proof.
  intros Ht. cbn [InverseDistanceWeighting_loop].
  destruct (0 =? tally a) eqn:Hz; [|reflexivity].
  apply Z.eqb_eq in Hz. congruence.
Qed.

Lemma accumulate_tally_cons (d : Z * Z * Z) (ds : list (Z * Z * Z)) (a : Accum) :
  tally a = 0 -> tally (fold_left acc (d :: ds) a) <> 0.
Proof. intros Ht. rewrite accumulate_tally, Ht. simpl length. lia. Qed.

(** When the search returns, it returns the sums over the donors of the first
    cube that has one. *)
Lemma InverseDistanceWeighting_loop_returns (fuel : nat) (r : Z) (a a' : Accum) :
  tally a = 0 ->
  InverseDistanceWeighting_loop fuel tn n p type g part node model r a = Some a' ->
  exists r', r <= r' /\
    (forall r'', r <= r'' < r' -> donors n type g part node r'' = []) /\
    donors n type g part node r' <> [] /\
    a' = fold_left acc (donors n type g part node r') a.
Proof.
  revert r a. induction fuel as [|fuel IH]; intros r a Ht Hrun; [discriminate|].
  rewrite InverseDistanceWeighting_loop_step in Hrun by exact Ht.
  destruct (donors n type g part node r) as [|d ds] eqn:Hd.
  - cbn [fold_left] in Hrun. apply IH in Hrun; [|exact Ht].
    destruct Hrun as (r' & Hr & Hempty & Hne & Heq).
    exists r'. repeat split; try assumption; [lia|].
    intros r'' Hr''. destruct (Z.eq_dec r'' r) as [->|Hneq]; [exact Hd|].
    apply Hempty. lia.
  - exists r. rewrite Hd. repeat split; [lia | intros; lia | discriminate |].
    destruct fuel as [|fuel']; [discriminate|].
    rewrite InverseDistanceWeighting_loop_stop in Hrun
      by now apply accumulate_tally_cons.
    now inversion Hrun.
Qed.


(** The search returns as soon as a cube has a donor. *)
Lemma InverseDistanceWeighting_loop_finds (r r' : Z) (a : Accum) :
  tally a = 0 -> r <= r' ->
  donors n type g part node r' <> [] ->
  exists a',
    InverseDistanceWeighting_loop (Z.to_nat (r' - r) + 2) tn n p type g part
      node model r a = Some a'.
Proof.
  intros Ht Hr Hne.
  remember (Z.to_nat (r' - r)) as m eqn:Hm.
  revert r a Ht Hr Hm. induction m as [|m IH]; intros r a Ht Hr Hm.
  - assert (r' = r) by lia. subst r'.
    change (0 + 2)%nat with 2%nat.
    rewrite InverseDistanceWeighting_loop_step by exact Ht.
    destruct (donors n type g part node r) as [|d ds]; [congruence|].
    rewrite InverseDistanceWeighting_loop_stop by now apply accumulate_tally_cons.
    eauto.
  - change (S m + 2)%nat with (S (m + 2)).
    rewrite InverseDistanceWeighting_loop_step by exact Ht.
    destruct (donors n type g part node r) as [|d ds] eqn:Hd.
    + cbn [fold_left]. apply IH; [exact Ht | lia | lia].
    + replace (m + 2)%nat with (S (m + 1)) by lia.
      rewrite InverseDistanceWeighting_loop_stop by now apply accumulate_tally_cons.
      eauto.
Qed.


(** The search returns once fuel suffices to reach a cube with a donor. *)
Lemma InverseDistanceWeighting_finds (h r : Z) :
  h <= r -> donors n type g part node r <> [] ->
  exists res,
    InverseDistanceWeighting (Z.to_nat (r - h) + 2) tn n p h type g part node model
    = Some res.
Proof.
  intros Hr Hne. unfold InverseDistanceWeighting.
  destruct (InverseDistanceWeighting_loop_finds (r := h) (r' := r)
              (mkAccum 0 0 (fun _ => 0%Q)) eq_refl Hr Hne) as [a' ->].
  eauto.
Qed.



End Stencil_proofs.

Lemma sample_idw_returns :
  InverseDistanceWeighting (E := refExtern) 2 0 sample_n sample_p 2 (-1) 0
    sample_part fluid_nodes sample_model = Some (sample_ws, sample_Uo).
Proof. vm_compute. reflexivity. Qed.





(** ** FlowReconstruction *)

Section FlowReconstruction_proofs.

Context {E : Extern}.

(** C6. Once the interpolation at the image point has returned the weight sum
    [ws] and the state [UoI], [FlowReconstruction] returns, and the
    temperature of the boundary point is the wall temperature of the
    polyhedron when that value is not negative, whatever was interpolated,
    and the interpolated temperature times [1 / ws], that is normalized,
    when it is negative. *)
Theorem FlowReconstruction_temperature (fuel : nat) (tn : Z) (n : IntVec)
  (p : RealVec) (h type g : Z) (poly : Polyhedron) (part : Partition)
  (node : Nodes) (model : Model) (pO N : RealVec) (UoO : RealArr)
  (ws : Q) (UoI : RealArr) :
  InverseDistanceWeighting fuel tn n p h type g part node model = Some (ws, UoI) ->
  exists UoO' UoI',
    FlowReconstruction fuel tn n p h type g poly part node model pO N UoO
    = Some (UoO', UoI') /\
    ((0 <= poly_T poly)%Q -> UoO' 5 = poly_T poly) /\
    ((poly_T poly < 0)%Q ->
       UoO' 5 = (UoI 5%Z * (1 / ws))%Q /\ (UoO' 5%Z == UoI 5%Z / ws)%Q).
Proof.
  intros Hidw. unfold FlowReconstruction. rewrite Hidw.
  destruct (OrthogonalSpace N) as [Ta Tb].
  match goal with
  | |- context [ApplyWeighting ?a ?b ?c ?d ?e] =>
      destruct (ApplyWeighting a b c d e) as [ws' UoI'] eqn:Haw
  end.
  eexists. eexists. split; [reflexivity|].
  destruct (Qlt_le_dec (poly_T poly) 0) as [Hneg|Hpos].
  - rewrite upd_same. split.
    + intros H0. exfalso. apply (Qlt_irrefl 0).
      now apply Qle_lt_trans with (poly_T poly).
    + intros _. split; [reflexivity|]. unfold Qdiv. ring.
  - rewrite upd_same. split.
    + reflexivity.
    + intros Hlt. exfalso. apply (Qlt_irrefl 0).
      now apply Qle_lt_trans with (poly_T poly).
Qed.

End FlowReconstruction_proofs.

(** An isothermal wall at 350 K. *)
Lemma FlowReconstruction_temperature_witness :
  InverseDistanceWeighting (E := refExtern) 2 0 sample_n sample_p 2 (-1) 0
    sample_part fluid_nodes sample_model = Some (sample_ws, sample_Uo) /\
  exists UoO' UoI',
    FlowReconstruction (E := refExtern) 2 0 sample_n sample_p 2 (-1) 0
      (sample_sphere 0 1 350) sample_part fluid_nodes sample_model
      (mkRealVec 0 1 1) (mkRealVec (-1) 0 0) (fun _ => 0%Q)
    = Some (UoO', UoI') /\
    UoO' 5 = 350%Q.
Proof.
  split; [exact sample_idw_returns|].
  destruct (@FlowReconstruction_temperature refExtern 2 0 sample_n sample_p
              2 (-1) 0 (sample_sphere 0 1 350) sample_part fluid_nodes sample_model
              (mkRealVec 0 1 1) (mkRealVec (-1) 0 0) (fun _ => 0%Q)
              sample_ws sample_Uo sample_idw_returns)
    as (UoO' & UoI' & Hrun & Hiso & _).
  exists UoO', UoI'. split; [exact Hrun|]. apply Hiso. discriminate.
Defined.

(** ** InterfacialState and GhostState *)

Lemma find_zrange_least (f : Z -> bool) (lo hi r : Z) :
  find f (zrange lo hi) = Some r <->
  lo <= r < hi /\ f r = true /\ forall r', lo <= r' < r -> f r' = false.
Proof.
  remember (Z.to_nat (hi - lo)) as len eqn:Hlen.
  revert lo Hlen. induction len as [|len IH]; intros lo Hlen.
  - rewrite zrange_nil by lia. simpl. split; [discriminate|]. lia.
  - rewrite zrange_cons by lia. simpl. destruct (f lo) eqn:Hf.
    + split.
      * intros H. inversion H; subst. split; [lia|]. split; [exact Hf|].
        intros; lia.
      * intros (Hr & Hfr & Hleast).
        destruct (Z.eq_dec r lo) as [->|Hne]; [reflexivity|].
        rewrite Hleast in Hf by lia. discriminate.
    + rewrite IH by lia. split.
      * intros (Hr & Hfr & Hleast). split; [lia|]. split; [exact Hfr|].
        intros r' Hr'. destruct (Z.eq_dec r' lo) as [->|Hne]; [exact Hf|].
        apply Hleast. lia.
      * intros (Hr & Hfr & Hleast).
        assert (r <> lo) by (intros ->; congruence).
        split; [lia|]. split; [exact Hfr|].
        intros r' Hr'. apply Hleast. lia.
Qed.

Lemma find_zrange_none (f : Z -> bool) (lo hi : Z) :
  find f (zrange lo hi) = None <-> forall r, lo <= r < hi -> f r = false.
Proof.
  split.
  - intros H r Hr. apply (find_none _ _ H). now apply In_zrange.
  - intros H. destruct (find f (zrange lo hi)) as [r|] eqn:Hfind; [|reflexivity].
    apply find_zrange_least in Hfind as (Hr & Hfr & _).
    rewrite H in Hfr by exact Hr. discriminate.
Qed.

(** The layer of a path position is the first of the layers [1 .. gl] whose
    separator lies beyond the position. *)
Lemma path_layer_spec (part : Partition) (n r : Z) :
  path_layer part n = Some r <->
  1 <= r <= part_gl part /\ n < part_pathSep part r /\
  forall r', 1 <= r' < r -> part_pathSep part r' <= n.
Proof.
  unfold path_layer. rewrite find_zrange_least. split.
  - intros (Hr & Hlt & Hleast). apply Z.ltb_lt in Hlt.
    split; [lia|]. split; [lia|].
    intros r' Hr'. assert (Hr'' : 1 <= r' < r) by lia.
    specialize (Hleast r' Hr''). apply Z.ltb_ge in Hleast. lia.
  - intros (Hr & Hlt & Hleast). split; [lia|]. split; [now apply Z.ltb_lt|].
    intros r' Hr'. apply Z.ltb_ge. apply Hleast. lia.
Qed.

Lemma path_layer_none (part : Partition) (n n' : Z) :
  path_layer part n = None -> n <= n' -> path_layer part n' = None.
Proof.
  unfold path_layer. rewrite !find_zrange_none. intros H Hn r Hr.
  specialize (H r Hr). apply Z.ltb_ge in H. apply Z.ltb_ge. lia.
Qed.

Lemma path_layer_mono (part : Partition) (n n' r r' : Z) :
  path_layer part n = Some r -> path_layer part n' = Some r' -> n <= n' ->
  r <= r'.
Proof.
  intros H H' Hn. apply path_layer_spec in H as (Hr & Hlt & Hleast).
  apply path_layer_spec in H' as (Hr' & Hlt' & _).
  destruct (Z_le_gt_dec r r') as [Hle|Hgt]; [exact Hle|].
  specialize (Hleast r'). lia.
Qed.

Section Layer_proofs.

Context {E : Extern}.

Variables (part : Partition) (node : Nodes) (k j i : Z).

Lemma InterfacialState_scan_test (g : Z) (ns : list Z) :
  InterfacialState_scan k j i g (part_path part) node part ns
  = match ns with
    | [] => 0
    | n :: rest =>
        if path_other part node k j i g n then
          match path_layer part n with
          | Some r => r
          | None => InterfacialState_scan k j i g (part_path part) node part rest
          end
        else InterfacialState_scan k j i g (part_path part) node part rest
    end.
Proof.
  destruct ns as [|n rest]; [reflexivity|].
  unfold path_other, path_index. cbn [InterfacialState_scan].
  destruct (NONE =? gid (node _)); [reflexivity|]. cbn [negb andb].
  destruct (g =? gid (node _)); reflexivity.
Qed.

Lemma GhostState_scan_test (g : Z) (ns : list Z) :
  GhostState_scan k j i g (part_path part) node part ns
  = match ns with
    | [] => 0
    | n :: rest =>
        if path_same part node k j i g n then
          match path_layer part n with
          | Some r => r
          | None => GhostState_scan k j i g (part_path part) node part rest
          end
        else GhostState_scan k j i g (part_path part) node part rest
    end.
Proof.
  destruct ns as [|n rest]; [reflexivity|].
  unfold path_same, path_index. cbn [GhostState_scan].
  destruct (NONE =? gid (node _)); [reflexivity|]. cbn [negb andb].
  destruct (g =? gid (node _)); reflexivity.
Qed.

Local Abbreviation layer_scan := (layer_scan part).

Lemma InterfacialState_scan_layer (g : Z) (ns : list Z) :
  InterfacialState_scan k j i g (part_path part) node part ns
  = layer_scan (path_other part node k j i g) ns.
Proof.
  induction ns as [|n rest IH]; [reflexivity|].
  rewrite InterfacialState_scan_test. cbn [layer_scan]. now rewrite IH.
Qed.

Lemma GhostState_scan_layer (g : Z) (ns : list Z) :
  GhostState_scan k j i g (part_path part) node part ns
  = layer_scan (path_same part node k j i g) ns.
Proof.
  induction ns as [|n rest IH]; [reflexivity|].
  rewrite GhostState_scan_test. cbn [layer_scan]. now rewrite IH.
Qed.

Lemma layer_scan_beyond (test : Z -> bool) (ns : list Z) :
  (forall n, In n ns -> path_layer part n = None) -> layer_scan test ns = 0.
Proof.
  induction ns as [|n rest IH]; intros Hnone; cbn [layer_scan]; [reflexivity|].
  rewrite (Hnone n (or_introl eq_refl)).
  assert (Hrest : layer_scan test rest = 0)
    by (apply IH; intros m Hm; apply Hnone; now right).
  rewrite Hrest. now destruct (test n).
Qed.

(** The search returns the layer of the first position that passes the test. *)
Lemma layer_scan_first (test : Z -> bool) (lo hi : Z) :
  layer_scan test (zrange lo hi)
  = match find test (zrange lo hi) with
    | Some n => match path_layer part n with Some r => r | None => 0 end
    | None => 0
    end.
Proof.
  remember (Z.to_nat (hi - lo)) as len eqn:Hlen.
  revert lo Hlen. induction len as [|len IH]; intros lo Hlen.
  - rewrite zrange_nil by lia. reflexivity.
  - rewrite zrange_cons by lia. cbn [layer_scan find].
    destruct (test lo); [|apply IH; lia].
    destruct (path_layer part lo) as [r|] eqn:Hl; [reflexivity|].
    apply layer_scan_beyond. intros n Hn. apply In_zrange in Hn.
    apply path_layer_none with lo; [exact Hl | lia].
Qed.

Lemma layer_scan_range (test : Z -> bool) (ns : list Z) :
  0 <= part_gl part -> 0 <= layer_scan test ns <= part_gl part.
Proof.
  intros Hgl. induction ns as [|n rest IH]; cbn [layer_scan]; [lia|].
  destruct (test n); [|exact IH].
  destruct (path_layer part n) as [r|] eqn:Hl; [|exact IH].
  apply path_layer_spec in Hl. lia.
Qed.

Lemma layer_scan_positive (test : Z -> bool) (ns : list Z) :
  layer_scan test ns <> 0 ->
  exists n, In n ns /\ test n = true /\ path_layer part n = Some (layer_scan test ns).
Proof.
  induction ns as [|n rest IH]; cbn [layer_scan]; [congruence|].
  destruct (test n) eqn:Ht.
  - destruct (path_layer part n) as [r|] eqn:Hl.
    + intros _. exists n. repeat split; auto. now left.
    + intros H. destruct (IH H) as (m & Hm & Htm & Hlm). exists m.
      repeat split; auto. now right.
  - intros H. destruct (IH H) as (m & Hm & Htm & Hlm). exists m.
    repeat split; auto. now right.
Qed.

(** A search for fewer positions ends in a layer at least as deep. *)
Lemma layer_scan_le (test test' : Z -> bool) (lo hi : Z) :
  (forall n, test' n = true -> test n = true) ->
  layer_scan test' (zrange lo hi) <> 0 ->
  1 <= layer_scan test (zrange lo hi) <= layer_scan test' (zrange lo hi).
Proof.
  intros Himp.
  remember (Z.to_nat (hi - lo)) as len eqn:Hlen.
  revert lo Hlen. induction len as [|len IH]; intros lo Hlen.
  - rewrite zrange_nil by lia. cbn [layer_scan]. congruence.
  - rewrite zrange_cons by lia. cbn [layer_scan].
    destruct (test' lo) eqn:Ht'.
    + rewrite (Himp lo Ht').
      destruct (path_layer part lo) as [r|] eqn:Hl.
      * intros _. apply path_layer_spec in Hl. lia.
      * apply IH. lia.
    + destruct (test lo) eqn:Ht; [|apply IH; lia].
      destruct (path_layer part lo) as [r|] eqn:Hl; [|apply IH; lia].
      intros Hpos. apply layer_scan_positive in Hpos as (m & Hm & _ & Hlm).
      apply In_zrange in Hm. split.
      * apply path_layer_spec in Hl. lia.
      * eapply path_layer_mono; [exact Hl | exact Hlm | lia].
Qed.

End Layer_proofs.

(** ** IdentifyInterfacialNode: one node *)

Lemma layer_scan_ext (part : Partition) (test test' : Z -> bool) (ns : list Z) :
  (forall n, test n = test' n) -> layer_scan part test ns = layer_scan part test' ns.
Proof.
  intros H. induction ns as [|n rest IH]; cbn [layer_scan]; [reflexivity|].
  now rewrite H, IH.
Qed.

Section Interfacial_proofs.

Context {E : Extern}.

Variable part : Partition.

(** The two searches read nothing but the geometry identifiers. *)
Lemma InterfacialState_gid (node node' : Nodes) (k j i g e : Z) :
  (forall x, gid (node' x) = gid (node x)) ->
  InterfacialState k j i g e (part_path part) node' part
  = InterfacialState k j i g e (part_path part) node part.
Proof.
  intros H. unfold InterfacialState. rewrite !InterfacialState_scan_layer.
  apply layer_scan_ext. intros n. unfold path_other. now rewrite H.
Qed.

Lemma GhostState_gid (node node' : Nodes) (k j i g e : Z) :
  (forall x, gid (node' x) = gid (node x)) ->
  GhostState k j i g e (part_path part) node' part
  = GhostState k j i g e (part_path part) node part.
Proof.
  intros H. unfold GhostState. rewrite !GhostState_scan_layer.
  apply layer_scan_ext. intros n. unfold path_same. now rewrite H.
Qed.

Lemma classified_lid_gid (node node' : Nodes) (k j i : Z) :
  (forall x, gid (node' x) = gid (node x)) ->
  classified_lid part node' k j i = classified_lid part node k j i.
Proof.
  intros H. unfold classified_lid. rewrite H. now apply InterfacialState_gid.
Qed.

Lemma classified_gst_gid (node node' : Nodes) (k j i : Z) :
  (forall x, gid (node' x) = gid (node x)) ->
  classified_gst part node' k j i = classified_gst part node k j i.
Proof.
  intros H. unfold classified_gst.
  rewrite (classified_lid_gid _ _ _ _ _ H), H, (GhostState_gid _ _ _ _ _ _ _ H).
  reflexivity.
Qed.

Lemma gid_upd_node_set_lid (node : Nodes) (idx v x : Z) :
  gid (upd_node node idx (set_lid v (node idx)) x) = gid (node x).
Proof.
  unfold upd_node. destruct (x =? idx) eqn:Hx; [|reflexivity].
  apply Z.eqb_eq in Hx. now subst.
Qed.

Lemma gid_upd_node_set_gst (node : Nodes) (idx v x : Z) :
  gid (upd_node node idx (set_gst v (node idx)) x) = gid (node x).
Proof.
  unfold upd_node. destruct (x =? idx) eqn:Hx; [|reflexivity].
  apply Z.eqb_eq in Hx. now subst.
Qed.

(** Lines 265 to 270 write [classified_lid] and [classified_gst] into the
    node and touch no other node. *)
Lemma classify_node_at (node : Nodes) (k j i : Z) :
  classify_node part k j i node (node_index part k j i)
  = set_gst (classified_gst part node k j i)
      (set_lid (classified_lid part node k j i) (node (node_index part k j i))).
Proof.
  unfold classify_node, classified_gst. fold (classified_lid part node k j i).
  set (idx := node_index part k j i). set (L := classified_lid part node k j i).
  set (node1 := upd_node node idx (set_lid L (node idx))).
  set (node2 := upd_node node1 idx (set_gst 0 (node1 idx))).
  assert (Hg : forall x, gid (node2 x) = gid (node x)).
  { intros x. unfold node2. rewrite gid_upd_node_set_gst. unfold node1.
    apply gid_upd_node_set_lid. }
  assert (H2 : node2 idx = set_gst 0 (set_lid L (node idx))).
  { unfold node2. rewrite upd_node_same. unfold node1. now rewrite upd_node_same. }
  rewrite (GhostState_gid _ _ _ _ _ _ _ Hg).
  replace (lid (node2 idx)) with L by (now rewrite H2).
  rewrite Hg.
  destruct (negb (0 =? L) && negb (0 =? gid (node idx))).
  - rewrite upd_node_same, H2. reflexivity.
  - exact H2.
Qed.

Lemma classify_node_other (node : Nodes) (k j i x : Z) :
  x <> node_index part k j i -> classify_node part k j i node x = node x.
Proof.
  intros Hx. unfold classify_node.
  match goal with
  | |- (if ?b then _ else _) x = _ => destruct b
  end; now rewrite ?upd_node_other by exact Hx.
Qed.

Lemma reconstruct_node_at (model : Model) (node : Nodes) (k j i : Z) (ws : Q)
  (Uo : RealArr) :
  reconstruct_node part model k j i node ws Uo (node_index part k j i)
  = set_fid NONE
      (set_U TO (reconstructed_U model ws Uo) (node (node_index part k j i))).
Proof. unfold reconstruct_node. now rewrite !upd_node_same. Qed.

Lemma reconstruct_node_other (model : Model) (node : Nodes) (k j i x : Z) (ws : Q)
  (Uo : RealArr) :
  x <> node_index part k j i -> reconstruct_node part model k j i node ws Uo x = node x.
Proof. intros Hx. unfold reconstruct_node. now rewrite !upd_node_other by exact Hx. Qed.

(** The three cases of the body of the loop nest. *)
Lemma IdentifyInterfacialNode_node_owned (fuel : nat) (model : Model)
  (node : Nodes) (k j i : Z) :
  gid (node (node_index part k j i)) <> 0 ->
  IdentifyInterfacialNode_node fuel part model k j i node
  = Some (classify_node part k j i node).
Proof.
  intros Hg. unfold IdentifyInterfacialNode_node. cbv zeta.
  apply Z.eqb_neq in Hg. rewrite Z.eqb_sym in Hg.
  rewrite Hg, andb_false_r. now rewrite Hg.
Qed.

Lemma IdentifyInterfacialNode_node_normal (fuel : nat) (model : Model)
  (node : Nodes) (k j i : Z) :
  gid (node (node_index part k j i)) = 0 ->
  fid (node (node_index part k j i)) = NONE ->
  IdentifyInterfacialNode_node fuel part model k j i node = Some node.
Proof.
  intros Hg Hf. unfold IdentifyInterfacialNode_node. cbv zeta.
  rewrite Hf, Z.eqb_refl. cbn [negb andb]. now rewrite Hg.
Qed.

Lemma IdentifyInterfacialNode_node_joined (fuel : nat) (model : Model)
  (node : Nodes) (k j i : Z) :
  gid (node (node_index part k j i)) = 0 ->
  fid (node (node_index part k j i)) <> NONE ->
  IdentifyInterfacialNode_node fuel part model k j i node
  = match
      InverseDistanceWeighting fuel TO (mkIntVec i j k) (node_point part k j i)
        R NONE 0 part node model
    with
    | Some (ws, Uo) => Some (reconstruct_node part model k j i node ws Uo)
    | None => None
    end.
Proof.
  intros Hg Hf. unfold IdentifyInterfacialNode_node. cbv zeta.
  apply Z.eqb_neq in Hf. rewrite Z.eqb_sym in Hf. rewrite Hf, Hg.
  cbn [negb andb Z.eqb].
  destruct (InverseDistanceWeighting _ _ _ _ _ _ _ _ _ _) as [[ws Uo]|];
    [|reflexivity].
  rewrite reconstruct_node_at. cbn [gid set_fid set_U]. rewrite Hg. reflexivity.
Qed.

End Interfacial_proofs.

Section Interfacial_claims.

Context {E : Extern}.

(** The markers that lines 265 to 270 give to an owned node: [lid] is the
    result of [InterfacialState]; when it is not zero, [gst] is the layer of
    the first valid node of the search path whose geometry identifier is
    zero, and zero when there is none; when it is zero, [gst] is zero. *)
Lemma classify_node_ghost_layer (part : Partition) (node : Nodes) (k j i : Z) :
  let idx := node_index part k j i in
  let fluid := path_same part node k j i 0 in
  let node' := classify_node part k j i node in
  gid (node idx) <> 0 ->
  lid (node' idx)
  = InterfacialState k j i (gid (node idx)) (part_pathSep part 0)
      (part_path part) node part /\
  (lid (node' idx) = 0 -> gst (node' idx) = 0) /\
  (lid (node' idx) <> 0 ->
     (forall r, r <> 0 ->
        (gst (node' idx) = r <->
         exists n,
           (0 <= n < part_pathSep part 0 /\ fluid n = true /\
            forall m, 0 <= m < n -> fluid m = false) /\
           (1 <= r <= part_gl part /\ n < part_pathSep part r /\
            forall r', 1 <= r' < r -> part_pathSep part r' <= n))) /\
     ((forall n, 0 <= n < part_pathSep part 0 -> fluid n = false) ->
      gst (node' idx) = 0)).
Proof.
  intros idx fluid node' Hg. subst node'.
  unfold idx. rewrite classify_node_at. cbn [lid gst set_gst set_lid].
  fold idx. split; [reflexivity|].
  unfold classified_gst. fold idx.
  split.
  - intros HL. rewrite HL. reflexivity.
  - intros HL.
    apply Z.eqb_neq in HL, Hg. rewrite (Z.eqb_sym 0), HL, (Z.eqb_sym 0), Hg.
    cbn [negb andb]. unfold GhostState.
    rewrite GhostState_scan_layer, layer_scan_first. fold fluid.
    split.
    + intros r Hr. split.
      * intros Hgst.
        destruct (find fluid (zrange 0 (part_pathSep part 0))) as [n|] eqn:Hfind;
          [|congruence].
        destruct (path_layer part n) as [r0|] eqn:Hl; [|congruence].
        subst r0. exists n. split.
        -- now apply find_zrange_least.
        -- now apply path_layer_spec.
      * intros (n & Hfirst & Hlayer).
        apply find_zrange_least in Hfirst. apply path_layer_spec in Hlayer.
        now rewrite Hfirst, Hlayer.
    + intros Hnone. apply find_zrange_none in Hnone. now rewrite Hnone.
Qed.


End Interfacial_claims.




(** ** IdentifyGeometryNode *)

Lemma fold_left_inv {A S : Type} (P : S -> Prop) (f : S -> A -> S) (l : list A) :
  (forall a s, In a l -> P s -> P (f s a)) ->
  forall s, P s -> P (fold_left f l s).
Proof.
  induction l as [|a l IH]; intros Hf s Hs; simpl; [exact Hs|].
  apply IH.
  - intros b t Hb. apply Hf. now right.
  - apply Hf; [now left | exact Hs].
Qed.

Lemma StronglySorted_app {A : Type} (R : A -> A -> Prop) (l1 l2 : list A) :
  StronglySorted R l1 -> StronglySorted R l2 ->
  (forall a b, In a l1 -> In b l2 -> R a b) ->
  StronglySorted R (l1 ++ l2).
Proof.
  intros H1 H2 Hcross. induction H1 as [|a l1 Hl1 IH Hall]; simpl; [exact H2|].
  constructor.
  - apply IH. intros x y Hx Hy. apply Hcross; [now right | exact Hy].
  - apply Forall_app. split; [exact Hall|].
    apply Forall_forall. intros y Hy. apply Hcross; [now left | exact Hy].
Qed.

Lemma StronglySorted_prefix {A : Type} (R : A -> A -> Prop) (l1 l2 : list A) :
  StronglySorted R (l1 ++ l2) -> StronglySorted R l1.
Proof.
  induction l1 as [|a l1 IH]; simpl; intros H; [constructor|].
  apply StronglySorted_inv in H as [Hs Hall]. constructor; [now apply IH|].
  apply Forall_app in Hall. tauto.
Qed.

(** In a sorted list the first element that passes a test is below all the
    elements that pass it. *)
Lemma find_sorted_least {A : Type} (R : A -> A -> Prop) (f : A -> bool)
  (l : list A) (a b : A) :
  (forall x, R x x) -> StronglySorted R l ->
  find f l = Some a -> In b l -> f b = true -> R a b.
Proof.
  intros Hrefl Hs. induction Hs as [|x l Hl IH Hall]; simpl; [discriminate|].
  destruct (f x) eqn:Hfx.
  - intros Heq [Hb|Hb] _; inversion Heq; subst; [apply Hrefl|].
    now apply (proj1 (Forall_forall _ _) Hall).
  - intros Hfind [Hb|Hb] Hfb; [subst; congruence|]. now apply IH.
Qed.

Section Ownership_proofs.

Context {E : Extern}.

Variables (part : Partition) (geo : Geometry).

(** The loop body claims the node when it is unowned and the test succeeds,
    and does nothing otherwise. *)
Lemma IdentifyGeometryNode_node_claim (n : Z) (node : Nodes) (k j i : Z) :
  IdentifyGeometryNode_node part n (poly geo n) k j i node
  = if (gid (node (node_index part k j i)) =? 0)
       && accepts part (poly geo n) (k, j, i)
    then
      upd_node node (node_index part k j i)
        (set_fid (accepted_fid part (poly geo n) (k, j, i))
           (set_gid (n + 1) (node (node_index part k j i))))
    else node.
Proof.
  unfold IdentifyGeometryNode_node, accepts, accepted_fid.
  rewrite (Z.eqb_sym 0 (gid _)).
  destruct (gid (node (node_index part k j i)) =? 0); [|reflexivity].
  cbn [negb andb].
  destruct (0 =? poly_faceN (poly geo n)); [reflexivity|].
  destruct (PointInPolyhedron _ _) as [inside f]. reflexivity.
Qed.

Lemma visit_other (node : Nodes) (v : Z * (Z * Z * Z)) (x : Z) :
  cell_index part (snd v) <> x -> visit part geo node v x = node x.
Proof.
  destruct v as [n [[k j] i]]. cbn [snd cell_index visit on_cell]. intros Hx.
  rewrite IdentifyGeometryNode_node_claim.
  destruct (_ && _); [|reflexivity].
  apply upd_node_other. congruence.
Qed.

Lemma visit_owned (node : Nodes) (v : Z * (Z * Z * Z)) :
  gid (node (cell_index part (snd v))) <> 0 -> visit part geo node v = node.
Proof.
  destruct v as [n [[k j] i]]. cbn [snd cell_index visit on_cell]. intros Hg.
  rewrite IdentifyGeometryNode_node_claim.
  apply Z.eqb_neq in Hg. now rewrite Hg.
Qed.

Lemma visit_at (node : Nodes) (v : Z * (Z * Z * Z)) (x : Z) :
  gid (node x) = 0 ->
  visit part geo node v x
  = if claims part geo x v then
      set_fid (accepted_fid part (poly geo (fst v)) (snd v))
        (set_gid (fst v + 1) (node x))
    else node x.
Proof.
  destruct v as [n [[k j] i]]. cbn [fst snd claims cell_index visit on_cell].
  intros Hg. rewrite IdentifyGeometryNode_node_claim.
  destruct (node_index part k j i =? x) eqn:Hx.
  - apply Z.eqb_eq in Hx. subst x. rewrite Hg. cbn [Z.eqb andb].
    destruct (accepts _ _ _); [|reflexivity]. apply upd_node_same.
  - cbn [andb]. apply Z.eqb_neq in Hx.
    destruct (_ && _); [|reflexivity]. apply upd_node_other. congruence.
Qed.

(** An owned node is left alone by every sequence of visits. *)
Lemma visits_owned (V : list (Z * (Z * Z * Z))) (node : Nodes) (x : Z) :
  gid (node x) <> 0 -> fold_left (visit part geo) V node x = node x.
Proof.
  revert node. induction V as [|v V IH]; intros node Hg; simpl; [reflexivity|].
  destruct (Z.eq_dec (cell_index part (snd v)) x) as [Hx|Hx].
  - subst x. rewrite visit_owned by exact Hg. now apply IH.
  - rewrite IH; rewrite visit_other by exact Hx; auto.
Qed.

(** An unowned node goes to the first visit that claims it. *)
Lemma visits_first (V : list (Z * (Z * Z * Z))) (node : Nodes) (x : Z) :
  (forall v, In v V -> 0 <= fst v) ->
  gid (node x) = 0 ->
  fold_left (visit part geo) V node x
  = match find (claims part geo x) V with
    | Some v =>
        set_fid (accepted_fid part (poly geo (fst v)) (snd v))
          (set_gid (fst v + 1) (node x))
    | None => node x
    end.
Proof.
  revert node. induction V as [|v V IH]; intros node Hpos Hg; simpl;
    [reflexivity|].
  pose proof (visit_at node v x Hg) as Hv.
  destruct (claims part geo x v) eqn:Hc.
  - rewrite visits_owned; [exact Hv|]. rewrite Hv. cbn [gid set_fid set_gid].
    specialize (Hpos v (or_introl eq_refl)). lia.
  - rewrite IH.
    + now rewrite Hv.
    + intros u Hu. apply Hpos. now right.
    + now rewrite Hv.
Qed.

End Ownership_proofs.

Section Ownership_phase.

Context {E : Extern}.

(** The phase is the sequence of its visits. *)
Lemma IdentifyGeometryNode_visits (space : Space) :
  node (IdentifyGeometryNode space)
  = fold_left (visit (part space) (geo space)) (visits (part space) (geo space))
      (node space).
Proof.
  unfold IdentifyGeometryNode, visits, for_range. cbn [node set_node].
  rewrite fold_left_flat_map. apply fold_left_ext. intros nd n.
  unfold IdentifyGeometryNode_poly.
  destruct (1 =? poly_state (poly (geo space) n)); [reflexivity|].
  rewrite sweep_cells, fold_left_map. reflexivity.
Qed.

Lemma In_visits (pt : Partition) (g : Geometry) (n : Z) (c : Z * Z * Z) :
  In (n, c) (visits pt g) ->
  0 <= n < totN g /\ poly_state (poly g n) <> 1 /\
  In c (box_cells (search_box pt (poly g n) MIN) (search_box pt (poly g n) MAX)).
Proof.
  unfold visits. rewrite in_flat_map. intros (m & Hm & Hin).
  apply In_zrange in Hm.
  destruct (1 =? poly_state (poly g m)) eqn:Hs; [contradiction|].
  apply in_map_iff in Hin as (c' & Heq & Hc'). inversion Heq; subst.
  apply Z.eqb_neq in Hs. split; [lia|]. split; [congruence | exact Hc'].
Qed.

Lemma visits_sorted (pt : Partition) (g : Geometry) :
  StronglySorted (fun a b => fst a <= fst b) (visits pt g).
Proof.
  unfold visits. generalize 0 at 1. intros lo.
  remember (Z.to_nat (totN g - lo)) as len eqn:Hlen.
  revert lo Hlen. induction len as [|len IH]; intros lo Hlen.
  - rewrite zrange_nil by lia. constructor.
  - rewrite zrange_cons by lia. cbn [flat_map].
    apply StronglySorted_app.
    + destruct (1 =? poly_state (poly g lo)); [constructor|].
      induction (box_cells _ _) as [|c l IHl]; cbn [map]; constructor;
        [exact IHl|].
      apply Forall_forall. intros b Hb. apply in_map_iff in Hb as (c' & <- & _).
      cbn [fst]. lia.
    + apply IH. lia.
    + intros a b Ha Hb.
      assert (Hfa : fst a = lo).
      { destruct (1 =? poly_state (poly g lo)); [contradiction|].
        apply in_map_iff in Ha as (c' & <- & _). reflexivity. }
      apply in_flat_map in Hb as (m & Hm & Hb). apply In_zrange in Hm.
      assert (Hfb : fst b = m).
      { destruct (1 =? poly_state (poly g m)); [contradiction|].
        apply in_map_iff in Hb as (c' & <- & _). reflexivity. }
      lia.
Qed.

End Ownership_phase.


Section Ownership_claims.

Context {E : Extern}.



(** C9 (amended).  The ownership phase is a sequence of visits, each of a
    polyhedron that is not stationary to a node of its box.  After any
    number of them: a geometry identifier that was zero or the identifier
    of a polyhedron is so still; a visit to a node whose identifier is not
    zero changes nothing, whatever its test would say, so that a node owned
    at the start keeps its owner; and a node unowned at the start belongs
    to the first visit that tests it with success, that of the polyhedron of
    lowest index among the visits that do, and is unowned when there is
    none. *)
Theorem IdentifyGeometryNode_first_claim (space : Space)
  (V1 V2 : list (Z * (Z * Z * Z))) (x : Z) :
  let pt := part space in
  let g := geo space in
  let nodes := node space in
  let nodes1 := fold_left (visit pt g) V1 nodes in
  visits pt g = V1 ++ V2 ->
  node (IdentifyGeometryNode space) = fold_left (visit pt g) V2 nodes1 /\
  (forall nd v, gid (nd (cell_index pt (snd v))) <> 0 -> visit pt g nd v = nd) /\
  (gid (nodes x) = 0 \/ 1 <= gid (nodes x) <= totN g ->
   gid (nodes1 x) = 0 \/ 1 <= gid (nodes1 x) <= totN g) /\
  (gid (nodes x) <> 0 -> nodes1 x = nodes x) /\
  (gid (nodes x) = 0 ->
   match find (claims pt g x) V1 with
   | Some (n, c) =>
       nodes1 x = set_fid (accepted_fid pt (poly g n) c) (set_gid (n + 1) (nodes x)) /\
       0 <= n < totN g /\ poly_state (poly g n) <> 1 /\
       forall n' c', In (n', c') V1 -> claims pt g x (n', c') = true -> n <= n'
   | None => nodes1 x = nodes x
   end).
Proof.
  intros pt g nodes nodes1 HV.
  assert (Hin : forall v, In v V1 -> In v (visits pt g))
    by (intros v Hv; rewrite HV; apply in_or_app; now left).
  assert (Hpos : forall v, In v V1 -> 0 <= fst v).
  { intros [n c] Hv. apply Hin, In_visits in Hv. cbn [fst]. lia. }
  assert (Hfirst : gid (nodes x) = 0 ->
     match find (claims pt g x) V1 with
     | Some (n, c) =>
         nodes1 x = set_fid (accepted_fid pt (poly g n) c) (set_gid (n + 1) (nodes x)) /\
         0 <= n < totN g /\ poly_state (poly g n) <> 1 /\
         forall n' c', In (n', c') V1 -> claims pt g x (n', c') = true -> n <= n'
     | None => nodes1 x = nodes x
     end).
  { intros Hg. pose proof (visits_first pt g V1 nodes x Hpos Hg) as Hf.
    fold nodes1 in Hf.
    destruct (find (claims pt g x) V1) as [[n c]|] eqn:Hfind; [|exact Hf].
    split; [exact Hf|].
    pose proof (find_some _ _ Hfind) as [Hv _].
    apply Hin, In_visits in Hv as (Hn & Hs & _).
    split; [exact Hn|]. split; [exact Hs|].
    intros n' c' Hv' Hc'.
    assert (Hsorted : StronglySorted (fun a b => fst a <= fst b) V1).
    { apply StronglySorted_prefix with V2. rewrite <- HV. apply visits_sorted. }
    apply (@find_sorted_least _ (fun a b => fst a <= fst b) (claims pt g x)
             V1 (n, c) (n', c')); auto.
    intros; lia. }
  split; [|split; [|split; [|split]]].
  - rewrite IdentifyGeometryNode_visits. fold pt g nodes.
    rewrite HV, fold_left_app. reflexivity.
  - intros nd v. apply visit_owned.
  - intros Hvalid. destruct (Z.eq_dec (gid (nodes x)) 0) as [Hg|Hg].
    + specialize (Hfirst Hg).
      destruct (find (claims pt g x) V1) as [[n c]|].
      * destruct Hfirst as (-> & Hn & _). cbn [gid set_fid set_gid]. lia.
      * rewrite Hfirst. now left.
    + unfold nodes1. rewrite visits_owned by exact Hg. exact Hvalid.
  - intros Hg. now apply visits_owned.
  - exact Hfirst.
Qed.

End Ownership_claims.


Lemma IdentifyGeometryNode_first_claim_witness :
  visits (E := refExtern) sample_part geo_moving
  = visits (E := refExtern) sample_part geo_moving ++ [] /\
  (gid (fold_left (visit (E := refExtern) sample_part geo_moving)
          (visits (E := refExtern) sample_part geo_moving) fluid_nodes idx333) = 0 \/
   1 <= gid (fold_left (visit (E := refExtern) sample_part geo_moving)
               (visits (E := refExtern) sample_part geo_moving) fluid_nodes idx333)
     <= 2).
Proof.
  assert (HV : visits (E := refExtern) sample_part geo_moving
               = visits (E := refExtern) sample_part geo_moving ++ [])
    by (symmetry; apply app_nil_r).
  split; [exact HV|].
  destruct (@IdentifyGeometryNode_first_claim refExtern
              (mkSpace sample_part fluid_nodes geo_moving)
              (visits (E := refExtern) sample_part geo_moving) [] idx333 HV)
    as (_ & _ & Hvalid & _).
  apply Hvalid. left. reflexivity.
Defined.

(** Two spheres contain node (3, 3, 3).  When the first one is stationary, the
    node, unowned before the phase, goes to the second one.  When both move
    and the node belongs to the second one before the phase, the first one
    visits the node and leaves it to the second one. *)
Lemma lowest_index_does_not_always_own :
  (poly_state (poly geo_still 0) = 1 /\
   accepts (E := refExtern) sample_part (poly geo_still 0) (3, 3, 3) = true /\
   gid (fluid_nodes idx333) = 0 /\
   gid (node (IdentifyGeometryNode (E := refExtern)
                (mkSpace sample_part fluid_nodes geo_still)) idx333) = 2) /\
  (In (0, (3, 3, 3)) (visits (E := refExtern) sample_part geo_moving) /\
   accepts (E := refExtern) sample_part (poly geo_moving 0) (3, 3, 3) = true /\
   gid (owned2_nodes idx333) = 2 /\
   gid (node (IdentifyGeometryNode (E := refExtern)
                (mkSpace sample_part owned2_nodes geo_moving)) idx333) = 2).
Proof.
  split.
  - repeat split; vm_compute; reflexivity.
  - split; [vm_compute; left; reflexivity|].
    repeat split; vm_compute; reflexivity.
Qed.

(** ** The three phases of ComputeGeometryDomain *)

Lemma foldM_pure {S A : Type} (f : S -> A -> S) (l : list A) (s : S) :
  foldM (fun a s => Some (f s a)) l s = Some (fold_left f l s).
Proof.
  revert s. induction l as [|a l IH]; intros s; simpl; [reflexivity|]. apply IH.
Qed.

(** A property of the node at some index that every visit keeps holds at the
    end; a property that a visit establishes at the index it visits holds at
    the end for all the visited indices. *)
Lemma foldM_kept {S A : Type} (Inv P : S -> Prop) (f : A -> S -> option S)
  (l : list A) :
  (forall a s s', In a l -> Inv s -> f a s = Some s' -> Inv s') ->
  (forall a s s', In a l -> Inv s -> P s -> f a s = Some s' -> P s') ->
  forall s s', Inv s -> P s -> foldM f l s = Some s' -> P s'.
Proof.
  intros HInv HP s s' Hi Hp Hrun.
  assert (H : Inv s' /\ P s'); [|tauto].
  apply (foldM_inv (fun s => Inv s /\ P s) f l) with (s := s);
    [|tauto|exact Hrun].
  intros a t t' Ha [Hti Htp] Hf. split; eauto.
Qed.

Lemma foldM_visited {S A : Type} (Inv : S -> Prop) (P : A -> S -> Prop)
  (f : A -> S -> option S) (l : list A) :
  (forall a s s', In a l -> Inv s -> f a s = Some s' -> Inv s') ->
  (forall a s s', In a l -> Inv s -> f a s = Some s' -> P a s') ->
  (forall a b s s', In a l -> In b l -> Inv s -> P b s -> f a s = Some s' -> P b s') ->
  forall s s', Inv s -> foldM f l s = Some s' -> forall a, In a l -> P a s'.
Proof.
  induction l as [|b l IH]; intros HInv Hest Hkeep s s' Hi Hrun a Ha;
    [contradiction|].
  simpl in Hrun. destruct (f b s) as [s1|] eqn:Hb; [|discriminate].
  assert (Hi1 : Inv s1) by (apply (HInv b s s1); auto; now left).
  destruct Ha as [->|Ha].
  - apply (foldM_kept Inv (P a) f l) with (s := s1); auto.
    + intros c t t' Hc. apply HInv. now right.
    + intros c t t' Hc. apply Hkeep; now (left + right).
    + apply (Hest a s s1); auto. now left.
  - apply IH with (s := s1); auto.
    + intros c t t' Hc. apply HInv. now right.
    + intros c t t' Hc. apply Hest. now right.
    + intros c d t t' Hc Hd. apply Hkeep; now right.
Qed.

Section Domain_proofs.

Context {E : Extern}.

Variables (pt : Partition) (g : Geometry).

(** *** InitializeGeometryDomain, one node *)

Lemma InitializeGeometryDomain_node_other (nodes : Nodes) (k j i x : Z) :
  x <> node_index pt k j i ->
  InitializeGeometryDomain_node pt g k j i nodes x = nodes x.
Proof.
  intros Hx. unfold InitializeGeometryDomain_node. cbv zeta.
  destruct (0 >=? _); [now apply upd_node_other|].
  destruct (1 =? _); [now apply upd_node_other|].
  destruct (0 <? _); [now apply upd_node_other | reflexivity].
Qed.

(** The reset keeps the state and the face identifier of the node and leaves
    it either unowned, with both markers cleared, or with its positive
    geometry identifier. *)
Lemma InitializeGeometryDomain_node_at (nodes : Nodes) (k j i : Z) :
  let x := node_index pt k j i in
  let nd := InitializeGeometryDomain_node pt g k j i nodes x in
  U nd = U (nodes x) /\ fid nd = fid (nodes x) /\
  (gid nd = 0 /\ lid nd = 0 /\ gst nd = 0 \/ gid nd = gid (nodes x) /\ 0 < gid nd).
Proof.
  intros x nd. subst nd. unfold InitializeGeometryDomain_node. cbv zeta. fold x.
  destruct (0 >=? gid (nodes x)) eqn:Hneg.
  - rewrite upd_node_same. cbn. tauto.
  - assert (0 < gid (nodes x))
      by (rewrite Z.geb_leb in Hneg; apply Z.leb_gt in Hneg; lia).
    destruct (1 =? _).
    + rewrite upd_node_same. cbn. tauto.
    + destruct (0 <? _).
      * rewrite upd_node_same. cbn. tauto.
      * tauto.
Qed.

(** The reset of a node of a stationary polyhedron clears both markers and
    nothing else. *)
Lemma InitializeGeometryDomain_node_stationary (nodes : Nodes) (k j i : Z) :
  let x := node_index pt k j i in
  0 < gid (nodes x) -> poly_state (poly g (gid (nodes x) - 1)) = 1 ->
  InitializeGeometryDomain_node pt g k j i nodes x = set_gst 0 (set_lid 0 (nodes x)).
Proof.
  intros x Hpos Hs. unfold InitializeGeometryDomain_node. cbv zeta. fold x.
  destruct (0 >=? gid (nodes x)) eqn:Hneg.
  - rewrite Z.geb_leb in Hneg. apply Z.leb_le in Hneg. lia.
  - rewrite Hs. cbn [Z.eqb Pos.eqb]. apply upd_node_same.
Qed.

Lemma InitializeGeometryDomain_node_unowned (nodes : Nodes) (k j i : Z) :
  let x := node_index pt k j i in
  gid (nodes x) <= 0 ->
  InitializeGeometryDomain_node pt g k j i nodes x
  = set_gst 0 (set_lid 0 (set_gid 0 (nodes x))).
Proof.
  intros x Hneg. unfold InitializeGeometryDomain_node. cbv zeta. fold x.
  destruct (0 >=? gid (nodes x)) eqn:Hge.
  - apply upd_node_same.
  - rewrite Z.geb_leb in Hge. apply Z.leb_gt in Hge. lia.
Qed.

(** *** IdentifyInterfacialNode, one node *)

Lemma IdentifyInterfacialNode_node_facts (fuel : nat) (model : Model)
  (nodes nodes' : Nodes) (k j i : Z) :
  let x := node_index pt k j i in
  IdentifyInterfacialNode_node fuel pt model k j i nodes = Some nodes' ->
  (forall y, y <> x -> nodes' y = nodes y) /\
  gid (nodes' x) = gid (nodes x) /\
  (gid (nodes x) <> 0 ->
   nodes' x = set_gst (classified_gst pt nodes k j i)
                (set_lid (classified_lid pt nodes k j i) (nodes x))) /\
  (gid (nodes x) = 0 ->
   fid (nodes' x) = NONE /\ lid (nodes' x) = lid (nodes x) /\
   gst (nodes' x) = gst (nodes x)) /\
  (gid (nodes x) = 0 -> fid (nodes x) = NONE -> nodes' = nodes).
Proof.
  intros x Hrun.
  destruct (Z.eq_dec (gid (nodes x)) 0) as [Hg|Hg].
  - destruct (Z.eq_dec (fid (nodes x)) NONE) as [Hf|Hf].
    + rewrite IdentifyInterfacialNode_node_normal in Hrun by assumption.
      inversion Hrun; subst nodes'. repeat split; auto; congruence.
    + rewrite IdentifyInterfacialNode_node_joined in Hrun by assumption.
      destruct (InverseDistanceWeighting _ _ _ _ _ _ _ _ _ _) as [[ws Uo]|];
        [|discriminate].
      inversion Hrun; subst nodes'. fold x.
      unfold x. rewrite reconstruct_node_at. fold x. cbn.
      repeat split; auto; try congruence.
      intros y Hy. now apply reconstruct_node_other.
  - rewrite IdentifyInterfacialNode_node_owned in Hrun by assumption.
    inversion Hrun; subst nodes'. unfold x. rewrite classify_node_at. fold x. cbn.
    repeat split; auto; try congruence.
    intros y Hy. now apply classify_node_other.
Qed.

End Domain_proofs.

Lemma flat_map_nil {A B : Type} (f : A -> list B) (l : list A) :
  (forall a, In a l -> f a = []) -> flat_map f l = [].
Proof.
  induction l as [|a l IH]; intros H; simpl; [reflexivity|].
  rewrite (H a (or_introl eq_refl)), IH; [reflexivity|].
  intros b Hb. apply H. now right.
Qed.

Section Phase_proofs.

Context {E : Extern}.

Variables (pt : Partition) (g : Geometry).

Local Abbreviation reset :=
  (fun s c => on_cell (InitializeGeometryDomain_node pt g) c s).

(** *** The reset phase *)

Lemma reset_other (nodes : Nodes) (c : Z * Z * Z) (x : Z) :
  x <> cell_index pt c -> reset nodes c x = nodes x.
Proof.
  destruct c as [[k j] i]. cbn [on_cell cell_index].
  apply InitializeGeometryDomain_node_other.
Qed.

Lemma reset_at (nodes : Nodes) (c : Z * Z * Z) :
  let x := cell_index pt c in
  U (reset nodes c x) = U (nodes x) /\ fid (reset nodes c x) = fid (nodes x) /\
  (gid (reset nodes c x) = 0 /\ lid (reset nodes c x) = 0 /\ gst (reset nodes c x) = 0 \/
   gid (reset nodes c x) = gid (nodes x) /\ 0 < gid (reset nodes c x)).
Proof.
  destruct c as [[k j] i]. cbn [on_cell cell_index].
  apply InitializeGeometryDomain_node_at.
Qed.

(** The reset changes neither state nor face identifier, and a geometry
    identifier only to zero. *)
Lemma reset_fields (l : list (Z * Z * Z)) (nodes : Nodes) (x : Z) :
  U (fold_left reset l nodes x) = U (nodes x) /\
  fid (fold_left reset l nodes x) = fid (nodes x) /\
  (gid (fold_left reset l nodes x) = gid (nodes x) \/
   gid (fold_left reset l nodes x) = 0).
Proof.
  apply (fold_left_inv
    (fun s => U (s x) = U (nodes x) /\ fid (s x) = fid (nodes x) /\
              (gid (s x) = gid (nodes x) \/ gid (s x) = 0))); [|tauto].
  intros c s _ (HU & Hf & Hg).
  destruct (Z.eq_dec x (cell_index pt c)) as [->|Hx].
  - destruct (reset_at s c) as (HU' & Hf' & Hg').
    rewrite HU', Hf'. split; [exact HU|]. split; [exact Hf|].
    destruct Hg' as [(H0 & _)|(Hsame & _)]; [now right|].
    rewrite Hsame. exact Hg.
  - rewrite reset_other by exact Hx. tauto.
Qed.

Lemma reset_unvisited (l : list (Z * Z * Z)) (nodes : Nodes) (x : Z) :
  (forall c, In c l -> cell_index pt c <> x) -> fold_left reset l nodes x = nodes x.
Proof.
  intros Hx.
  apply (fold_left_inv (fun s => s x = nodes x)); [|reflexivity].
  intros c s Hc Hs. rewrite reset_other; [exact Hs|].
  intros Heq. apply (Hx c Hc). now symmetry.
Qed.

(** After the reset an interior node has a geometry identifier that is not
    negative and, when it is unowned, no marker. *)
Lemma reset_visited (l : list (Z * Z * Z)) (nodes : Nodes) (c : Z * Z * Z) :
  In c l ->
  let nd := fold_left reset l nodes (cell_index pt c) in
  0 <= gid nd /\ (gid nd = 0 -> lid nd = 0 /\ gst nd = 0).
Proof.
  intros Hc.
  pose proof (foldM_pure reset l nodes) as Hrun.
  apply (foldM_visited (fun _ => True)
           (fun c s => 0 <= gid (s (cell_index pt c)) /\
                       (gid (s (cell_index pt c)) = 0 ->
                        lid (s (cell_index pt c)) = 0 /\ gst (s (cell_index pt c)) = 0))
           (fun a s => Some (reset s a)) l) with (s := nodes); auto.
  - intros a s s' _ _ Hs. inversion Hs; subst s'.
    destruct (reset_at s a) as (_ & _ & Hg). lia.
  - intros a b s s' _ _ _ Hb Hs. inversion Hs; subst s'.
    destruct (Z.eq_dec (cell_index pt b) (cell_index pt a)) as [Heq|Hne].
    + rewrite Heq. destruct (reset_at s a) as (_ & _ & Hg). lia.
    + rewrite reset_other by exact Hne. exact Hb.
Qed.

(** *** The ownership phase *)

Lemma visit_markers (nodes : Nodes) (v : Z * (Z * Z * Z)) (x : Z) :
  lid (visit pt g nodes v x) = lid (nodes x) /\
  gst (visit pt g nodes v x) = gst (nodes x) /\
  (gid (nodes x) <> 0 -> gid (visit pt g nodes v x) = gid (nodes x)) /\
  (gid (nodes x) = 0 -> gid (visit pt g nodes v x) = 0 \/
                        gid (visit pt g nodes v x) = fst v + 1).
Proof.
  destruct v as [n [[k j] i]]. cbn [visit on_cell fst].
  rewrite IdentifyGeometryNode_node_claim.
  destruct (gid (nodes (node_index pt k j i)) =? 0) eqn:Hg; cbn [andb]; [|tauto].
  destruct (accepts _ _ _); [|tauto].
  apply Z.eqb_eq in Hg.
  destruct (Z.eq_dec x (node_index pt k j i)) as [->|Hx].
  - rewrite upd_node_same. cbn. repeat split; auto. congruence.
  - rewrite upd_node_other by exact Hx. tauto.
Qed.

(** The ownership phase keeps the markers, and keeps an unowned node without
    markers so if it stays unowned. *)
Lemma visits_markers (V : list (Z * (Z * Z * Z))) (nodes : Nodes) (x : Z) :
  lid (fold_left (visit pt g) V nodes x) = lid (nodes x) /\
  gst (fold_left (visit pt g) V nodes x) = gst (nodes x) /\
  (gid (nodes x) <> 0 -> gid (fold_left (visit pt g) V nodes x) = gid (nodes x)).
Proof.
  apply (fold_left_inv
    (fun s => lid (s x) = lid (nodes x) /\ gst (s x) = gst (nodes x) /\
              (gid (nodes x) <> 0 -> gid (s x) = gid (nodes x)))); [|tauto].
  intros v s _ (Hl & Hs & Hg).
  destruct (visit_markers s v x) as (Hl' & Hs' & Hg' & _).
  rewrite Hl', Hs'. repeat split; auto.
  intros Hx. rewrite Hg'; rewrite Hg; auto.
Qed.

Lemma visits_nonnegative (V : list (Z * (Z * Z * Z))) (nodes : Nodes) (x : Z) :
  (forall v, In v V -> 0 <= fst v) ->
  0 <= gid (nodes x) -> 0 <= gid (fold_left (visit pt g) V nodes x).
Proof.
  intros Hpos.
  apply (fold_left_inv (fun s => 0 <= gid (s x))).
  intros v s Hv Hs. specialize (Hpos v Hv).
  destruct (visit_markers s v x) as (_ & _ & Hown & Hfree).
  destruct (Z.eq_dec (gid (s x)) 0) as [H0|H0].
  - destruct (Hfree H0); lia.
  - rewrite Hown by exact H0. exact Hs.
Qed.

(** When every polyhedron is stationary, the ownership phase has no visit. *)
Lemma visits_stationary :
  (forall n, 0 <= n < totN g -> poly_state (poly g n) = 1) -> visits pt g = [].
Proof.
  intros Hs. unfold visits. apply flat_map_nil. intros n Hn.
  apply In_zrange in Hn. now rewrite (Hs n Hn).
Qed.

(** *** The values of the classification *)

Lemma classified_lid_range (nodes : Nodes) (k j i : Z) :
  0 <= part_gl pt -> 0 <= classified_lid pt nodes k j i <= part_gl pt.
Proof.
  intros Hgl. unfold classified_lid, InterfacialState.
  rewrite InterfacialState_scan_layer. now apply layer_scan_range.
Qed.

Lemma classified_gst_range (nodes : Nodes) (k j i : Z) :
  0 <= part_gl pt -> 0 <= classified_gst pt nodes k j i <= part_gl pt.
Proof.
  intros Hgl. unfold classified_gst. destruct (_ && _); [|lia].
  unfold GhostState. rewrite GhostState_scan_layer. now apply layer_scan_range.
Qed.

(** A ghost node is an interfacial node, of a layer that is not deeper. *)
Lemma classified_gst_lid (nodes : Nodes) (k j i : Z) :
  classified_gst pt nodes k j i <> 0 ->
  1 <= classified_lid pt nodes k j i <= classified_gst pt nodes k j i.
Proof.
  unfold classified_gst.
  destruct (negb (0 =? classified_lid pt nodes k j i)) eqn:HL; cbn [andb];
    [|congruence].
  destruct (negb (0 =? gid (nodes (node_index pt k j i)))) eqn:Hg; [|congruence].
  apply negb_true_iff, Z.eqb_neq in Hg.
  unfold classified_lid, GhostState, InterfacialState.
  rewrite GhostState_scan_layer, InterfacialState_scan_layer.
  apply layer_scan_le. intros n. unfold path_same, path_other.
  rewrite !andb_true_iff, Z.eqb_eq, !negb_true_iff. intros [Hv H0].
  split; [exact Hv|]. apply Z.eqb_neq. congruence.
Qed.

End Phase_proofs.

Section Classification_phase.

Context {E : Extern}.

Variables (pt : Partition) (fuel : nat) (model : Model).

Local Abbreviation step := (on_cell (IdentifyInterfacialNode_node fuel pt model)).

Lemma step_facts (c : Z * Z * Z) (nodes nodes' : Nodes) :
  let x := cell_index pt c in
  step c nodes = Some nodes' ->
  (forall y, y <> x -> nodes' y = nodes y) /\
  gid (nodes' x) = gid (nodes x) /\
  (gid (nodes x) <> 0 ->
   nodes' x = set_gst (cell_gst pt nodes c) (set_lid (cell_lid pt nodes c) (nodes x))) /\
  (gid (nodes x) = 0 ->
   fid (nodes' x) = NONE /\ lid (nodes' x) = lid (nodes x) /\
   gst (nodes' x) = gst (nodes x)) /\
  (gid (nodes x) = 0 -> fid (nodes x) = NONE -> nodes' = nodes).
Proof.
  destruct c as [[k j] i]. cbn [on_cell cell_index cell_lid cell_gst].
  apply IdentifyInterfacialNode_node_facts.
Qed.

Lemma step_gid (c : Z * Z * Z) (nodes nodes' : Nodes) (y : Z) :
  step c nodes = Some nodes' -> gid (nodes' y) = gid (nodes y).
Proof.
  intros Hrun. destruct (step_facts c nodes Hrun) as (Hother & Hg & _).
  destruct (Z.eq_dec y (cell_index pt c)) as [->|Hy]; [exact Hg|].
  now rewrite Hother.
Qed.

(** The classification phase changes no geometry identifier. *)
Lemma classification_gid (l : list (Z * Z * Z)) (nodes nodes' : Nodes) :
  foldM step l nodes = Some nodes' -> forall y, gid (nodes' y) = gid (nodes y).
Proof.
  intros Hrun.
  apply (foldM_inv (fun s => forall y, gid (s y) = gid (nodes y)) step l)
    with (s := nodes); auto.
  intros c s s' _ Hs Hstep y. rewrite (step_gid c s y Hstep). apply Hs.
Qed.

Lemma cell_lid_gid (nodes nodes' : Nodes) (c : Z * Z * Z) :
  (forall y, gid (nodes' y) = gid (nodes y)) ->
  cell_lid pt nodes' c = cell_lid pt nodes c.
Proof. destruct c as [[k j] i]. apply classified_lid_gid. Qed.

Lemma cell_gst_gid (nodes nodes' : Nodes) (c : Z * Z * Z) :
  (forall y, gid (nodes' y) = gid (nodes y)) ->
  cell_gst pt nodes' c = cell_gst pt nodes c.
Proof. destruct c as [[k j] i]. apply classified_gst_gid. Qed.

(** An owned node ends with the markers computed at its last visit, from the
    geometry identifiers at the start of the phase, and is otherwise as it
    was. *)
Lemma classification_owned (l : list (Z * Z * Z)) (nodes nodes' : Nodes) (x : Z) :
  foldM step l nodes = Some nodes' ->
  gid (nodes x) <> 0 ->
  nodes' x
  = match find (fun c => cell_index pt c =? x) (rev l) with
    | Some c => set_gst (cell_gst pt nodes c) (set_lid (cell_lid pt nodes c) (nodes x))
    | None => nodes x
    end.
Proof.
  revert nodes'. induction l as [|c l IH] using rev_ind; intros nodes' Hrun Hg.
  - simpl in Hrun. now inversion Hrun.
  - rewrite foldM_app in Hrun.
    destruct (foldM step l nodes) as [s|] eqn:Hl; [|discriminate].
    cbn [foldM] in Hrun.
    destruct (step c s) as [s'|] eqn:Hstep; [|discriminate].
    inversion Hrun; subst s'. clear Hrun.
    pose proof (classification_gid l nodes Hl) as Hgid.
    destruct (step_facts c s Hstep) as (Hother & _ & Hown & _).
    rewrite rev_app_distr. cbn [rev app find].
    destruct (cell_index pt c =? x) eqn:Hx.
    + apply Z.eqb_eq in Hx. subst x. rewrite Hown by (rewrite Hgid; exact Hg).
      rewrite (cell_lid_gid _ _ c Hgid), (cell_gst_gid _ _ c Hgid).
      rewrite (IH s eq_refl Hg).
      destruct (find _ (rev l)); reflexivity.
    + apply Z.eqb_neq in Hx. rewrite Hother by congruence. now apply IH.
Qed.

(** When every unowned interior node is a normal node, the phase returns,
    whatever the fuel, and changes no unowned node. *)
Lemma classification_normal (l : list (Z * Z * Z)) (nodes : Nodes) :
  (forall c, In c l -> gid (nodes (cell_index pt c)) = 0 ->
             fid (nodes (cell_index pt c)) = NONE) ->
  exists nodes',
    foldM step l nodes = Some nodes' /\
    forall x, gid (nodes x) = 0 -> nodes' x = nodes x.
Proof.
  revert nodes. induction l as [|c l IH]; intros nodes HK.
  - exists nodes. split; [reflexivity | auto].
  - assert (Hstep : exists s, step c nodes = Some s /\
              (forall y, gid (s y) = gid (nodes y)) /\
              (forall y, fid (s y) = fid (nodes y)) /\
              (forall y, gid (nodes y) = 0 -> s y = nodes y)).
    { destruct c as [[k j] i]. cbn [on_cell].
      destruct (Z.eq_dec (gid (nodes (node_index pt k j i))) 0) as [Hg|Hg].
      - exists nodes. split; [|auto].
        apply IdentifyInterfacialNode_node_normal; [exact Hg|].
        apply (HK (k, j, i)); [now left | exact Hg].
      - exists (classify_node pt k j i nodes).
        split; [now apply IdentifyInterfacialNode_node_owned|].
        assert (Hy : forall y, U (classify_node pt k j i nodes y) = U (nodes y) /\
                               gid (classify_node pt k j i nodes y) = gid (nodes y) /\
                               fid (classify_node pt k j i nodes y) = fid (nodes y)).
        { intros y. destruct (Z.eq_dec y (node_index pt k j i)) as [->|Hne].
          - rewrite classify_node_at. cbn. auto.
          - rewrite classify_node_other by exact Hne. auto. }
        split; [intros y; apply Hy|]. split; [intros y; apply Hy|].
        intros y H0. apply classify_node_other. congruence. }
    destruct Hstep as (s & Hs & Hgid & Hfid & Hkeep).
    destruct (IH s) as (nodes' & Hrun & Hsame).
    + intros d Hd. rewrite Hgid, Hfid. apply HK. now right.
    + exists nodes'. cbn [foldM]. rewrite Hs. split; [exact Hrun|].
      intros x Hx. rewrite Hsame by (rewrite Hgid; exact Hx). now apply Hkeep.
Qed.

(** After the phase, an interior node that was unowned without markers, or
    owned, has both markers in [0 .. gl], and a ghost node is an interfacial
    node of a layer that is not deeper; an unowned interior node is a normal
    node. *)
Lemma classification_visited (l : list (Z * Z * Z)) (nodes nodes' : Nodes) :
  0 <= part_gl pt ->
  (forall c, In c l -> gid (nodes (cell_index pt c)) = 0 ->
             lid (nodes (cell_index pt c)) = 0 /\ gst (nodes (cell_index pt c)) = 0) ->
  foldM step l nodes = Some nodes' ->
  forall c, In c l ->
    let nd := nodes' (cell_index pt c) in
    (0 <= lid nd <= part_gl pt /\ 0 <= gst nd <= part_gl pt /\
     (gst nd <> 0 -> lid nd <> 0 /\ lid nd <= gst nd) /\
     (lid nd = 0 -> gst nd = 0)) /\
    (gid nd = 0 -> fid nd = NONE /\ lid nd = 0 /\ gst nd = 0).
Proof.
  intros Hgl HQ Hrun.
  set (Inv := fun s : Nodes =>
    forall c, In c l -> gid (s (cell_index pt c)) = 0 ->
              lid (s (cell_index pt c)) = 0 /\ gst (s (cell_index pt c)) = 0).
  set (P := fun (c : Z * Z * Z) (s : Nodes) =>
    (0 <= lid (s (cell_index pt c)) <= part_gl pt /\
     0 <= gst (s (cell_index pt c)) <= part_gl pt /\
     (gst (s (cell_index pt c)) <> 0 ->
      lid (s (cell_index pt c)) <> 0 /\
      lid (s (cell_index pt c)) <= gst (s (cell_index pt c))) /\
     (lid (s (cell_index pt c)) = 0 -> gst (s (cell_index pt c)) = 0)) /\
    (gid (s (cell_index pt c)) = 0 ->
     fid (s (cell_index pt c)) = NONE /\ lid (s (cell_index pt c)) = 0 /\
     gst (s (cell_index pt c)) = 0)).
  assert (Hest : forall a s s', In a l -> Inv s -> step a s = Some s' -> P a s').
  { intros a s s' Ha Hi Hstep. unfold P.
    destruct (step_facts a s Hstep) as (_ & Hg & Hown & Hfree & _).
    destruct (Z.eq_dec (gid (s (cell_index pt a))) 0) as [H0|H0].
    - destruct (Hfree H0) as (Hf & Hl & Hs). destruct (Hi a Ha H0) as (Hl0 & Hs0).
      rewrite Hl, Hs, Hl0, Hs0. repeat split; auto; try lia; congruence.
    - rewrite (Hown H0). cbn [lid gst gid set_gst set_lid].
      destruct a as [[k j] i]. cbn [cell_lid cell_gst].
      pose proof (classified_lid_range pt s k j i Hgl).
      pose proof (classified_gst_range pt s k j i Hgl).
      pose proof (classified_gst_lid pt s k j i) as Hle.
      split; [|intros; contradiction].
      split; [assumption|]. split; [assumption|]. split.
      + intros Hne. specialize (Hle Hne). lia.
      + intros HL. unfold classified_gst. rewrite HL. reflexivity. }
  assert (HInv : forall a s s', In a l -> Inv s -> step a s = Some s' -> Inv s').
  { intros a s s' Ha Hi Hstep c Hc Hg.
    destruct (step_facts a s Hstep) as (Hother & Hgid & _ & Hfree & _).
    destruct (Z.eq_dec (cell_index pt c) (cell_index pt a)) as [Heq|Hne].
    - rewrite Heq in *. rewrite Hgid in Hg.
      destruct (Hfree Hg) as (_ & Hl & Hs). rewrite Hl, Hs. now apply (Hi a).
    - rewrite Hother in * by exact Hne. now apply Hi. }
  apply (foldM_visited Inv P step l) with (s := nodes); auto.
  intros a b s s' Ha Hb Hi Hp Hstep.
  destruct (Z.eq_dec (cell_index pt b) (cell_index pt a)) as [Heq|Hne].
  - unfold P. rewrite Heq. now apply (Hest a s s').
  - destruct (step_facts a s Hstep) as (Hother & _).
    unfold P in *. rewrite Hother by exact Hne. exact Hp.
Qed.

End Classification_phase.

Section Domain_phases.

Context {E : Extern}.

Lemma InitializeGeometryDomain_cells (space : Space) :
  InitializeGeometryDomain space
  = set_node
      (fold_left
         (fun s c =>
            on_cell (InitializeGeometryDomain_node (part space) (geo space)) c s)
         (interior_cells (part space)) (node space))
      space.
Proof. unfold InitializeGeometryDomain. now rewrite sweep_cells. Qed.

Lemma IdentifyInterfacialNode_cells (fuel : nat) (space : Space) (model : Model) :
  IdentifyInterfacialNode fuel space model
  = match
      foldM (on_cell (IdentifyInterfacialNode_node fuel (part space) model))
        (interior_cells (part space)) (node space)
    with
    | Some nodes => Some (set_node nodes space)
    | None => None
    end.
Proof. unfold IdentifyInterfacialNode. now rewrite sweepM_cells. Qed.

(** The stores between the phases of a call. *)
Lemma ComputeGeometryDomain_phases (fuel : nat) (space : Space) (model : Model) :
  let pt := part space in
  let g := geo space in
  let nodesA :=
    fold_left (fun s c => on_cell (InitializeGeometryDomain_node pt g) c s)
      (interior_cells pt) (node space) in
  let nodesB := fold_left (visit pt g) (visits pt g) nodesA in
  ComputeGeometryDomain fuel space model
  = match
      foldM (on_cell (IdentifyInterfacialNode_node fuel pt model))
        (interior_cells pt) nodesB
    with
    | Some nodes => Some (mkSpace pt nodes g)
    | None => None
    end.
Proof.
  intros pt g nodesA nodesB. unfold ComputeGeometryDomain.
  rewrite IdentifyInterfacialNode_cells, IdentifyGeometryNode_visits,
    InitializeGeometryDomain_cells.
  reflexivity.
Qed.

(** The reset of a store in which every owned interior node belongs to a
    stationary polyhedron and every unowned interior node has no marker:
    a node is as it was, but for the markers of an owned node, which may
    have been cleared. *)
Lemma reset_stationary (pt : Partition) (g : Geometry) (nodes : Nodes) :
  (forall c, In c (interior_cells pt) ->
     let nd := nodes (cell_index pt c) in
     0 <= gid nd /\ (gid nd = 0 -> lid nd = 0 /\ gst nd = 0) /\
     (0 < gid nd -> poly_state (poly g (gid nd - 1)) = 1)) ->
  forall x,
    let nd' :=
      fold_left (fun s c => on_cell (InitializeGeometryDomain_node pt g) c s)
        (interior_cells pt) nodes x in
    nd' = nodes x \/
    (gid (nodes x) <> 0 /\ nd' = set_gst 0 (set_lid 0 (nodes x))).
Proof.
  intros Hcells x. cbv zeta.
  apply (fold_left_inv
    (fun s => s x = nodes x \/
              (gid (nodes x) <> 0 /\ s x = set_gst 0 (set_lid 0 (nodes x)))));
    [|now left].
  intros c s Hc Hs.
  destruct (Z.eq_dec x (cell_index pt c)) as [->|Hx];
    [|now rewrite reset_other by exact Hx].
  destruct (Hcells c Hc) as (Hpos & Hfree & Hstat).
  assert (Hg : gid (s (cell_index pt c)) = gid (nodes (cell_index pt c)))
    by (destruct Hs as [->|[_ ->]]; reflexivity).
  destruct c as [[k j] i]. cbn [on_cell cell_index] in *.
  destruct (Z.eq_dec (gid (nodes (node_index pt k j i))) 0) as [H0|H0].
  - left. destruct Hs as [Hs|[Hne _]]; [|contradiction].
    rewrite InitializeGeometryDomain_node_unowned by lia.
    rewrite Hs. destruct (Hfree H0) as [Hl Hst].
    apply Node_eq; cbn; congruence.
  - right. split; [exact H0|].
    rewrite InitializeGeometryDomain_node_stationary;
      [| lia | rewrite Hg; apply Hstat; lia].
    destruct Hs as [->|[_ ->]]; reflexivity.
Qed.

End Domain_phases.

Section Domain_claims.

Context {E : Extern}.

(** The store before the classification phase of a call: an unowned interior
    node has no marker and no negative geometry identifier is left inside. *)
Lemma before_classification (space : Space) (c : Z * Z * Z) :
  let pt := part space in
  let g := geo space in
  let nodesA :=
    fold_left (fun s c => on_cell (InitializeGeometryDomain_node pt g) c s)
      (interior_cells pt) (node space) in
  let nodesB := fold_left (visit pt g) (visits pt g) nodesA in
  In c (interior_cells pt) ->
  0 <= gid (nodesB (cell_index pt c)) /\
  (gid (nodesB (cell_index pt c)) = 0 ->
   lid (nodesB (cell_index pt c)) = 0 /\ gst (nodesB (cell_index pt c)) = 0).
Proof.
  intros pt g nodesA nodesB Hc.
  destruct (reset_visited pt g (interior_cells pt) (node space) c Hc) as (Hpos & Hfree).
  fold nodesA in Hpos, Hfree.
  destruct (visits_markers pt g (visits pt g) nodesA (cell_index pt c))
    as (Hl & Hs & Hown).
  fold nodesB in Hl, Hs, Hown. split.
  - apply visits_nonnegative; [|exact Hpos].
    intros [n c'] Hv. apply In_visits in Hv. cbn [fst]. lia.
  - intros H0. rewrite Hl, Hs. apply Hfree.
    destruct (Z.eq_dec (gid (nodesA (cell_index pt c))) 0) as [HA|HA]; [exact HA|].
    rewrite <- (Hown HA). exact H0.
Qed.

(** C10. After a call of [ComputeGeometryDomain], which ends with the
    classification phase, every interior node has its interfacial layer and
    its ghost layer in [0 .. gl], and a node with a ghost layer has an
    interfacial layer, which is not deeper than the ghost layer, whatever
    the layer separators are.  The number of layers [gl] is not negative. *)
Theorem ComputeGeometryDomain_layers (fuel : nat) (space space' : Space)
  (model : Model) (k j i : Z) :
  let pt := part space in
  let nd := node space' (node_index pt k j i) in
  0 <= part_gl pt ->
  ComputeGeometryDomain fuel space model = Some space' ->
  nMin pt AZ <= k < nMax pt AZ ->
  nMin pt AY <= j < nMax pt AY ->
  nMin pt AX <= i < nMax pt AX ->
  0 <= lid nd <= part_gl pt /\ 0 <= gst nd <= part_gl pt /\
  (gst nd <> 0 -> lid nd <> 0 /\ lid nd <= gst nd).
Proof.
  intros pt nd Hgl Hrun Hk Hj Hi.
  rewrite ComputeGeometryDomain_phases in Hrun. fold pt in Hrun.
  destruct (foldM _ _ _) as [nodes'|] eqn:Hphase; [|discriminate].
  inversion Hrun; subst space'. clear Hrun. cbn [node] in nd.
  assert (Hc : In (k, j, i) (interior_cells pt))
    by (apply In_box_cells; auto).
  destruct (classification_visited pt fuel model (interior_cells pt) _ Hgl
              (fun c Hc => proj2 (before_classification space c Hc)) Hphase
              (k, j, i) Hc) as ((Hl & Hs & Hle & _) & _).
  cbn [cell_index] in Hl, Hs, Hle. fold nd in Hl, Hs, Hle. auto.
Qed.

(** A second call with stationary polyhedrons only returns and gives back
    the store of the first call. *)
Lemma ComputeGeometryDomain_again (fuel fuel' : nat) (space space1 : Space)
  (model : Model) :
  (forall n, 0 <= n < totN (geo space) -> poly_state (poly (geo space) n) = 1) ->
  (forall x, gid (node space x) <= totN (geo space)) ->
  ComputeGeometryDomain fuel space model = Some space1 ->
  exists space2,
    ComputeGeometryDomain fuel' space1 model = Some space2 /\
    (forall x, node space2 x = node space1 x) /\
    (forall x,
       gid (node (InitializeGeometryDomain space1) x) = gid (node space1 x) /\
       fid (node (InitializeGeometryDomain space1) x) = fid (node space1 x) /\
       U (node (InitializeGeometryDomain space1) x) = U (node space1 x)).
Proof.
  intros Hstat Hvalid Hrun.
  rewrite ComputeGeometryDomain_phases in Hrun.
  rewrite (visits_stationary (part space) (geo space) Hstat) in Hrun.
  cbn [fold_left] in Hrun.
  set (pt := part space) in *. set (g := geo space) in *.
  set (cells := interior_cells pt) in *.
  set (reset := fun s c => on_cell (InitializeGeometryDomain_node pt g) c s) in *.
  set (nodesA := fold_left reset cells (node space)) in *.
  destruct (foldM _ cells nodesA) as [nodes1|] eqn:Hphase; [|discriminate].
  inversion Hrun; subst space1. clear Hrun.
  (* the store of the first call *)
  pose proof (classification_gid pt fuel model cells nodesA Hphase) as Hgid1.
  assert (HA : forall c, In c cells ->
            0 <= gid (nodesA (cell_index pt c)) /\
            (gid (nodesA (cell_index pt c)) = 0 ->
             lid (nodesA (cell_index pt c)) = 0 /\ gst (nodesA (cell_index pt c)) = 0))
    by (intros c Hc; apply (reset_visited pt g cells (node space) c Hc)).
  assert (Hgl : forall c, In c cells ->
            gid (nodes1 (cell_index pt c)) = 0 ->
            fid (nodes1 (cell_index pt c)) = NONE /\
            lid (nodes1 (cell_index pt c)) = 0 /\ gst (nodes1 (cell_index pt c)) = 0).
  { intros c Hc H0.
    assert (Hfacts : forall a s s',
              on_cell (IdentifyInterfacialNode_node fuel pt model) a s = Some s' ->
              (forall y, gid (s' y) = gid (s y)) /\
              (forall y, gid (s y) = 0 -> lid (s' y) = lid (s y) /\ gst (s' y) = gst (s y)) /\
              (forall y, gid (s y) = 0 -> fid (s y) = NONE -> fid (s' y) = NONE) /\
              (gid (s (cell_index pt a)) = 0 -> fid (s' (cell_index pt a)) = NONE)).
    { intros a s s' Hstep.
      destruct (step_facts pt fuel model a s Hstep) as (Hother & Hg & _ & Hfree & _).
      assert (Hy : forall y, gid (s' y) = gid (s y)).
      { intros y. destruct (Z.eq_dec y (cell_index pt a)) as [->|Hne];
          [exact Hg | now rewrite Hother]. }
      split; [exact Hy|]. split; [|split].
      - intros y Hy0. destruct (Z.eq_dec y (cell_index pt a)) as [->|Hne].
        + destruct (Hfree Hy0) as (_ & Hl & Hs). auto.
        + now rewrite Hother.
      - intros y Hy0 Hf. destruct (Z.eq_dec y (cell_index pt a)) as [->|Hne].
        + now destruct (Hfree Hy0).
        + now rewrite Hother.
      - intros Ha0. now destruct (Hfree Ha0). }
    set (y := cell_index pt c) in *.
    assert (HyA : gid (nodesA y) = 0) by (rewrite <- Hgid1; exact H0).
    destruct (HA c Hc) as (_ & Hfree). fold y in Hfree. destruct (Hfree HyA) as (Hl0 & Hs0).
    assert (Hmark : lid (nodes1 y) = 0 /\ gst (nodes1 y) = 0).
    { apply (foldM_inv (fun s => gid (s y) = 0 /\ lid (s y) = 0 /\ gst (s y) = 0)
               (on_cell (IdentifyInterfacialNode_node fuel pt model)) cells)
        with (s := nodesA) in Hphase; [tauto| |tauto].
      intros a s s' _ (Hg0 & Hl & Hs) Hstep.
      destruct (Hfacts a s s' Hstep) as (Hg & Hm & _).
      destruct (Hm y Hg0) as (Hl' & Hs'). rewrite Hg, Hl', Hs'. auto. }
    split; [|exact Hmark].
    apply (foldM_visited (fun _ => True)
             (fun a s => cell_index pt a = y -> gid (s y) = 0 -> fid (s y) = NONE)
             (on_cell (IdentifyInterfacialNode_node fuel pt model)) cells)
      with (s := nodesA) (a := c) in Hphase; auto.
    - intros a s s' _ _ Hstep Hay Hg0.
      destruct (Hfacts a s s' Hstep) as (Hg & _ & _ & Hnone).
      rewrite <- Hay. apply Hnone. rewrite Hay, <- Hg. exact Hg0.
    - intros a b s s' _ _ _ Hb Hstep Hby Hg0.
      destruct (Hfacts a s s' Hstep) as (Hg & _ & Hkeep & _).
      rewrite Hg in Hg0. apply Hkeep; auto. }
  assert (Hcells1 : forall c, In c cells ->
            let nd := nodes1 (cell_index pt c) in
            0 <= gid nd /\ (gid nd = 0 -> lid nd = 0 /\ gst nd = 0) /\
            (0 < gid nd -> poly_state (poly g (gid nd - 1)) = 1)).
  { intros c Hc. cbv zeta. rewrite !Hgid1.
    destruct (HA c Hc) as (Hpos & _). split; [exact Hpos|]. split.
    - intros H0. rewrite <- Hgid1 in H0. now destruct (Hgl c Hc H0).
    - intros Hp. apply Hstat.
      destruct (reset_fields pt g cells (node space) (cell_index pt c))
        as (_ & _ & [Hsame|Hzero]).
      + fold reset in Hsame. fold nodesA in Hsame.
        specialize (Hvalid (cell_index pt c)). fold g in Hvalid. lia.
      + fold reset in Hzero. fold nodesA in Hzero. lia. }
  (* the second call *)
  rewrite ComputeGeometryDomain_phases. cbn [part geo node].
  rewrite (visits_stationary pt g Hstat). cbn [fold_left].
  fold cells. fold reset.
  set (nodesA' := fold_left reset cells nodes1).
  pose proof (reset_stationary pt g nodes1 Hcells1) as HJ.
  cbv zeta in HJ. fold cells reset nodesA' in HJ.
  assert (HgidA' : forall y, gid (nodesA' y) = gid (nodes1 y))
    by (intros y; destruct (HJ y) as [->|[_ ->]]; reflexivity).
  destruct (classification_normal pt fuel' model cells nodesA') as (nodes2 & Hphase2 & Hkeep2).
  { intros c Hc H0. rewrite HgidA' in H0.
    destruct (HJ (cell_index pt c)) as [->|[Hne _]]; [|contradiction].
    now destruct (Hgl c Hc H0). }
  rewrite Hphase2. eexists. split; [reflexivity|]. cbn [node]. split.
  - intros x. destruct (Z.eq_dec (gid (nodes1 x)) 0) as [H0|H0].
    + rewrite Hkeep2 by (rewrite HgidA'; exact H0).
      destruct (HJ x) as [->|[Hne _]]; [reflexivity | contradiction].
    + rewrite (classification_owned pt fuel' model cells nodesA' x Hphase2)
        by (rewrite HgidA'; exact H0).
      rewrite (classification_owned pt fuel model cells nodesA x Hphase)
        by (rewrite <- Hgid1; exact H0).
      destruct (find _ (rev cells)) as [c|] eqn:Hfind.
      * assert (HgAA : forall y, gid (nodesA' y) = gid (nodesA y))
          by (intros y; now rewrite HgidA', Hgid1).
        rewrite (cell_lid_gid pt nodesA nodesA' c HgAA),
          (cell_gst_gid pt nodesA nodesA' c HgAA).
        pose proof (classification_owned pt fuel model cells nodesA x Hphase) as H1.
        rewrite Hfind in H1.
        destruct (HJ x) as [->|[_ ->]];
          rewrite H1 by (rewrite <- Hgid1; exact H0); reflexivity.
      * assert (Hunv : forall c, In c cells -> cell_index pt c <> x).
        { intros c Hc Hx. apply in_rev in Hc.
          pose proof (find_none _ _ Hfind c Hc) as Hn. cbv beta in Hn.
          apply Z.eqb_neq in Hn. contradiction. }
        assert (Hx : nodesA' x = nodes1 x)
          by (apply (reset_unvisited pt g cells nodes1 Hunv)).
        rewrite Hx.
        pose proof (classification_owned pt fuel model cells nodesA x Hphase) as H1.
        rewrite Hfind in H1. apply H1. rewrite <- Hgid1. exact H0.
  - intros x. rewrite InitializeGeometryDomain_cells. cbn [node set_node part geo].
    fold cells reset nodesA'.
    destruct (HJ x) as [->|[_ ->]]; cbn; auto.
Qed.

(** C8. When every polyhedron is stationary, a call of
    [ComputeGeometryDomain] that follows another one returns, and every node
    that was owned and not interfacial is exactly as before, in all its
    fields: the reset keeps the geometry identifier, the face identifier and
    the state of the nodes, the ownership phase changes nothing, and the
    classification gives an interior node again the layers zero.  No
    geometry identifier of the first store exceeds the number of
    polyhedrons. *)
Theorem ComputeGeometryDomain_stationary (fuel fuel' : nat)
  (space space1 : Space) (model : Model) :
  (forall n, 0 <= n < totN (geo space) -> poly_state (poly (geo space) n) = 1) ->
  (forall x, gid (node space x) <= totN (geo space)) ->
  ComputeGeometryDomain fuel space model = Some space1 ->
  exists space2,
    ComputeGeometryDomain fuel' space1 model = Some space2 /\
    (forall x, gid (node space1 x) <> 0 -> lid (node space1 x) = 0 ->
       node space2 x = node space1 x) /\
    (forall x,
       gid (node (InitializeGeometryDomain space1) x) = gid (node space1 x) /\
       fid (node (InitializeGeometryDomain space1) x) = fid (node space1 x) /\
       U (node (InitializeGeometryDomain space1) x) = U (node space1 x)) /\
    node (IdentifyGeometryNode (InitializeGeometryDomain space1))
    = node (InitializeGeometryDomain space1) /\
    (forall k j i,
       nMin (part space) AZ <= k < nMax (part space) AZ ->
       nMin (part space) AY <= j < nMax (part space) AY ->
       nMin (part space) AX <= i < nMax (part space) AX ->
       let x := node_index (part space) k j i in
       gid (node space1 x) <> 0 -> lid (node space1 x) = 0 ->
       lid (node space2 x) = 0 /\ gst (node space2 x) = 0).
Proof.
  intros Hstat Hvalid Hrun.
  destruct (ComputeGeometryDomain_again fuel fuel' space model Hstat Hvalid Hrun)
    as (space2 & Hrun2 & Hsame & Hreset).
  exists space2. split; [exact Hrun2|]. split; [|split; [exact Hreset|split]].
  - intros x _ _. apply Hsame.
  - rewrite IdentifyGeometryNode_visits.
    assert (Hparts : part space1 = part space /\ geo space1 = geo space).
    { rewrite ComputeGeometryDomain_phases in Hrun.
      destruct (foldM _ _ _); [|discriminate]. inversion Hrun. auto. }
    destruct Hparts as [Hp Hg].
    rewrite InitializeGeometryDomain_cells. cbn [part geo node set_node].
    rewrite Hg, visits_stationary by exact Hstat. reflexivity.
  - intros k j i Hk Hj Hi x Hown Hlid. rewrite Hsame. split; [exact Hlid|].
    rewrite ComputeGeometryDomain_phases in Hrun.
    destruct (foldM _ _ _) as [nodes1|] eqn:Hphase; [|discriminate].
    inversion Hrun; subst space1. clear Hrun. cbn [node] in *.
    assert (Hx : gid (fold_left (visit (part space) (geo space))
                        (visits (part space) (geo space))
                        (fold_left
                           (fun s c =>
                              on_cell (InitializeGeometryDomain_node (part space)
                                         (geo space)) c s)
                           (interior_cells (part space)) (node space)) x) <> 0)
      by (rewrite <- (classification_gid _ _ _ _ _ Hphase); exact Hown).
    rewrite (classification_owned _ _ _ _ _ x Hphase Hx) in Hlid |- *.
    destruct (find _ (rev (interior_cells (part space)))) as [c|] eqn:Hfind.
    + cbn [lid gst set_gst set_lid] in Hlid |- *.
      destruct c as [[k' j'] i']. cbn [cell_lid cell_gst] in Hlid |- *.
      unfold classified_gst. rewrite Hlid. reflexivity.
    + exfalso.
      assert (Hc : In (k, j, i) (rev (interior_cells (part space))))
        by (apply -> in_rev; apply In_box_cells; auto).
      pose proof (find_none _ _ Hfind _ Hc) as Hn. cbv beta in Hn.
      cbn [cell_index] in Hn. fold x in Hn. rewrite Z.eqb_refl in Hn. discriminate.
Qed.

End Domain_claims.

Lemma unit_classified_returns :
  ComputeGeometryDomain (E := refExtern) 0 unit_space sample_model
  = Some unit_classified.
Proof. vm_compute. reflexivity. Qed.

Lemma ComputeGeometryDomain_layers_witness :
  0 <= part_gl (part unit_space) /\
  ComputeGeometryDomain (E := refExtern) 0 unit_space sample_model
  = Some unit_classified /\
  (nMin (part unit_space) AZ <= 3 < nMax (part unit_space) AZ /\
   nMin (part unit_space) AY <= 3 < nMax (part unit_space) AY /\
   nMin (part unit_space) AX <= 4 < nMax (part unit_space) AX) /\
  (0 <= lid (node unit_classified idx334) <= 2 /\
   0 <= gst (node unit_classified idx334) <= 2 /\
   (gst (node unit_classified idx334) <> 0 ->
    lid (node unit_classified idx334) <> 0 /\
    lid (node unit_classified idx334) <= gst (node unit_classified idx334))).
Proof.
  assert (Hgl : 0 <= part_gl (part unit_space)) by (cbn; lia).
  assert (Hk : nMin (part unit_space) AZ <= 3 < nMax (part unit_space) AZ)
    by (cbn; lia).
  assert (Hj : nMin (part unit_space) AY <= 3 < nMax (part unit_space) AY)
    by (cbn; lia).
  assert (Hi : nMin (part unit_space) AX <= 4 < nMax (part unit_space) AX)
    by (cbn; lia).
  split; [exact Hgl|]. split; [exact unit_classified_returns|].
  split; [auto|].
  exact (@ComputeGeometryDomain_layers refExtern 0 unit_space unit_classified
           sample_model 3 3 4 Hgl unit_classified_returns Hk Hj Hi).
Defined.

Lemma ball_classified_returns :
  ComputeGeometryDomain (E := refExtern) 0 ball_space sample_model
  = Some ball_classified.
Proof. vm_compute. reflexivity. Qed.

Lemma ball_stationary (n : Z) :
  0 <= n < totN (geo ball_space) -> poly_state (poly (geo ball_space) n) = 1.
Proof. intros _. reflexivity. Qed.

Lemma ball_valid (x : Z) : gid (node ball_space x) <= totN (geo ball_space).
Proof.
  cbn [node geo ball_space totN geo_fixed]. unfold ball_nodes.
  destruct (existsb _ _); [cbn; lia|]. unfold fluid_nodes.
  destruct (sample_interior x); cbn; lia.
Qed.

(** Node (3, 3, 3) lies deep inside the sphere at rest. *)
Lemma ComputeGeometryDomain_stationary_witness :
  (forall n, 0 <= n < totN (geo ball_space) ->
             poly_state (poly (geo ball_space) n) = 1) /\
  (forall x, gid (node ball_space x) <= totN (geo ball_space)) /\
  ComputeGeometryDomain (E := refExtern) 0 ball_space sample_model
  = Some ball_classified /\
  gid (node ball_classified idx333) = 1 /\
  lid (node ball_classified idx333) = 0 /\
  exists space2,
    ComputeGeometryDomain (E := refExtern) 3 ball_classified sample_model
    = Some space2 /\
    node space2 idx333 = node ball_classified idx333.
Proof.
  split; [exact ball_stationary|]. split; [exact ball_valid|].
  split; [exact ball_classified_returns|].
  assert (Hg : gid (node ball_classified idx333) = 1) by (vm_compute; reflexivity).
  assert (Hl : lid (node ball_classified idx333) = 0) by (vm_compute; reflexivity).
  split; [exact Hg|]. split; [exact Hl|].
  destruct (@ComputeGeometryDomain_stationary refExtern 0 3 ball_space
              ball_classified sample_model ball_stationary ball_valid
              ball_classified_returns) as (space2 & Hrun & Hsame & _).
  exists space2. split; [exact Hrun|].
  apply Hsame; [rewrite Hg; discriminate | exact Hl].
Defined.

(** ** The ghost layer of an owned node *)

Section Ghost_layer_claim.

Context {E : Extern}.

(** C2 (amended).  For a node that is owned, [IdentifyInterfacialNode]
    returns from the node, stores the result of [InterfacialState] in
    [lid], and, when that is not zero, stores in [gst] the layer of the
    nearest valid node of the search path whose geometry identifier is zero,
    a node of the fluid: [gst] is [r] exactly when the first such position
    lies before the separator of layer [r] and not before that of a smaller
    layer, and it is zero when the path has no such node.  When [lid] is
    zero, [gst] is zero.  When the phase returns, an interior node that
    shares its index with no other interior node is left as its visit made
    it. *)
Theorem IdentifyInterfacialNode_ghost_layer (fuel : nat) (space : Space)
  (model : Model) (k j i : Z) :
  let pt := part space in
  let nodes := node space in
  let idx := node_index pt k j i in
  let fluid := path_same pt nodes k j i 0 in
  gid (nodes idx) <> 0 ->
  exists node',
    IdentifyInterfacialNode_node fuel pt model k j i nodes = Some node' /\
    lid (node' idx)
    = InterfacialState k j i (gid (nodes idx)) (part_pathSep pt 0)
        (part_path pt) nodes pt /\
    (lid (node' idx) = 0 -> gst (node' idx) = 0) /\
    (lid (node' idx) <> 0 ->
       (forall r, r <> 0 ->
          (gst (node' idx) = r <->
           exists n,
             (0 <= n < part_pathSep pt 0 /\ fluid n = true /\
              forall m, 0 <= m < n -> fluid m = false) /\
             (1 <= r <= part_gl pt /\ n < part_pathSep pt r /\
              forall r', 1 <= r' < r -> part_pathSep pt r' <= n))) /\
       ((forall n, 0 <= n < part_pathSep pt 0 -> fluid n = false) ->
        gst (node' idx) = 0)) /\
    (forall space',
       IdentifyInterfacialNode fuel space model = Some space' ->
       In (k, j, i) (interior_cells pt) ->
       (forall c, In c (interior_cells pt) -> cell_index pt c = idx -> c = (k, j, i)) ->
       node space' idx = node' idx).
Proof.
  intros pt nodes idx fluid Hg. exists (classify_node pt k j i nodes).
  split; [now apply IdentifyInterfacialNode_node_owned|].
  destruct (classify_node_ghost_layer pt nodes k j i Hg) as (Hlid & Hzero & Hlayer).
  split; [exact Hlid|]. split; [exact Hzero|]. split; [exact Hlayer|].
  intros space' Hphase Hin Hinj.
  rewrite IdentifyInterfacialNode_cells in Hphase. fold pt nodes in Hphase.
  destruct (foldM _ _ _) as [nodes'|] eqn:Hrun; [|discriminate].
  inversion Hphase; subst space'. clear Hphase. cbn [node set_node].
  rewrite (classification_owned pt fuel model (interior_cells pt) nodes idx Hrun Hg).
  destruct (find _ (rev (interior_cells pt))) as [c|] eqn:Hfind.
  - apply find_some in Hfind as [Hc Hx]. apply in_rev in Hc.
    apply Z.eqb_eq in Hx. rewrite (Hinj c Hc Hx).
    unfold idx. now rewrite classify_node_at.
  - exfalso. apply in_rev in Hin.
    pose proof (find_none _ _ Hfind _ Hin) as Hn. cbv beta in Hn.
    cbn [cell_index] in Hn. fold idx in Hn. rewrite Z.eqb_refl in Hn. discriminate.
Qed.

End Ghost_layer_claim.

Lemma IdentifyInterfacialNode_ghost_layer_witness :
  gid (node (mkSpace sample_part speck_nodes geo_unit)
         (node_index (E := refExtern) sample_part 3 3 3)) <> 0 /\
  exists node',
    IdentifyInterfacialNode_node (E := refExtern) 0 sample_part sample_model 3 3 3
      speck_nodes = Some node' /\
    lid (node' idx333) = 1 /\
    (lid (node' idx333) = 0 -> gst (node' idx333) = 0).
Proof.
  assert (Hg : gid (node (mkSpace sample_part speck_nodes geo_unit)
                      (node_index (E := refExtern) sample_part 3 3 3)) <> 0)
    by (vm_compute; discriminate).
  split; [exact Hg|].
  destruct (@IdentifyInterfacialNode_ghost_layer refExtern 0
              (mkSpace sample_part speck_nodes geo_unit) sample_model 3 3 3 Hg)
    as (node' & Hrun & Hlid & H0 & _).
  exists node'. split; [exact Hrun|]. split; [|exact H0].
  refine (eq_trans Hlid _). vm_compute. reflexivity.
Defined.

(** Around the single owned node (3, 3, 3) every neighbour is fluid: the node
    becomes a ghost node of layer 1 although the path has no node of its own
    body.  Among the nodes of body 2, node (3, 3, 3) of body 1 has its fellow
    (3, 3, 4) in layer 1 and no fluid neighbour: its ghost layer is 0. *)
Lemma ghost_layer_ignores_same_owner :
  (exists node',
     IdentifyInterfacialNode_node (E := refExtern) 0 sample_part sample_model 3 3 3
       speck_nodes = Some node' /\
     gid (node' idx333) = 1 /\ lid (node' idx333) = 1 /\ gst (node' idx333) = 1 /\
     first_layer sample_part (path_same (E := refExtern) sample_part node' 3 3 3 1) = 0) /\
  (exists node',
     IdentifyInterfacialNode_node (E := refExtern) 0 sample_part sample_model 3 3 3
       packed_nodes = Some node' /\
     gid (node' idx333) = 1 /\ lid (node' idx333) = 1 /\ gst (node' idx333) = 0 /\
     first_layer sample_part (path_same (E := refExtern) sample_part node' 3 3 3 1) = 1).
Proof.
  split.
  - exists (classify_node (E := refExtern) sample_part 3 3 3 speck_nodes).
    split; [apply IdentifyInterfacialNode_node_owned; vm_compute; discriminate|].
    repeat split; vm_compute; reflexivity.
  - exists (classify_node (E := refExtern) sample_part 3 3 3 packed_nodes).
    split; [apply IdentifyInterfacialNode_node_owned; vm_compute; discriminate|].
    repeat split; vm_compute; reflexivity.
Qed.


(** ** Further properties of the interpolation *)


Section Stencil_extra.

Context {E : Extern}.
Variables (tn : Z) (n : IntVec) (p : RealVec) (type g : Z).
Variables (part : Partition) (node : Nodes) (model : Model).

Local Abbreviation acc' := (accumulate tn n p part node model).

(** The loop returns the sums over the first cube that has a donor, and it
    does so exactly when the fuel covers the expansions up to that cube. *)
Lemma InverseDistanceWeighting_loop_exact (r r' : Z) (a : Accum) (fuel : nat) :
  tally a = 0 -> r <= r' ->
  donors n type g part node r' <> [] ->
  (forall r'', r <= r'' < r' -> donors n type g part node r'' = []) ->
  InverseDistanceWeighting_loop fuel tn n p type g part node model r a
  = if (Z.to_nat (r' - r) + 2 <=? fuel)%nat
    then Some (fold_left acc' (donors n type g part node r') a)
    else None.
Proof.
  intros Ht Hr Hne Hmin.
  remember (Z.to_nat (r' - r)) as m eqn:Hm.
  revert r a fuel Ht Hr Hm Hmin. induction m as [|m IH]; intros r a fuel Ht Hr Hm Hmin.
  - assert (r' = r) by lia. subst r'.
    destruct fuel as [|fuel]; [reflexivity|].
    rewrite InverseDistanceWeighting_loop_step by exact Ht.
    destruct fuel as [|fuel]; [reflexivity|].
    destruct (donors n type g part node r) as [|d ds] eqn:Hd; [congruence|].
    rewrite InverseDistanceWeighting_loop_stop by now apply accumulate_tally_cons.
    reflexivity.
  - destruct fuel as [|fuel]; [reflexivity|].
    rewrite InverseDistanceWeighting_loop_step by exact Ht.
    rewrite (Hmin r) by lia. cbn [fold_left].
    rewrite (IH (r + 1) a fuel Ht); [reflexivity | lia | lia |].
    intros r'' Hr''. apply Hmin. lia.
Qed.

(** X1. The search of [InverseDistanceWeighting] uses the nearest stencil:
    when [r] is the first half width from [h] on whose cube holds a donor,
    the function returns the weight sum and the weighted state sums of the
    donors of that cube alone, after [r - h] expansions; with fewer tests of
    the loop condition than that it is still running. *)
Theorem InverseDistanceWeighting_nearest (h r : Z) (fuel : nat) :
  h <= r ->
  donors n type g part node r <> [] ->
  (forall r', h <= r' < r -> donors n type g part node r' = []) ->
  let a :=
    fold_left (accumulate tn n p part node model) (donors n type g part node r)
      (mkAccum 0 0 (fun _ => 0%Q)) in
  InverseDistanceWeighting fuel tn n p h type g part node model
  = if (Z.to_nat (r - h) + 2 <=? fuel)%nat then Some (weightSum a, Uo_acc a)
    else None.
Proof.
  intros Hr Hne Hmin a. unfold InverseDistanceWeighting.
  rewrite (@InverseDistanceWeighting_loop_exact h r (mkAccum 0 0 (fun _ => 0%Q)) fuel
             eq_refl Hr Hne Hmin).
  destruct (Z.to_nat (r - h) + 2 <=? fuel)%nat; reflexivity.
Qed.

(** X2. [InverseDistanceWeighting] returns, for a large enough bound on the
    number of expansions, exactly when some cube of half width [r >= h]
    around the centre node holds a node that passes its filter. *)
Theorem InverseDistanceWeighting_returns_iff (h : Z) :
  (exists fuel res,
     InverseDistanceWeighting fuel tn n p h type g part node model = Some res)
  <-> exists r, h <= r /\ donors n type g part node r <> [].
Proof.
  split.
  - intros (fuel & res & Hrun). unfold InverseDistanceWeighting in Hrun.
    destruct (InverseDistanceWeighting_loop _ _ _ _ _ _ _ _ _ _ _) as [a'|] eqn:Hloop;
      [|discriminate].
    apply InverseDistanceWeighting_loop_returns in Hloop; [|reflexivity].
    destruct Hloop as (r & Hr & _ & Hne & _). eauto.
  - intros (r & Hr & Hne).
    destruct (@InverseDistanceWeighting_finds E tn n p type g part node model h r Hr Hne)
      as [res Hres].
    eauto.
Qed.


(** A candidate is tested on the node store only at a legal index. *)
Lemma InverseDistanceWeighting_node_legal (node' : Nodes) (kh jh ih : Z) (a : Accum) :
  (forall x, 0 <= x < part_n part AX * part_n part AY * part_n part AZ ->
             node' x = node x) ->
  InverseDistanceWeighting_node tn n p type g part node' model kh jh ih a
  = InverseDistanceWeighting_node tn n p type g part node model kh jh ih a.
Proof.
  intros Hsame. unfold InverseDistanceWeighting_node. cbv zeta.
  set (idx := IndexNode (n AZ + kh) (n AY + jh) (n AX + ih) (part_n part AY)
                (part_n part AX)).
  destruct ((0 >? idx) || (part_n part AX * part_n part AY * part_n part AZ <=? idx))
    eqn:Hlegal; [reflexivity|].
  apply orb_false_iff in Hlegal as [H1 H2].
  rewrite Hsame by lia. reflexivity.
Qed.

(** X4. [InverseDistanceWeighting] reads the node store at legal linear
    indices only: two stores that agree on the indices from [0] to
    [n[X] * n[Y] * n[Z] - 1] give the same result, whatever lies outside. *)
Theorem InverseDistanceWeighting_legal (node' : Nodes) (fuel : nat) (h : Z) :
  (forall x, 0 <= x < part_n part AX * part_n part AY * part_n part AZ ->
             node' x = node x) ->
  InverseDistanceWeighting fuel tn n p h type g part node' model
  = InverseDistanceWeighting fuel tn n p h type g part node model.
Proof.
  intros Hsame. unfold InverseDistanceWeighting.
  generalize (mkAccum 0 0 (fun _ => 0%Q)). generalize h.
  induction fuel as [|fuel IH]; intros r a; [reflexivity|].
  cbn [InverseDistanceWeighting_loop].
  destruct (0 =? tally a); [|reflexivity].
  replace (InverseDistanceWeighting_cube tn n p type g part node' model r a)
    with (InverseDistanceWeighting_cube tn n p type g part node model r a).
  - assert (H := IH (r + 1)
                   (InverseDistanceWeighting_cube tn n p type g part node model r a)).
    destruct (InverseDistanceWeighting_loop fuel tn n p type g part node' model _ _),
             (InverseDistanceWeighting_loop fuel tn n p type g part node model _ _);
      congruence.
  - unfold InverseDistanceWeighting_cube. rewrite !sweep_cells.
    apply fold_left_ext. intros s [[kh jh] ih]. unfold on_cell.
    symmetry. now apply InverseDistanceWeighting_node_legal.
Qed.


End Stencil_extra.

(** ** Further properties of the boundary treatment of one node *)

Section Image_extra.

Context {E : Extern}.


Variables (fuel : nat) (tn : Z) (n : IntVec) (p : RealVec) (h type g : Z).
Variables (body : Polyhedron) (pt : Partition) (nodes : Nodes) (model : Model).
Variables (pO N : RealVec) (UoO : RealArr).

(** X6. On a no-slip wall ([cf] positive) the boundary state of
    [FlowReconstruction] carries the velocity [V + W x (pO - O)] of the solid
    surface, whatever the flow is; for a body at rest it is zero.  Entry 0 of
    [UoO] is never written. *)
Theorem FlowReconstruction_noslip (ws : Q) (UoI : RealArr) :
  InverseDistanceWeighting fuel tn n p h type g pt nodes model = Some (ws, UoI) ->
  (0 < poly_cf body)%Q ->
  exists UoO' UoI',
    FlowReconstruction fuel tn n p h type g body pt nodes model pO N UoO
    = Some (UoO', UoI') /\
    UoO' 1 = surface_velocity body pO AX /\ UoO' 2 = surface_velocity body pO AY /\
    UoO' 3 = surface_velocity body pO AZ /\ UoO' 0 = UoO 0 /\
    ((forall s, poly_V body TO s == 0 /\ poly_W body TO s == 0)%Q ->
     (UoO' 1%Z == 0 /\ UoO' 2%Z == 0 /\ UoO' 3%Z == 0)%Q).
Proof.
  intros Hidw Hcf. unfold FlowReconstruction. rewrite Hidw.
  destruct (Qlt_le_dec 0 (poly_cf body)) as [_|Hle];
    [|exfalso; apply (Qlt_irrefl 0); now apply Qlt_le_trans with (poly_cf body)].
  match goal with
  | |- context [ApplyWeighting ?a ?b ?c ?d ?e] =>
      destruct (ApplyWeighting a b c d e) as [ws' UoI'] eqn:Haw
  end.
  eexists. eexists. split; [reflexivity|].
  assert (H1 : forall (a : RealArr) v, (if Qlt_le_dec (poly_T body) 0
                      then upd a 5 v else upd a 5 (poly_T body)) 1 = a 1)
    by (intros; destruct (Qlt_le_dec _ _); now rewrite upd_other by lia).
  assert (H2 : forall (a : RealArr) v, (if Qlt_le_dec (poly_T body) 0
                      then upd a 5 v else upd a 5 (poly_T body)) 2 = a 2)
    by (intros; destruct (Qlt_le_dec _ _); now rewrite upd_other by lia).
  assert (H3 : forall (a : RealArr) v, (if Qlt_le_dec (poly_T body) 0
                      then upd a 5 v else upd a 5 (poly_T body)) 3 = a 3)
    by (intros; destruct (Qlt_le_dec _ _); now rewrite upd_other by lia).
  assert (H0 : forall (a : RealArr) v, (if Qlt_le_dec (poly_T body) 0
                      then upd a 5 v else upd a 5 (poly_T body)) 0 = a 0)
    by (intros; destruct (Qlt_le_dec _ _); now rewrite upd_other by lia).
  rewrite H0, H1, H2, H3.
  repeat (rewrite ?upd_same; rewrite ?upd_other by lia).
  split; [reflexivity|]. split; [reflexivity|]. split; [reflexivity|].
  split; [reflexivity|].
  intros Hrest. unfold surface_velocity, Cross. simpl.
  destruct (Hrest AX) as [-> ->], (Hrest AY) as [-> ->], (Hrest AZ) as [-> ->].
  repeat split; ring.
Qed.

(** X7. On a slip wall ([cf] not positive), when the normal and the two
    tangents that [OrthogonalSpace] returns form an orthonormal frame, the
    boundary velocity of [FlowReconstruction] has the normal component of the
    solid surface and the tangential components of the interpolated image
    velocity. *)
Theorem FlowReconstruction_slip (ws : Q) (UoI : RealArr) (Ta Tb : RealVec) :
  InverseDistanceWeighting fuel tn n p h type g pt nodes model = Some (ws, UoI) ->
  (poly_cf body <= 0)%Q ->
  OrthogonalSpace N = (Ta, Tb) ->
  (Dot N N == 1 /\ Dot Ta Ta == 1 /\ Dot Tb Tb == 1)%Q ->
  (Dot N Ta == 0 /\ Dot N Tb == 0 /\ Dot Ta Tb == 0)%Q ->
  exists UoO' UoI',
    FlowReconstruction fuel tn n p h type g body pt nodes model pO N UoO
    = Some (UoO', UoI') /\
    let v := mkRealVec (UoO' 1) (UoO' 2) (UoO' 3) in
    let VI := mkRealVec (UoI 1%Z * (1 / ws))%Q (UoI 2%Z * (1 / ws))%Q
                (UoI 3%Z * (1 / ws))%Q in
    (Dot v N == Dot (surface_velocity body pO) N)%Q /\
    (Dot v Ta == Dot VI Ta)%Q /\ (Dot v Tb == Dot VI Tb)%Q.
Proof.
  intros Hidw Hcf Hframe (HNN & HTa & HTb) (HNTa & HNTb & HTaTb).
  unfold FlowReconstruction. rewrite Hidw, Hframe.
  destruct (Qlt_le_dec 0 (poly_cf body)) as [Hlt|_];
    [exfalso; apply (Qlt_irrefl 0); now apply Qlt_le_trans with (poly_cf body)|].
  match goal with
  | |- context [ApplyWeighting ?a ?b ?c ?d ?e] =>
      destruct (ApplyWeighting a b c d e) as [ws' UoI'] eqn:Haw
  end.
  eexists. eexists. split; [reflexivity|]. clear Haw.
  assert (H1 : forall (a : RealArr) v, (if Qlt_le_dec (poly_T body) 0
                      then upd a 5 v else upd a 5 (poly_T body)) 1 = a 1)
    by (intros; destruct (Qlt_le_dec _ _); now rewrite upd_other by lia).
  assert (H2 : forall (a : RealArr) v, (if Qlt_le_dec (poly_T body) 0
                      then upd a 5 v else upd a 5 (poly_T body)) 2 = a 2)
    by (intros; destruct (Qlt_le_dec _ _); now rewrite upd_other by lia).
  assert (H3 : forall (a : RealArr) v, (if Qlt_le_dec (poly_T body) 0
                      then upd a 5 v else upd a 5 (poly_T body)) 3 = a 3)
    by (intros; destruct (Qlt_le_dec _ _); now rewrite upd_other by lia).
  cbv zeta. rewrite H1, H2, H3.
  repeat (rewrite ?upd_same; rewrite ?upd_other by lia).
  fold (surface_velocity body pO).
  set (VI := mkRealVec (UoI 1%Z * (1 / ws))%Q (UoI 2%Z * (1 / ws))%Q
               (UoI 3%Z * (1 / ws))%Q).
  set (a := Dot (surface_velocity body pO) N).
  set (b := Dot VI Ta).
  set (c := Dot VI Tb).
  change (mkRealVec a b c AX) with a.
  change (mkRealVec a b c AY) with b.
  change (mkRealVec a b c AZ) with c.
  assert (HTaN : (Dot Ta N == 0)%Q) by (rewrite <- HNTa; unfold Dot; ring).
  assert (HTbN : (Dot Tb N == 0)%Q) by (rewrite <- HNTb; unfold Dot; ring).
  assert (HTbTa : (Dot Tb Ta == 0)%Q) by (rewrite <- HTaTb; unfold Dot; ring).
  split; [|split].
  - transitivity (a * Dot N N + b * Dot Ta N + c * Dot Tb N)%Q.
    + unfold Dot. simpl. ring.
    + rewrite HNN, HTaN, HTbN. ring.
  - transitivity (a * Dot N Ta + b * Dot Ta Ta + c * Dot Tb Ta)%Q.
    + unfold Dot. simpl. ring.
    + rewrite HNTa, HTa, HTbTa. ring.
  - transitivity (a * Dot N Tb + b * Dot Ta Tb + c * Dot Tb Tb)%Q.
    + unfold Dot. simpl. ring.
    + rewrite HNTb, HTaTb, HTb. ring.
Qed.


End Image_extra.

(** ** Further properties of the layer searches *)

Section Layer_extra.

Context {E : Extern}.

(** X9. [InterfacialState] returns the layer of the nearest heterogeneous
    node: a result [r] other than zero means that the first position of the
    path, among the first [end], whose node is not an exterior node and has
    another geometry identifier than [gid], lies in layer [r], the first
    layer whose separator exceeds the position.  Without such a node among
    the first [end] positions, and in particular when [end] or the number of
    layers is not positive, the result is zero. *)
Theorem InterfacialState_nearest (part : Partition) (node : Nodes)
  (k j i g e : Z) :
  let other := path_other part node k j i g in
  let s := InterfacialState k j i g e (part_path part) node part in
  (forall r, r <> 0 ->
     (s = r <->
      exists n,
        (0 <= n < e /\ other n = true /\ forall m, 0 <= m < n -> other m = false) /\
        (1 <= r <= part_gl part /\ n < part_pathSep part r /\
         forall r', 1 <= r' < r -> part_pathSep part r' <= n))) /\
  ((forall n, 0 <= n < e -> other n = false) -> s = 0) /\
  (e <= 0 -> s = 0) /\
  (part_gl part <= 0 -> s = 0).
Proof.
  intros other s. subst s. unfold InterfacialState.
  rewrite InterfacialState_scan_layer, layer_scan_first. fold other.
  assert (Hnone : (forall n, 0 <= n < e -> other n = false) ->
                  match find other (zrange 0 e) with
                  | Some n => match path_layer part n with Some r => r | None => 0 end
                  | None => 0
                  end = 0).
  { intros H. apply find_zrange_none in H. now rewrite H. }
  split; [|split; [exact Hnone|split]].
  - intros r Hr. split.
    + intros Hs.
      destruct (find other (zrange 0 e)) as [n|] eqn:Hfind; [|congruence].
      destruct (path_layer part n) as [r0|] eqn:Hl; [|congruence].
      subst r0. exists n. split.
      * now apply find_zrange_least.
      * now apply path_layer_spec.
    + intros (n & Hfirst & Hlayer).
      apply find_zrange_least in Hfirst. apply path_layer_spec in Hlayer.
      now rewrite Hfirst, Hlayer.
  - intros He. apply Hnone. intros n Hn. lia.
  - intros Hgl. destruct (find other (zrange 0 e)) as [n|]; [|reflexivity].
    destruct (path_layer part n) as [r|] eqn:Hl; [|reflexivity].
    apply path_layer_spec in Hl. lia.
Qed.

End Layer_extra.

(** ** Further properties of the three phases of [ComputeGeometryDomain] *)

Lemma released_idempotent (g : Geometry) (nd : Node) :
  released g (released g nd) = released g nd.
Proof.
  unfold released.
  destruct (0 >=? gid nd) eqn:H0.
  - destruct nd; reflexivity.
  - destruct (1 =? poly_state (poly g (gid nd - 1))) eqn:H1.
    + cbn [gid set_gst set_lid]. rewrite H0, H1. destruct nd; reflexivity.
    + destruct (0 <? lid nd) eqn:H2.
      * destruct nd; reflexivity.
      * now rewrite H0, H1, H2.
Qed.

Section Reset_extra.

Context {E : Extern}.
Variables (pt : Partition) (g : Geometry).

Local Abbreviation reset' :=
  (fun s c => on_cell (InitializeGeometryDomain_node pt g) c s).

Lemma reset_value (nodes : Nodes) (c : Z * Z * Z) :
  reset' nodes c (cell_index pt c) = released g (nodes (cell_index pt c)).
Proof.
  destruct c as [[k j] i]. cbn [on_cell cell_index].
  unfold InitializeGeometryDomain_node, released. cbv zeta.
  destruct (0 >=? gid (nodes (node_index pt k j i))); [apply upd_node_same|].
  destruct (1 =? poly_state _); [apply upd_node_same|].
  destruct (0 <? lid _); [apply upd_node_same | reflexivity].
Qed.

(** However often the loop nest meets a stored node, the node ends as the
    body leaves it at the first visit. *)
Lemma reset_released (l : list (Z * Z * Z)) (nodes : Nodes) (x : Z) :
  fold_left reset' l nodes x
  = if existsb (fun c => cell_index pt c =? x) l then released g (nodes x)
    else nodes x.
Proof.
  revert nodes. induction l as [|c l IH]; intros nodes; [reflexivity|].
  cbn [fold_left existsb]. rewrite IH.
  destruct (cell_index pt c =? x) eqn:Hx.
  - apply Z.eqb_eq in Hx. subst x. cbn [orb]. rewrite reset_value.
    destruct (existsb _ l); [apply released_idempotent | reflexivity].
  - cbn [orb]. apply Z.eqb_neq in Hx.
    assert (Hr : reset' nodes c x = nodes x).
    { destruct c as [[k j] i]. cbn [on_cell]. cbn [cell_index] in Hx.
      apply InitializeGeometryDomain_node_other. congruence. }
    cbv beta in Hr. now rewrite Hr.
Qed.

End Reset_extra.

Section Reset_theorems.

Context {E : Extern}.

Lemma InitializeGeometryDomain_released (space : Space) (x : Z) :
  node (InitializeGeometryDomain space) x
  = if existsb (fun c => cell_index (part space) c =? x) (interior_cells (part space))
    then released (geo space) (node space x)
    else node space x.
Proof.
  rewrite InitializeGeometryDomain_cells. cbn [node set_node].
  apply reset_released.
Qed.

(** X10. What [InitializeGeometryDomain] does to an interior node depends
    on that node alone.  State and face identifier are kept.  A node without
    owner, also one with a negative identifier, ends with identifier zero
    and no markers; a node of a stationary polyhedron keeps its owner and
    loses its markers; an interfacial node of a moving polyhedron is
    released; any other node of a moving polyhedron is left as it is.  A
    stored node that is the node of no interior position is left as it
    is. *)
Theorem InitializeGeometryDomain_resets (space : Space) (k j i : Z) :
  let pt := part space in
  let x := node_index pt k j i in
  let nd := node space x in
  let nd' := node (InitializeGeometryDomain space) x in
  (nMin pt AZ <= k < nMax pt AZ /\ nMin pt AY <= j < nMax pt AY /\
   nMin pt AX <= i < nMax pt AX ->
   U nd' = U nd /\ fid nd' = fid nd /\
   (gid nd <= 0 -> gid nd' = 0 /\ lid nd' = 0 /\ gst nd' = 0) /\
   (0 < gid nd -> poly_state (poly (geo space) (gid nd - 1)) = 1 ->
    gid nd' = gid nd /\ lid nd' = 0 /\ gst nd' = 0) /\
   (0 < gid nd -> poly_state (poly (geo space) (gid nd - 1)) <> 1 ->
    0 < lid nd -> gid nd' = 0 /\ lid nd' = 0 /\ gst nd' = 0) /\
   (0 < gid nd -> poly_state (poly (geo space) (gid nd - 1)) <> 1 ->
    lid nd <= 0 -> nd' = nd)) /\
  (forall y, (forall c, In c (interior_cells pt) -> cell_index pt c <> y) ->
     node (InitializeGeometryDomain space) y = node space y).
Proof.
  intros pt x nd nd'. split.
  - intros (Hk & Hj & Hi). subst nd'.
    rewrite InitializeGeometryDomain_released. fold pt.
    replace (existsb (fun c => cell_index pt c =? x) (interior_cells pt)) with true.
    2:{ symmetry. apply existsb_exists. exists (k, j, i). split.
        - apply In_box_cells. auto.
        - cbn [cell_index]. apply Z.eqb_refl. }
    fold nd. unfold released.
    destruct (0 >=? gid nd) eqn:H0.
    { cbn [U fid gid lid gst set_gst set_lid set_gid].
      repeat split; try reflexivity; intros; lia. }
    destruct (1 =? poly_state (poly (geo space) (gid nd - 1))) eqn:H1.
    { apply Z.eqb_eq in H1. cbn [U fid gid lid gst set_gst set_lid set_gid].
      repeat split; try reflexivity; intros; try lia; congruence. }
    apply Z.eqb_neq in H1.
    destruct (0 <? lid nd) eqn:H2.
    { cbn [U fid gid lid gst set_gst set_lid set_gid].
      repeat split; try reflexivity; intros; try lia; congruence. }
    repeat split; try reflexivity; intros; try lia; congruence.
  - intros y Hy. rewrite InitializeGeometryDomain_released. fold pt.
    replace (existsb (fun c => cell_index pt c =? y) (interior_cells pt)) with false;
      [reflexivity|].
    symmetry. apply not_true_is_false. intros Hex.
    apply existsb_exists in Hex as (c & Hc & Heq). apply Z.eqb_eq in Heq.
    now apply (Hy c Hc).
Qed.

(** X11. [InitializeGeometryDomain] is idempotent: a second call right
    after the first one changes no node. *)
Theorem InitializeGeometryDomain_idempotent (space : Space) (x : Z) :
  node (InitializeGeometryDomain (InitializeGeometryDomain space)) x
  = node (InitializeGeometryDomain space) x.
Proof.
  rewrite (InitializeGeometryDomain_released (InitializeGeometryDomain space)).
  change (part (InitializeGeometryDomain space)) with (part space).
  change (geo (InitializeGeometryDomain space)) with (geo space).
  rewrite InitializeGeometryDomain_released.
  destruct (existsb _ _); [apply released_idempotent | reflexivity].
Qed.

End Reset_theorems.

Section Ownership_extra.

Context {E : Extern}.
Variables (pt : Partition) (g : Geometry).

Lemma visit_state (nodes : Nodes) (v : Z * (Z * Z * Z)) (x : Z) :
  U (visit pt g nodes v x) = U (nodes x).
Proof.
  destruct (Z.eq_dec (cell_index pt (snd v)) x) as [Hx|Hx].
  - destruct (Z.eq_dec (gid (nodes x)) 0) as [H0|H0].
    + rewrite visit_at by exact H0. now destruct (claims pt g x v).
    + subst x. now rewrite visit_owned.
  - now rewrite visit_other.
Qed.

Lemma visits_state (V : list (Z * (Z * Z * Z))) (nodes : Nodes) (x : Z) :
  U (fold_left (visit pt g) V nodes x) = U (nodes x).
Proof.
  apply (fold_left_inv (fun s => U (s x) = U (nodes x))); [|reflexivity].
  intros v s _ Hs. now rewrite visit_state.
Qed.

Lemma visits_unvisited (V : list (Z * (Z * Z * Z))) (nodes : Nodes) (x : Z) :
  (forall v, In v V -> cell_index pt (snd v) <> x) ->
  fold_left (visit pt g) V nodes x = nodes x.
Proof.
  intros Hx.
  apply (fold_left_inv (fun s => s x = nodes x)); [|reflexivity].
  intros v s Hv Hs. rewrite visit_other; [exact Hs|]. now apply Hx.
Qed.

Lemma visits_nonnegative_index (v : Z * (Z * Z * Z)) :
  In v (visits pt g) -> 0 <= fst v.
Proof.
  destruct v as [n c]. intros Hv. apply In_visits in Hv. cbn [fst]. lia.
Qed.

(** The ownership phase either leaves a node as it is or hands it to a
    moving polyhedron with a face identifier. *)
Lemma visits_outcome (nodes : Nodes) (x : Z) :
  let nodes' := fold_left (visit pt g) (visits pt g) nodes in
  nodes' x = nodes x \/
  (gid (nodes x) = 0 /\
   exists n c,
     In (n, c) (visits pt g) /\ cell_index pt c = x /\
     accepts pt (poly g n) c = true /\
     nodes' x = set_fid (accepted_fid pt (poly g n) c) (set_gid (n + 1) (nodes x))).
Proof.
  intros nodes'. subst nodes'.
  destruct (Z.eq_dec (gid (nodes x)) 0) as [H0|H0].
  - rewrite visits_first; [|apply visits_nonnegative_index|exact H0].
    destruct (find (claims pt g x) (visits pt g)) as [[n c]|] eqn:Hfind;
      [|now left].
    right. split; [exact H0|]. exists n, c.
    apply find_some in Hfind as [Hin Hcl]. cbn [claims] in Hcl.
    apply andb_true_iff in Hcl as [Hidx Hacc]. apply Z.eqb_eq in Hidx.
    cbn [fst snd]. auto.
  - left. now apply visits_owned.
Qed.

End Ownership_extra.

Section Ownership_theorems.

Context {E : Extern}.

(** X12. [IdentifyGeometryNode] never changes the state or the layer
    markers of a node, and no node that has an owner.  A node that changes
    was unowned and ends with the identifier of a polyhedron that is not
    stationary and whose point test accepts a position of the search box
    stored at that node.  Without polyhedrons, and for a stored node that no
    search box of a moving polyhedron reaches, nothing changes. *)
Theorem IdentifyGeometryNode_frame (space : Space) (x : Z) :
  let pt := part space in
  let g := geo space in
  let nd := node space x in
  let nd' := node (IdentifyGeometryNode space) x in
  U nd' = U nd /\ lid nd' = lid nd /\ gst nd' = gst nd /\
  (gid nd <> 0 -> nd' = nd) /\
  (nd' <> nd ->
   gid nd = 0 /\ 1 <= gid nd' <= totN g /\
   poly_state (poly g (gid nd' - 1)) <> 1 /\
   exists c,
     In c (box_cells (search_box pt (poly g (gid nd' - 1)) MIN)
             (search_box pt (poly g (gid nd' - 1)) MAX)) /\
     cell_index pt c = x /\ accepts pt (poly g (gid nd' - 1)) c = true /\
     fid nd' = accepted_fid pt (poly g (gid nd' - 1)) c) /\
  ((forall v, In v (visits pt g) -> cell_index pt (snd v) <> x) -> nd' = nd) /\
  (totN g <= 0 -> nd' = nd).
Proof.
  intros pt g nd nd'. subst nd'. rewrite IdentifyGeometryNode_visits.
  fold pt g.
  destruct (visits_markers pt g (visits pt g) (node space) x) as (Hl & Hs & _).
  split; [apply visits_state|]. split; [exact Hl|]. split; [exact Hs|].
  split; [intros H0; now apply visits_owned|].
  split; [|split].
  - intros Hne.
    destruct (visits_outcome pt g (node space) x) as [Hsame|(H0 & n & c & Hin & Hx & Hacc & Heq)];
      [contradiction|].
    fold nd in H0, Heq. rewrite Heq. cbn [gid fid set_fid set_gid].
    replace (n + 1 - 1) with n by lia.
    apply In_visits in Hin as (Hn & Hst & Hbox).
    split; [exact H0|]. split; [lia|]. split; [exact Hst|].
    exists c. auto.
  - intros Hx. now apply visits_unvisited.
  - intros Hn. unfold visits. rewrite zrange_nil by lia. reflexivity.
Qed.

(** X13. [IdentifyGeometryNode] is idempotent: a second call right after
    the first one changes no node. *)
Theorem IdentifyGeometryNode_idempotent (space : Space) (x : Z) :
  node (IdentifyGeometryNode (IdentifyGeometryNode space)) x
  = node (IdentifyGeometryNode space) x.
Proof.
  rewrite (IdentifyGeometryNode_visits (IdentifyGeometryNode space)).
  change (part (IdentifyGeometryNode space)) with (part space).
  change (geo (IdentifyGeometryNode space)) with (geo space).
  rewrite IdentifyGeometryNode_visits.
  set (pt := part space). set (g := geo space).
  set (nodes1 := fold_left (visit pt g) (visits pt g) (node space)).
  destruct (Z.eq_dec (gid (nodes1 x)) 0) as [H1|H1].
  - rewrite visits_first; [|apply visits_nonnegative_index|exact H1].
    destruct (find (claims pt g x) (visits pt g)) as [v|] eqn:Hfind; [|reflexivity].
    exfalso.
    destruct (Z.eq_dec (gid (node space x)) 0) as [H0|H0].
    + unfold nodes1 in H1.
      rewrite visits_first in H1; [|apply visits_nonnegative_index|exact H0].
      rewrite Hfind in H1. cbn [gid set_fid set_gid] in H1.
      apply find_some in Hfind as [Hin _].
      apply visits_nonnegative_index in Hin. lia.
    + unfold nodes1 in H1. rewrite visits_owned in H1 by exact H0. contradiction.
  - now apply visits_owned.
Qed.

End Ownership_theorems.

(** ** Further properties of [ComputeGeometryDomain] *)

Section Classification_extra.

Context {E : Extern}.
Variables (pt : Partition) (fuel : nat) (model : Model).

Local Abbreviation step' := (on_cell (IdentifyInterfacialNode_node fuel pt model)).

(** The body of the classification writes the state of a node only at the
    time level [TO], and only of an unowned node that carries a face
    identifier. *)
Lemma IdentifyInterfacialNode_node_state (nodes nodes' : Nodes) (k j i x : Z) :
  IdentifyInterfacialNode_node fuel pt model k j i nodes = Some nodes' ->
  (forall t, t <> TO -> U (nodes' x) t = U (nodes x) t) /\
  (gid (nodes x) <> 0 \/ fid (nodes x) = NONE ->
   U (nodes' x) = U (nodes x) /\ fid (nodes' x) = fid (nodes x)).
Proof.
  intros Hrun.
  destruct (Z.eq_dec (gid (nodes (node_index pt k j i))) 0) as [H0|H0].
  - destruct (Z.eq_dec (fid (nodes (node_index pt k j i))) NONE) as [Hf|Hf].
    + rewrite IdentifyInterfacialNode_node_normal in Hrun by assumption.
      inversion Hrun; subst nodes'. auto.
    + rewrite IdentifyInterfacialNode_node_joined in Hrun by assumption.
      destruct (InverseDistanceWeighting _ _ _ _ _ _ _ _ _ _) as [[ws Uo]|];
        [|discriminate].
      inversion Hrun; subst nodes'. clear Hrun.
      destruct (Z.eq_dec x (node_index pt k j i)) as [->|Hx].
      * rewrite reconstruct_node_at. cbn [U fid set_fid set_U]. split.
        -- intros t Ht. apply Z.eqb_neq in Ht. now rewrite Ht.
        -- intros [Hg|Hn]; contradiction.
      * rewrite reconstruct_node_other by exact Hx. auto.
  - rewrite IdentifyInterfacialNode_node_owned in Hrun by exact H0.
    inversion Hrun; subst nodes'. clear Hrun.
    destruct (Z.eq_dec x (node_index pt k j i)) as [->|Hx].
    + rewrite classify_node_at. cbn [U fid set_gst set_lid]. auto.
    + rewrite classify_node_other by exact Hx. auto.
Qed.

Lemma classification_state (l : list (Z * Z * Z)) (nodes nodes' : Nodes) :
  foldM step' l nodes = Some nodes' ->
  forall x,
    gid (nodes' x) = gid (nodes x) /\
    (forall t, t <> TO -> U (nodes' x) t = U (nodes x) t) /\
    (gid (nodes x) <> 0 \/ fid (nodes x) = NONE ->
     U (nodes' x) = U (nodes x) /\ fid (nodes' x) = fid (nodes x)).
Proof.
  intros Hrun.
  apply (foldM_inv
    (fun s : Nodes => forall x,
       gid (s x) = gid (nodes x) /\
       (forall t, t <> TO -> U (s x) t = U (nodes x) t) /\
       (gid (nodes x) <> 0 \/ fid (nodes x) = NONE ->
        U (s x) = U (nodes x) /\ fid (s x) = fid (nodes x)))
    step' l) with (s := nodes); [| |exact Hrun].
  - intros [[k j] i] s s' _ Hs Hstep x. cbn [on_cell] in Hstep.
    destruct (Hs x) as (Hg & Ht & Hkeep).
    destruct (@IdentifyInterfacialNode_node_state s s' k j i x Hstep) as (Ht' & Hkeep').
    assert (Hg' : gid (s' x) = gid (s x))
      by (apply (@step_gid E pt fuel model (k, j, i)); exact Hstep).
    split; [congruence|]. split.
    + intros t Hne. rewrite Ht' by exact Hne. now apply Ht.
    + intros Hpre. destruct (Hkeep Hpre) as (HU & Hf).
      destruct Hkeep' as (HU' & Hf').
      * destruct Hpre as [Hn|Hn]; [left|right]; congruence.
      * split; congruence.
  - intros x. auto.
Qed.

(** A node that the classification phase does not visit is left as it is. *)
Lemma classification_unvisited (l : list (Z * Z * Z)) (nodes nodes' : Nodes) (x : Z) :
  (forall c, In c l -> cell_index pt c <> x) ->
  foldM step' l nodes = Some nodes' -> nodes' x = nodes x.
Proof.
  intros Hx Hrun.
  apply (foldM_inv (fun s : Nodes => s x = nodes x) step' l) with (s := nodes);
    [|reflexivity|exact Hrun].
  intros c s s' Hc Hs Hstep.
  destruct (step_facts pt fuel model c s Hstep) as (Hother & _).
  rewrite Hother; [exact Hs|]. intros Heq. now apply (Hx c Hc).
Qed.

(** After the classification phase an unowned node that the phase visits is
    a normal node. *)
Lemma classification_unowned (l : list (Z * Z * Z)) (nodes nodes' : Nodes) :
  (forall c, In c l -> gid (nodes (cell_index pt c)) = 0 ->
             lid (nodes (cell_index pt c)) = 0 /\ gst (nodes (cell_index pt c)) = 0) ->
  foldM step' l nodes = Some nodes' ->
  forall c, In c l ->
    gid (nodes' (cell_index pt c)) = 0 ->
    fid (nodes' (cell_index pt c)) = NONE /\ lid (nodes' (cell_index pt c)) = 0 /\
    gst (nodes' (cell_index pt c)) = 0.
Proof.
  intros HQ Hrun.
  set (Inv := fun s : Nodes =>
    forall c, In c l -> gid (s (cell_index pt c)) = 0 ->
              lid (s (cell_index pt c)) = 0 /\ gst (s (cell_index pt c)) = 0).
  set (P := fun (c : Z * Z * Z) (s : Nodes) =>
    gid (s (cell_index pt c)) = 0 ->
    fid (s (cell_index pt c)) = NONE /\ lid (s (cell_index pt c)) = 0 /\
    gst (s (cell_index pt c)) = 0).
  assert (Hest : forall a s s', In a l -> Inv s -> step' a s = Some s' -> P a s').
  { intros a s s' Ha Hi Hstep. unfold P.
    destruct (step_facts pt fuel model a s Hstep) as (_ & Hg & _ & Hfree & _).
    intros H0. rewrite Hg in H0.
    destruct (Hfree H0) as (Hf & Hl & Hs). destruct (Hi a Ha H0) as (Hl0 & Hs0).
    rewrite Hl, Hs. auto. }
  assert (HInv : forall a s s', In a l -> Inv s -> step' a s = Some s' -> Inv s').
  { intros a s s' Ha Hi Hstep c Hc Hg.
    destruct (step_facts pt fuel model a s Hstep) as (Hother & Hgid & _ & Hfree & _).
    destruct (Z.eq_dec (cell_index pt c) (cell_index pt a)) as [Heq|Hne].
    - rewrite Heq in *. rewrite Hgid in Hg.
      destruct (Hfree Hg) as (_ & Hl & Hs). rewrite Hl, Hs. now apply (Hi a).
    - rewrite Hother in * by exact Hne. now apply Hi. }
  apply (foldM_visited Inv P step' l) with (s := nodes); auto.
  intros a b s s' Ha Hb Hi Hp Hstep.
  destruct (Z.eq_dec (cell_index pt b) (cell_index pt a)) as [Heq|Hne].
  - unfold P. rewrite Heq. now apply (Hest a s s').
  - destruct (step_facts pt fuel model a s Hstep) as (Hother & _).
    unfold P in *. rewrite Hother by exact Hne. exact Hp.
Qed.

End Classification_extra.

Section Compute_theorems.

Context {E : Extern}.

(** X14. After [ComputeGeometryDomain] no interior node has a negative
    geometry identifier, and an interior node without owner is a normal
    node: its face identifier is [NONE] and it has neither an interfacial
    layer nor a ghost layer; so a node with a layer has an owner. *)
Theorem ComputeGeometryDomain_unowned (fuel : nat) (space space' : Space)
  (model : Model) (k j i : Z) :
  let pt := part space in
  let nd := node space' (node_index pt k j i) in
  ComputeGeometryDomain fuel space model = Some space' ->
  nMin pt AZ <= k < nMax pt AZ ->
  nMin pt AY <= j < nMax pt AY ->
  nMin pt AX <= i < nMax pt AX ->
  0 <= gid nd /\
  (gid nd = 0 -> fid nd = NONE /\ lid nd = 0 /\ gst nd = 0) /\
  (lid nd <> 0 -> gid nd <> 0) /\ (gst nd <> 0 -> gid nd <> 0).
Proof.
  intros pt nd Hrun Hk Hj Hi.
  rewrite ComputeGeometryDomain_phases in Hrun. fold pt in Hrun.
  destruct (foldM _ _ _) as [nodes'|] eqn:Hphase; [|discriminate].
  inversion Hrun; subst space'. clear Hrun. cbn [node] in nd.
  assert (Hc : In (k, j, i) (interior_cells pt))
    by (apply In_box_cells; auto).
  pose proof (@classification_unowned E pt fuel model (interior_cells pt) _ _
                (fun c Hc => proj2 (before_classification space c Hc)) Hphase
                (k, j, i) Hc) as Hfree.
  cbn [cell_index] in Hfree. fold nd in Hfree.
  pose proof (classification_gid pt fuel model _ _ Hphase (node_index pt k j i)) as Hg.
  fold nd in Hg.
  pose proof (proj1 (before_classification space (k, j, i) Hc)) as Hpos.
  cbn [cell_index] in Hpos. fold pt in Hpos. rewrite <- Hg in Hpos.
  split; [exact Hpos|]. split; [exact Hfree|].
  split; intros Hne H0; destruct (Hfree H0) as (_ & Hl & Hs); congruence.
Qed.

(** X15. The layers that [ComputeGeometryDomain] leaves in an owned
    interior node are those of the final ownership map: the interfacial layer
    is what [InterfacialState] returns, and the ghost layer what line 269
    computes, on the node store as the call leaves it, for an interior
    position stored at that node. *)
Theorem ComputeGeometryDomain_consistent (fuel : nat) (space space' : Space)
  (model : Model) (k j i : Z) :
  let pt := part space in
  let x := node_index pt k j i in
  ComputeGeometryDomain fuel space model = Some space' ->
  nMin pt AZ <= k < nMax pt AZ ->
  nMin pt AY <= j < nMax pt AY ->
  nMin pt AX <= i < nMax pt AX ->
  gid (node space' x) <> 0 ->
  exists k' j' i',
    (nMin pt AZ <= k' < nMax pt AZ /\ nMin pt AY <= j' < nMax pt AY /\
     nMin pt AX <= i' < nMax pt AX) /\
    node_index pt k' j' i' = x /\
    lid (node space' x)
    = InterfacialState k' j' i' (gid (node space' x)) (part_pathSep pt 0)
        (part_path pt) (node space') pt /\
    gst (node space' x) = classified_gst pt (node space') k' j' i'.
Proof.
  intros pt x Hrun Hk Hj Hi Hown.
  rewrite ComputeGeometryDomain_phases in Hrun. fold pt in Hrun.
  destruct (foldM _ _ _) as [nodes'|] eqn:Hphase; [|discriminate].
  inversion Hrun; subst space'. clear Hrun. cbn [node] in *.
  match type of Hphase with
  | foldM _ _ ?nb = _ => set (nodesB := nb) in *
  end.
  assert (Hc : In (k, j, i) (interior_cells pt))
    by (apply In_box_cells; auto).
  pose proof (classification_gid pt fuel model _ _ Hphase) as Hg.
  assert (HownB : gid (nodesB x) <> 0) by (rewrite <- Hg; exact Hown).
  pose proof (classification_owned pt fuel model _ _ x Hphase HownB) as Hlast.
  destruct (find (fun c => cell_index pt c =? x) (rev (interior_cells pt)))
    as [[[k' j'] i']|] eqn:Hfind.
  - apply find_some in Hfind as [Hin Hidx]. apply in_rev in Hin.
    apply Z.eqb_eq in Hidx. cbn [cell_index] in Hidx.
    apply In_box_cells in Hin.
    exists k', j', i'. split; [tauto|]. split; [exact Hidx|].
    assert (Hl : lid (nodes' x) = cell_lid pt nodes' (k', j', i')).
    { rewrite (cell_lid_gid pt nodesB nodes' (k', j', i') Hg), Hlast. reflexivity. }
    assert (Hs : gst (nodes' x) = cell_gst pt nodes' (k', j', i')).
    { rewrite (cell_gst_gid pt nodesB nodes' (k', j', i') Hg), Hlast. reflexivity. }
    rewrite Hl, Hs. cbn [cell_lid cell_gst]. split; [|reflexivity].
    unfold classified_lid. rewrite Hidx. reflexivity.
  - exfalso. apply in_rev in Hc.
    pose proof (find_none _ _ Hfind (k, j, i) Hc) as Hno.
    cbn [cell_index] in Hno. fold x in Hno. rewrite Z.eqb_refl in Hno.
    discriminate.
Qed.

(** X16. [ComputeGeometryDomain] keeps the flow state of the nodes.  It
    never writes a time level other than [TO]; the state of a node that ends
    with an owner is unchanged; and so is the state of a node that enters
    the call with the face identifier [NONE].  The only states that change
    are those of nodes that carry a face identifier and end without owner. *)
Theorem ComputeGeometryDomain_state (fuel : nat) (space space' : Space)
  (model : Model) (x : Z) :
  ComputeGeometryDomain fuel space model = Some space' ->
  (forall t, t <> TO -> U (node space' x) t = U (node space x) t) /\
  (gid (node space' x) <> 0 -> U (node space' x) = U (node space x)) /\
  (fid (node space x) = NONE -> U (node space' x) = U (node space x)) /\
  (U (node space' x) <> U (node space x) ->
   gid (node space' x) = 0 /\ fid (node space x) <> NONE /\
   fid (node space' x) = NONE).
Proof.
  intros Hrun.
  rewrite ComputeGeometryDomain_phases in Hrun.
  set (pt := part space) in *. set (g := geo space) in *.
  destruct (foldM _ _ _) as [nodes'|] eqn:Hphase; [|discriminate].
  inversion Hrun; subst space'. clear Hrun. cbn [node].
  match type of Hphase with
  | foldM _ _ (fold_left _ _ ?na) = _ => set (nodesA := na) in *
  end.
  set (nodesB := fold_left (visit pt g) (visits pt g) nodesA) in *.
  destruct (reset_fields pt g (interior_cells pt) (node space) x) as (HUA & HfA & _).
  fold nodesA in HUA, HfA.
  pose proof (visits_state pt g (visits pt g) nodesA x) as HUB. fold nodesB in HUB.
  destruct (@classification_state E pt fuel model _ _ _ Hphase x) as (Hg & Ht & Hkeep).
  assert (Howned : gid (nodes' x) <> 0 -> U (nodes' x) = U (node space x)).
  { intros Hown. rewrite Hg in Hown.
    destruct Hkeep as [HU _]; [now left|]. congruence. }
  assert (Hnone : fid (node space x) = NONE -> U (nodes' x) = U (node space x)).
  { intros Hf.
    pose proof (visits_outcome pt g nodesA x) as Hout. cbv zeta in Hout.
    fold nodesB in Hout.
    destruct Hout as [Hsame|(_ & n & c & Hin & _ & _ & Heq)].
    - destruct Hkeep as [HU _]; [right; rewrite Hsame; congruence|]. congruence.
    - apply Howned. rewrite Hg, Heq. cbn [gid set_fid set_gid].
      apply (visits_nonnegative_index pt g) in Hin. cbn [fst] in Hin. lia. }
  split; [|split; [exact Howned|split; [exact Hnone|]]].
  - intros t Hne. rewrite Ht by exact Hne. congruence.
  - intros Hchg.
    destruct (Z.eq_dec (gid (nodes' x)) 0) as [H0|H0];
      [|exfalso; apply Hchg; now apply Howned].
    destruct (Z.eq_dec (fid (node space x)) NONE) as [Hf|Hf];
      [exfalso; apply Hchg; now apply Hnone|].
    split; [exact H0|]. split; [exact Hf|].
    destruct (Z.eq_dec (fid (nodes' x)) NONE) as [Hf'|Hf']; [exact Hf'|].
    exfalso. apply Hchg.
    assert (Hstay : forall c, In c (interior_cells pt) -> cell_index pt c <> x).
    { intros c Hc Hidx. subst x.
      destruct (@classification_unowned E pt fuel model (interior_cells pt) _ _
                  (fun c Hc => proj2 (before_classification space c Hc)) Hphase
                  c Hc H0) as (HF & _).
      contradiction. }
    rewrite (@classification_unvisited E pt fuel model _ _ _ x Hstay Hphase). congruence.
Qed.

(** X17. [ComputeGeometryDomain] changes neither the partition nor the
    geometry, and it leaves alone every stored node that is the node of no
    interior position and of no position of the search box of a moving
    polyhedron, the exterior nodes of the usual layout among them. *)
Theorem ComputeGeometryDomain_frame (fuel : nat) (space space' : Space)
  (model : Model) :
  ComputeGeometryDomain fuel space model = Some space' ->
  part space' = part space /\ geo space' = geo space /\
  forall x,
    (forall c, In c (interior_cells (part space)) -> cell_index (part space) c <> x) ->
    (forall v, In v (visits (part space) (geo space)) ->
               cell_index (part space) (snd v) <> x) ->
    node space' x = node space x.
Proof.
  intros Hrun.
  rewrite ComputeGeometryDomain_phases in Hrun.
  set (pt := part space) in *. set (g := geo space) in *.
  destruct (foldM _ _ _) as [nodes'|] eqn:Hphase; [|discriminate].
  inversion Hrun; subst space'. clear Hrun. cbn [node part geo].
  split; [reflexivity|]. split; [reflexivity|].
  intros x Hint Hvis.
  rewrite (@classification_unvisited E pt fuel model _ _ _ x Hint Hphase).
  rewrite visits_unvisited by exact Hvis.
  now apply reset_unvisited.
Qed.

End Compute_theorems.

(** ** The geometric data and the treatment of the ghost nodes *)

Lemma foldM_idle {S A : Type} (body : A -> S -> option S) (l : list A) (s : S) :
  (forall a, In a l -> body a s = Some s) -> foldM body l s = Some s.
Proof.
  induction l as [|a l IH]; intros H; simpl; [reflexivity|].
  rewrite (H a (or_introl eq_refl)). apply IH. intros b Hb. apply H. now right.
Qed.

Section Geometric_extra.

Context {E : Extern} {G : Geometric}.



End Geometric_extra.

Section Treatment_extra.

Context {E : Extern} {G : Geometric}.
Variables (fuel : nat) (tn : Z) (ibmLayer : Z).
Variables (pt : Partition) (model : Model).

(** The body of the loop nest either skips the node or stores a state at
    the time level [tn] of a ghost node of the layer and of the polyhedron at
    hand. *)
Lemma ImmersedBoundaryTreatment_node_cases (n : Z) (body : Polyhedron)
  (r k j i : Z) (s s' : Treatment) :
  ImmersedBoundaryTreatment_node fuel tn ibmLayer pt model n body r k j i s = Some s' ->
  s' = s \/
  (gst (tr_node s (node_index pt k j i)) = r /\
   gid (tr_node s (node_index pt k j i)) = n + 1 /\
   exists u,
     tr_node s'
     = upd_node (tr_node s) (node_index pt k j i)
         (set_U tn u (tr_node s (node_index pt k j i)))).
Proof.
  unfold ImmersedBoundaryTreatment_node. cbv zeta.
  destruct (negb (r =? gst _) || negb (n + 1 =? gid _)) eqn:Hskip.
  - intros H. inversion H. now left.
  - apply orb_false_iff in Hskip as [Hr Hn].
    apply negb_false_iff in Hr, Hn. apply Z.eqb_eq in Hr, Hn.
    destruct (ghost_primitive _ _ _ _ _ _ _ _ _ _ _ _) as [[UoG UoO]|];
      [|discriminate].
    intros H. inversion H. right. cbn [tr_node]. eauto.
Qed.

(** The body returns the carried variables as they are when the node is not
    a ghost node of the layer and the polyhedron at hand. *)
Lemma ImmersedBoundaryTreatment_node_skip (n : Z) (body : Polyhedron)
  (r k j i : Z) (s : Treatment) :
  gst (tr_node s (node_index pt k j i)) <> r \/
  gid (tr_node s (node_index pt k j i)) <> n + 1 ->
  ImmersedBoundaryTreatment_node fuel tn ibmLayer pt model n body r k j i s = Some s.
Proof.
  intros Hskip. unfold ImmersedBoundaryTreatment_node. cbv zeta.
  replace (negb (r =? gst (tr_node s (node_index pt k j i)))
           || negb (n + 1 =? gid (tr_node s (node_index pt k j i)))) with true;
    [reflexivity|].
  symmetry. apply orb_true_iff.
  destruct Hskip as [H|H]; [left|right]; apply negb_true_iff, Z.eqb_neq; congruence.
Qed.

End Treatment_extra.

Section Treatment_node_theorems.

Context {E : Extern} {G : Geometric}.
Variables (fuel : nat) (tn : Z) (ibmLayer : Z).
Variables (pt : Partition) (model : Model).
Variables (n : Z) (body : Polyhedron) (r k j i : Z) (s : Treatment).



End Treatment_node_theorems.

Section Treatment_theorems.

Context {E : Extern} {G : Geometric}.

(** X22. [ImmersedBoundaryTreatment] writes flow states of ghost nodes and
    nothing else.  It changes no geometry identifier, face identifier,
    interfacial layer or ghost layer, and no state at a time level other
    than [tn]; a node that is not a ghost node of a layer from 1 to [gl] of
    one of the polyhedrons is left as it is; partition and geometry are
    kept. *)
Theorem ImmersedBoundaryTreatment_frame (fuel : nat) (tn : Z)
  (space space' : Space) (model : Model) (ibmLayer : Z) :
  ImmersedBoundaryTreatment fuel tn space model ibmLayer = Some space' ->
  part space' = part space /\ geo space' = geo space /\
  forall x,
    gid (node space' x) = gid (node space x) /\
    fid (node space' x) = fid (node space x) /\
    lid (node space' x) = lid (node space x) /\
    gst (node space' x) = gst (node space x) /\
    (forall t, t <> tn -> U (node space' x) t = U (node space x) t) /\
    (~ (1 <= gst (node space x) <= part_gl (part space) /\
        1 <= gid (node space x) <= totN (geo space)) ->
     node space' x = node space x).
Proof.
  unfold ImmersedBoundaryTreatment.
  set (pt := part space). set (g := geo space).
  destruct (for_rangeM _ _ _ _) as [s'|] eqn:Hrun; [|discriminate].
  intros H. inversion H; subst space'. clear H. cbn [part geo node set_node].
  split; [reflexivity|]. split; [reflexivity|].
  set (P := fun s : Treatment => forall x,
    gid (tr_node s x) = gid (node space x) /\
    fid (tr_node s x) = fid (node space x) /\
    lid (tr_node s x) = lid (node space x) /\
    gst (tr_node s x) = gst (node space x) /\
    (forall t, t <> tn -> U (tr_node s x) t = U (node space x) t) /\
    (~ (1 <= gst (node space x) <= part_gl pt /\
        1 <= gid (node space x) <= totN g) ->
     tr_node s x = node space x)).
  change (P s'). unfold for_rangeM in Hrun.
  apply (fun Hstep Hinit => @foldM_inv _ _ P _ _ Hstep _ _ Hinit Hrun).
  - intros n s1 s2 Hn Hs1 Hbody. apply In_zrange in Hn.
    unfold ImmersedBoundaryTreatment_poly, for_rangeM in Hbody.
    apply (fun Hstep => @foldM_inv _ _ P _ _ Hstep _ _ Hs1 Hbody).
    intros r s3 s4 Hr Hs3 Hlayer. apply In_zrange in Hr.
    rewrite sweepM_cells in Hlayer.
    apply (fun Hstep => @foldM_inv _ _ P _ _ Hstep _ _ Hs3 Hlayer).
    intros [[k j] i] s5 s6 _ Hs5 Hnode. cbn [on_cell] in Hnode.
    apply ImmersedBoundaryTreatment_node_cases in Hnode
      as [->|(Hgst & Hgid & u & Hstore)]; [exact Hs5|].
    intros x. rewrite Hstore. destruct (Hs5 x) as (H1 & H2 & H3 & H4 & H5 & H6).
    destruct (Z.eq_dec x (node_index pt k j i)) as [Hx|Hx].
    + rewrite Hx in *. rewrite upd_node_same. cbn [gid fid lid gst U set_U].
      repeat split; try assumption.
      * intros t Ht. rewrite (proj2 (Z.eqb_neq t tn) Ht). now apply H5.
      * intros Hno. exfalso. apply Hno. lia.
    + rewrite upd_node_other by exact Hx. repeat split; assumption.
  - cbn [tr_node]. repeat split; reflexivity.
Qed.

(** X23. Without ghost nodes there is nothing to treat: when no node is a
    ghost node of a layer from 1 to [gl] of one of the polyhedrons, and so
    when there is no polyhedron or no layer, [ImmersedBoundaryTreatment]
    returns, whatever the bound on the searches, and leaves the space as it
    is. *)
Theorem ImmersedBoundaryTreatment_idle (fuel : nat) (tn : Z) (space : Space)
  (model : Model) (ibmLayer : Z) :
  (forall x, ~ (1 <= gst (node space x) <= part_gl (part space) /\
                1 <= gid (node space x) <= totN (geo space))) ->
  ImmersedBoundaryTreatment fuel tn space model ibmLayer = Some space.
Proof.
  intros Hidle. unfold ImmersedBoundaryTreatment, for_rangeM.
  rewrite (@foldM_idle _ _ _ (zrange 0 (totN (geo space)))
             (mkTreatment (node space) (fun _ => 0%Q) (fun _ => 0%Q))).
  - cbn [tr_node]. now destruct space.
  - intros n Hn. apply In_zrange in Hn.
    unfold ImmersedBoundaryTreatment_poly, for_rangeM.
    apply foldM_idle. intros r Hr. apply In_zrange in Hr.
    rewrite sweepM_cells. apply foldM_idle. intros [[k j] i] _. cbn [on_cell].
    apply ImmersedBoundaryTreatment_node_skip. cbn [tr_node].
    specialize (Hidle (node_index (part space) k j i)). lia.
Qed.

End Treatment_theorems.

(** ** The further properties on the sample configurations *)

Lemma ball_nearest_donor :
  donors (E := refExtern) sample_n (-1) 0 sample_part ball_nodes 1 <> [].
Proof. vm_compute. discriminate. Qed.

Lemma ball_no_nearer_donor (r' : Z) :
  0 <= r' < 1 ->
  donors (E := refExtern) sample_n (-1) 0 sample_part ball_nodes r' = [].
Proof. intros Hr. assert (r' = 0) by lia. subst r'. vm_compute. reflexivity. Qed.

Lemma InverseDistanceWeighting_nearest_witness :
  0 <= 1 /\
  donors (E := refExtern) sample_n (-1) 0 sample_part ball_nodes 1 <> [] /\
  (forall r', 0 <= r' < 1 ->
     donors (E := refExtern) sample_n (-1) 0 sample_part ball_nodes r' = []) /\
  (exists res,
     InverseDistanceWeighting (E := refExtern) 3 0 sample_n sample_p 0 (-1) 0
       sample_part ball_nodes sample_model = Some res) /\
  InverseDistanceWeighting (E := refExtern) 2 0 sample_n sample_p 0 (-1) 0
    sample_part ball_nodes sample_model = None.
Proof.
  assert (H1 : 0 <= 1) by lia.
  split; [exact H1|]. split; [exact ball_nearest_donor|].
  split; [exact ball_no_nearer_donor|]. split.
  - rewrite (@InverseDistanceWeighting_nearest refExtern 0 sample_n sample_p (-1) 0
               sample_part ball_nodes sample_model 0 1 3 H1 ball_nearest_donor
               ball_no_nearer_donor).
    eexists. reflexivity.
  - rewrite (@InverseDistanceWeighting_nearest refExtern 0 sample_n sample_p (-1) 0
               sample_part ball_nodes sample_model 0 1 2 H1 ball_nearest_donor
               ball_no_nearer_donor).
    reflexivity.
Defined.



Lemma padded_nodes_legal (x : Z) :
  0 <= x < part_n sample_part AX * part_n sample_part AY * part_n sample_part AZ ->
  padded_nodes x = fluid_nodes x.
Proof.
  intros Hx. change (0 <= x < 343) in Hx. unfold padded_nodes.
  replace ((0 <=? x) && (x <? 343)) with true; [reflexivity|].
  symmetry. apply andb_true_iff. split; [apply Z.leb_le | apply Z.ltb_lt]; lia.
Qed.

Lemma InverseDistanceWeighting_legal_witness :
  (forall x,
     0 <= x < part_n sample_part AX * part_n sample_part AY * part_n sample_part AZ ->
     padded_nodes x = fluid_nodes x) /\
  InverseDistanceWeighting (E := refExtern) 2 0 sample_n sample_p 2 (-1) 0
    sample_part padded_nodes sample_model
  = InverseDistanceWeighting (E := refExtern) 2 0 sample_n sample_p 2 (-1) 0
      sample_part fluid_nodes sample_model.
Proof.
  split; [exact padded_nodes_legal|].
  exact (@InverseDistanceWeighting_legal refExtern 0 sample_n sample_p (-1) 0
           sample_part fluid_nodes sample_model padded_nodes 2 2 padded_nodes_legal).
Defined.

Lemma FlowReconstruction_noslip_witness :
  InverseDistanceWeighting (E := refExtern) 2 0 sample_n sample_p 2 (-1) 0
    sample_part fluid_nodes sample_model = Some (sample_ws, sample_Uo) /\
  (0 < poly_cf (sample_sphere 0 1 350))%Q /\
  exists UoO' UoI',
    FlowReconstruction (E := refExtern) 2 0 sample_n sample_p 2 (-1) 0
      (sample_sphere 0 1 350) sample_part fluid_nodes sample_model
      (mkRealVec 0 1 1) (mkRealVec (-1) 0 0) (fun _ => 0%Q)
    = Some (UoO', UoI') /\
    (UoO' 1%Z == 0 /\ UoO' 2%Z == 0 /\ UoO' 3%Z == 0)%Q.
Proof.
  assert (Hcf : (0 < poly_cf (sample_sphere 0 1 350))%Q) by reflexivity.
  split; [exact sample_idw_returns|]. split; [exact Hcf|].
  destruct (@FlowReconstruction_noslip refExtern 2 0 sample_n sample_p 2 (-1) 0
              (sample_sphere 0 1 350) sample_part fluid_nodes sample_model
              (mkRealVec 0 1 1) (mkRealVec (-1) 0 0) (fun _ => 0%Q)
              sample_ws sample_Uo sample_idw_returns Hcf)
    as (UoO' & UoI' & Hrun & _ & _ & _ & _ & Hrest).
  exists UoO', UoI'. split; [exact Hrun|]. apply Hrest.
  intros s. destruct s; split; reflexivity.
Defined.

Lemma FlowReconstruction_slip_witness :
  InverseDistanceWeighting (E := refExtern) 2 0 sample_n sample_p 2 (-1) 0
    sample_part fluid_nodes sample_model = Some (sample_ws, sample_Uo) /\
  (poly_cf slip_sphere <= 0)%Q /\
  OrthogonalSpace (Extern := refExtern) (mkRealVec 0 1 0)
  = (mkRealVec 1 0 0, mkRealVec 0 0 (-1)) /\
  exists UoO' UoI',
    FlowReconstruction (E := refExtern) 2 0 sample_n sample_p 2 (-1) 0
      slip_sphere sample_part fluid_nodes sample_model
      (mkRealVec 1 2 1) (mkRealVec 0 1 0) (fun _ => 0%Q)
    = Some (UoO', UoI') /\
    (Dot (mkRealVec (UoO' 1%Z) (UoO' 2%Z) (UoO' 3%Z)) (mkRealVec 0 1 0)
     == Dot (surface_velocity (E := refExtern) slip_sphere (mkRealVec 1 2 1))
          (mkRealVec 0 1 0))%Q.
Proof.
  assert (Hcf : (poly_cf slip_sphere <= 0)%Q) by discriminate.
  assert (Hframe : OrthogonalSpace (Extern := refExtern) (mkRealVec 0 1 0)
                   = (mkRealVec 1 0 0, mkRealVec 0 0 (-1))) by reflexivity.
  assert (Hunit : (Dot (mkRealVec 0 1 0) (mkRealVec 0 1 0) == 1 /\
                   Dot (mkRealVec 1 0 0) (mkRealVec 1 0 0) == 1 /\
                   Dot (mkRealVec 0 0 (-1)) (mkRealVec 0 0 (-1)) == 1)%Q)
    by (repeat split; reflexivity).
  assert (Horth : (Dot (mkRealVec 0 1 0) (mkRealVec 1 0 0) == 0 /\
                   Dot (mkRealVec 0 1 0) (mkRealVec 0 0 (-1)) == 0 /\
                   Dot (mkRealVec 1 0 0) (mkRealVec 0 0 (-1)) == 0)%Q)
    by (repeat split; reflexivity).
  split; [exact sample_idw_returns|]. split; [exact Hcf|]. split; [exact Hframe|].
  destruct (@FlowReconstruction_slip refExtern 2 0 sample_n sample_p 2 (-1) 0
              slip_sphere sample_part fluid_nodes sample_model
              (mkRealVec 1 2 1) (mkRealVec 0 1 0) (fun _ => 0%Q)
              sample_ws sample_Uo (mkRealVec 1 0 0) (mkRealVec 0 0 (-1))
              sample_idw_returns Hcf Hframe Hunit Horth)
    as (UoO' & UoI' & Hrun & Hn & _).
  exists UoO', UoI'. split; [exact Hrun | exact Hn].
Defined.


Lemma unit_interior_222 :
  nMin (part unit_space) AZ <= 2 < nMax (part unit_space) AZ /\
  nMin (part unit_space) AY <= 2 < nMax (part unit_space) AY /\
  nMin (part unit_space) AX <= 2 < nMax (part unit_space) AX.
Proof. cbn. lia. Qed.

Lemma unit_interior_334 :
  nMin (part unit_space) AZ <= 3 < nMax (part unit_space) AZ /\
  nMin (part unit_space) AY <= 3 < nMax (part unit_space) AY /\
  nMin (part unit_space) AX <= 4 < nMax (part unit_space) AX.
Proof. cbn. lia. Qed.

Lemma ComputeGeometryDomain_unowned_witness :
  ComputeGeometryDomain (E := refExtern) 0 unit_space sample_model
  = Some unit_classified /\
  (nMin (part unit_space) AZ <= 2 < nMax (part unit_space) AZ /\
   nMin (part unit_space) AY <= 2 < nMax (part unit_space) AY /\
   nMin (part unit_space) AX <= 2 < nMax (part unit_space) AX) /\
  gid (node unit_classified 114) = 0 /\
  fid (node unit_classified 114) = -1 /\
  lid (node unit_classified 114) = 0 /\ gst (node unit_classified 114) = 0.
Proof.
  split; [exact unit_classified_returns|]. split; [exact unit_interior_222|].
  assert (H0 : gid (node unit_classified 114) = 0) by (vm_compute; reflexivity).
  split; [exact H0|].
  destruct (@ComputeGeometryDomain_unowned refExtern 0 unit_space unit_classified
              sample_model 2 2 2 unit_classified_returns
              (proj1 unit_interior_222) (proj1 (proj2 unit_interior_222))
              (proj2 (proj2 unit_interior_222))) as (_ & Hfree & _).
  exact (Hfree H0).
Defined.

Lemma ComputeGeometryDomain_consistent_witness :
  ComputeGeometryDomain (E := refExtern) 0 unit_space sample_model
  = Some unit_classified /\
  gid (node unit_classified (node_index (E := refExtern) (part unit_space) 3 3 4)) <> 0 /\
  exists k' j' i',
    node_index (E := refExtern) (part unit_space) k' j' i' = idx334 /\
    gst (node unit_classified idx334)
    = classified_gst (E := refExtern) (part unit_space) (node unit_classified) k' j' i'.
Proof.
  assert (Hown : gid (node unit_classified
                        (node_index (E := refExtern) (part unit_space) 3 3 4)) <> 0)
    by (vm_compute; discriminate).
  split; [exact unit_classified_returns|]. split; [exact Hown|].
  destruct (@ComputeGeometryDomain_consistent refExtern 0 unit_space unit_classified
              sample_model 3 3 4 unit_classified_returns
              (proj1 unit_interior_334) (proj1 (proj2 unit_interior_334))
              (proj2 (proj2 unit_interior_334)) Hown)
    as (k' & j' & i' & _ & Hidx & _ & Hgst).
  exists k', j', i'. split; [exact Hidx | exact Hgst].
Defined.

Lemma ComputeGeometryDomain_state_witness :
  ComputeGeometryDomain (E := refExtern) 0 unit_space sample_model
  = Some unit_classified /\
  gid (node unit_classified idx334) <> 0 /\
  U (node unit_classified idx334) = U (node unit_space idx334).
Proof.
  assert (Hown : gid (node unit_classified idx334) <> 0)
    by (vm_compute; discriminate).
  split; [exact unit_classified_returns|]. split; [exact Hown|].
  destruct (@ComputeGeometryDomain_state refExtern 0 unit_space unit_classified
              sample_model idx334 unit_classified_returns) as (_ & Howned & _).
  exact (Howned Hown).
Defined.

Lemma ComputeGeometryDomain_frame_witness :
  ComputeGeometryDomain (E := refExtern) 0 unit_space sample_model
  = Some unit_classified /\
  part unit_classified = part unit_space /\ geo unit_classified = geo unit_space.
Proof.
  split; [exact unit_classified_returns|].
  destruct (@ComputeGeometryDomain_frame refExtern 0 unit_space unit_classified
              sample_model unit_classified_returns) as (Hp & Hg & _).
  split; [exact Hp | exact Hg].
Defined.



Lemma unit_treated_returns :
  ImmersedBoundaryTreatment (E := refExtern) (G := refGeometric) 2 0
    unit_classified sample_model 1 = Some unit_treated.
Proof. vm_compute. reflexivity. Qed.

Lemma ImmersedBoundaryTreatment_frame_witness :
  ImmersedBoundaryTreatment (E := refExtern) (G := refGeometric) 2 0
    unit_classified sample_model 1 = Some unit_treated /\
  gst (node unit_treated idx334) = gst (node unit_classified idx334) /\
  node unit_treated idx333 = node unit_classified idx333.
Proof.
  split; [exact unit_treated_returns|].
  destruct (@ImmersedBoundaryTreatment_frame refExtern refGeometric 2 0
              unit_classified unit_treated sample_model 1 unit_treated_returns)
    as (_ & _ & Hnodes).
  split.
  - exact (proj1 (proj2 (proj2 (proj2 (Hnodes idx334))))).
  - apply (proj2 (proj2 (proj2 (proj2 (proj2 (Hnodes idx333)))))).
    vm_compute. intros [[H _] _]. apply H. reflexivity.
Defined.

Lemma fluid_no_ghost (x : Z) :
  ~ (1 <= gst (node unit_space x) <= part_gl (part unit_space) /\
     1 <= gid (node unit_space x) <= totN (geo unit_space)).
Proof.
  cbn [node unit_space]. unfold fluid_nodes.
  destruct (sample_interior x); cbn; lia.
Qed.

Lemma ImmersedBoundaryTreatment_idle_witness :
  (forall x,
     ~ (1 <= gst (node unit_space x) <= part_gl (part unit_space) /\
        1 <= gid (node unit_space x) <= totN (geo unit_space))) /\
  ImmersedBoundaryTreatment (E := refExtern) (G := refGeometric) 0 0 unit_space
    sample_model 1 = Some unit_space.
Proof.
  split; [exact fluid_no_ghost|].
  exact (@ImmersedBoundaryTreatment_idle refExtern refGeometric 0 0 unit_space
           sample_model 1 fluid_no_ghost).
Defined.




